(** * Regex -> NFA (Thompson) -> DFA (subset construction) -> DOT

    A shallow embedding of [automate-ui/lib/automata/regex.ts] and the
    properties of its pipeline.

    Modelling conventions.
    - A JavaScript string is a [string] (a list of [ascii] characters); the
      one-character strings the source passes around ([c], [d], the tokens
      of the postfix form) are [ascii] values, and a transition label is a
      [string], as in the source's [Transition] type.  A character of a
      pattern is one UTF-16 code unit and one code point at once, so that
      indexing ([re[i]]) and iteration ([for ... of]) read the same
      characters; a pattern with a character outside the Basic Multilingual
      Plane, on which the two differ, is not a string of the model.  The
      one character that the source itself writes outside the range of
      [ascii], the glyph of an epsilon label in the exported text, is
      written as the bytes of its UTF-8 form.
    - State ids are the numbers handed out by [newState]: natural numbers
      (the counter of a build stays far below 2^53, where a JavaScript
      number stops counting exactly).
    - The module-level counter [nextStateId] is threaded explicitly: a
      computation that may call [newState] or throw has type [Build A].
    - A JavaScript array used as a stack ([ops], [stack]) is a list whose
      head is the top of the stack ([push] is cons, [pop] takes the head).
    - A [Set<T>] is the list of its elements in insertion order, a
      [Map<string, number>] the list of its entries in insertion order. *)

From Stdlib Require Import String Ascii List Arith Bool Lia.
From Stdlib Require Import DecimalString DecimalNat Sorted Permutation.
Import ListNotations.

Local Open Scope string_scope.
Local Open Scope list_scope.

(** ** Source types *)

Record Transition : Type := mkTransition {
  t_from : nat;
  t_to : nat;
  t_symbol : option string   (* [None] is the source's [null]: epsilon *)
}.

Record NFA : Type := mkNFA {
  start : nat;
  accept : nat;
  states : list nat;
  transitions : list Transition
}.

Record DTransition : Type := mkDTransition {
  d_from : nat;
  d_to : nat;
  d_symbol : string
}.

Record DFA : Type := mkDFA {
  dfa_start : nat;
  acceptStates : list nat;
  dfa_states : list nat;
  dfa_transitions : list DTransition
}.

(** ** The build counter *)

Inductive BuildError : Type :=
| TypeError        (* reading a property of [undefined] after an empty [pop] *)
| InvalidPostfix.  (* [Error('Invalid regex/postfix; stack length != 1')] *)

(** A computation over the counter [nextStateId]: from the counter's value
    to a result or a thrown error, and the counter's value afterwards. *)
Definition Build (A : Type) : Type := nat -> (BuildError + A) * nat.

Definition ret {A} (a : A) : Build A := fun k => (inr a, k).
Definition throw {A} (e : BuildError) : Build A := fun k => (inl e, k).
Definition bind {A B} (m : Build A) (f : A -> Build B) : Build B :=
  fun k => match m k with
           | (inl e, k') => (inl e, k')
           | (inr a, k') => f a k'
           end.

Notation "x <- m ;; f" := (bind m (fun x => f))
  (at level 61, m at next level, right associativity).

Definition newState : Build nat := fun k => (inr k, S k).

Definition resetIds : Build unit := fun _ => (inr tt, 0).

(** ** Postfix conversion *)

Definition isOperator (c : ascii) : bool :=
  Ascii.eqb c "|" || Ascii.eqb c "*" || Ascii.eqb c ".".

Definition precedence (op : ascii) : nat :=
  if Ascii.eqb op "*" then 3
  else if Ascii.eqb op "." then 2
  else if Ascii.eqb op "|" then 1
  else 0.

(** The loop over [i] reads [re[i]] and looks one character ahead at
    [re[i + 1]]: a recursion on the remaining characters.  [re[i]] is a
    UTF-16 code unit, where the loops of [regexToPostfix] and
    [postfixToNFA] read code points ([for ... of]): on a literal made of
    two code units the source puts a dot between the two, which no string
    of the model shows.  What is proved of patterns as a whole, further
    down, is stated for the patterns written in ASCII ([asciiOnly]), on
    which a character, a code unit and a code point are the same thing. *)
Fixpoint insertConcats (re : string) : string :=
  match re with
  | EmptyString => EmptyString
  | String c rest =>
      String c
        (if Ascii.eqb c "(" || Ascii.eqb c "|" then insertConcats rest
         else match rest with
              | EmptyString => insertConcats rest
              | String d _ =>
                  if Ascii.eqb d "*" || Ascii.eqb d "|" || Ascii.eqb d ")"
                  then insertConcats rest
                  else String "." (insertConcats rest)
              end)
  end.

(** [while (ops.length && ops[ops.length - 1] !== '(') out.push(ops.pop()!)] *)
Fixpoint popToParen (ops : list ascii) (out : list ascii)
  : list ascii * list ascii :=
  match ops with
  | [] => ([], out)
  | o :: ops' =>
      if Ascii.eqb o "(" then (ops, out) else popToParen ops' (out ++ [o])
  end.

(** [while (ops.length && isOperator(top) && precedence(top) >= precedence(c))
       out.push(ops.pop()!)] *)
Fixpoint popHigher (c : ascii) (ops : list ascii) (out : list ascii)
  : list ascii * list ascii :=
  match ops with
  | [] => ([], out)
  | o :: ops' =>
      if isOperator o && Nat.leb (precedence c) (precedence o)
      then popHigher c ops' (out ++ [o])
      else (ops, out)
  end.

(** One turn of [for (const c of withConcats)], on the pair [(ops, out)]. *)
Definition postfixStep (c : ascii) (st : list ascii * list ascii)
  : list ascii * list ascii :=
  let (ops, out) := st in
  if Ascii.eqb c "(" then (c :: ops, out)
  else if Ascii.eqb c ")" then
    let (ops1, out1) := popToParen ops out in
    (tl ops1, out1)                       (* [ops.pop()], a no-op when empty *)
  else if isOperator c then
    let (ops1, out1) := popHigher c ops out in
    (c :: ops1, out1)
  else (ops, out ++ [c]).

Fixpoint postfixLoop (s : string) (st : list ascii * list ascii)
  : list ascii * list ascii :=
  match s with
  | EmptyString => st
  | String c rest => postfixLoop rest (postfixStep c st)
  end.

Definition regexToPostfix (re : string) : string :=
  let withConcats := insertConcats re in
  let (ops, out) := postfixLoop withConcats ([], []) in
  (* [while (ops.length) out.push(ops.pop()!)], then [out.join('')] *)
  string_of_list_ascii (out ++ ops).

(** ** Sets and maps of the JavaScript runtime

    [Set<T>] keeps its elements in insertion order and ignores the insertion
    of an element it already has. *)

Section JsSet.
Context {A : Type} (eqb : A -> A -> bool).

(** [set.has(x)] *)
Definition setHas (s : list A) (x : A) : bool := existsb (eqb x) s.

(** [set.add(x)] *)
Definition setAdd (s : list A) (x : A) : list A :=
  if setHas s x then s else s ++ [x].

(** [new Set(iterable)] *)
Definition setOf (l : list A) : list A := fold_left setAdd l [].
End JsSet.

(** [Map<string, number>]: [has], [get] and [set] (the source only sets a
    key that the map does not have yet: a new entry goes to the end). *)
Definition mapHas (m : list (string * nat)) (k : string) : bool :=
  existsb (fun e => String.eqb (fst e) k) m.

Definition mapGet (m : list (string * nat)) (k : string) : option nat :=
  match find (fun e => String.eqb (fst e) k) m with
  | Some e => Some (snd e)
  | None => None
  end.

Definition mapSet (m : list (string * nat)) (k : string) (v : nat)
  : list (string * nat) :=
  if mapHas m k
  then map (fun e => if String.eqb (fst e) k then (k, v) else e) m
  else m ++ [(k, v)].

(** ** Thompson construction *)

Definition eps (a b : nat) : Transition := mkTransition a b None.

(** [stack.pop()]: the popped value ([undefined] on an empty stack) and the
    rest of the stack. *)
Definition pop (stack : list NFA) : option NFA * list NFA :=
  match stack with
  | [] => (None, [])
  | n :: rest => (Some n, rest)
  end.

(** One turn of [for (const c of postfix)].  The fresh states are taken
    before the popped fragments are read, so an underflow throws after the
    counter has moved, as in the source. *)
Definition thompsonStep (c : ascii) (stack : list NFA) : Build (list NFA) :=
  if Ascii.eqb c "*" then
    let (on, stack1) := pop stack in
    s <- newState ;;
    f <- newState ;;
    match on with
    | Some n =>
        let ts := [eps s (start n); eps s f;
                   eps (accept n) (start n); eps (accept n) f]
                  ++ transitions n in
        ret (mkNFA s f (s :: f :: states n) ts :: stack1)
    | None => throw TypeError
    end
  else if Ascii.eqb c "." then
    let (on2, stack1) := pop stack in
    let (on1, stack2) := pop stack1 in
    match on1, on2 with
    | Some n1, Some n2 =>
        let ts := transitions n1 ++ transitions n2
                  ++ [eps (accept n1) (start n2)] in
        let sts := states n1 ++ states n2 in
        ret (mkNFA (start n1) (accept n2) sts ts :: stack2)
    | _, _ => throw TypeError
    end
  else if Ascii.eqb c "|" then
    let (on2, stack1) := pop stack in
    let (on1, stack2) := pop stack1 in
    s <- newState ;;
    f <- newState ;;
    match on1, on2 with
    | Some n1, Some n2 =>
        let ts := [eps s (start n1); eps s (start n2);
                   eps (accept n1) f; eps (accept n2) f]
                  ++ transitions n1 ++ transitions n2 in
        let sts := s :: f :: states n1 ++ states n2 in
        ret (mkNFA s f sts ts :: stack2)
    | _, _ => throw TypeError
    end
  else
    s <- newState ;;
    f <- newState ;;
    ret (mkNFA s f [s; f] [mkTransition s f (Some (String c EmptyString))]
           :: stack).

Fixpoint thompsonLoop (postfix : string) (stack : list NFA)
  : Build (list NFA) :=
  match postfix with
  | EmptyString => ret stack
  | String c rest =>
      stack1 <- thompsonStep c stack ;;
      thompsonLoop rest stack1
  end.

Definition postfixToNFA (postfix : string) : Build NFA :=
  stack <- thompsonLoop postfix [] ;;
  match stack with
  | [nfa] =>
      (* [nfa.states = Array.from(new Set(nfa.states))] *)
      ret (mkNFA (start nfa) (accept nfa) (setOf Nat.eqb (states nfa))
             (transitions nfa))
  | _ => throw InvalidPostfix
  end.

(** ** Subset construction *)

Definition isNull (o : option string) : bool :=
  match o with None => true | Some _ => false end.

(** [t.symbol === symbol] for a [symbol] that is a string *)
Definition symbolIs (o : option string) (symbol : string) : bool :=
  match o with Some x => String.eqb x symbol | None => false end.

(** The [for (const t of nfa.transitions)] of [epsilonClosure], for the
    popped state [s], on the pair [(res, stack)]. *)
Definition closureScan (ts : list Transition) (s : nat)
    (st : list nat * list nat) : list nat * list nat :=
  fold_left
    (fun (st : list nat * list nat) t =>
       let (res, stack) := st in
       if Nat.eqb (t_from t) s && isNull (t_symbol t)
          && negb (setHas Nat.eqb res (t_to t))
       then (setAdd Nat.eqb res (t_to t), t_to t :: stack)
       else (res, stack))
    ts st.

(** [while (stack.length)]: [None] when the fuel runs out before the stack
    is empty. *)
Fixpoint closureLoop (fuel : nat) (ts : list Transition)
    (stack res : list nat) : option (list nat) :=
  match fuel with
  | 0 => None
  | S fuel' =>
      match stack with
      | [] => Some res
      | s :: stack' =>
          let (res', stack'') := closureScan ts s (res, stack') in
          closureLoop fuel' ts stack'' res'
      end
  end.

(** Every turn of the loop pops one state, and every push adds to [res] the
    target of a transition that was not there: this many turns suffice
    ([closureLoop_total] below). *)
Definition closureFuel (nfa : NFA) (stateSet : list nat) : nat :=
  S (length stateSet + length (transitions nfa)).

Definition epsilonClosure (nfa : NFA) (stateSet : list nat) : list nat :=
  (* [stack = Array.from(stateSet)] is popped from its end *)
  match closureLoop (closureFuel nfa stateSet) (transitions nfa)
          (List.rev stateSet) stateSet with
  | Some res => res
  | None => stateSet
  end.

Definition move (nfa : NFA) (stateSet : list nat) (symbol : string)
  : list nat :=
  fold_left
    (fun res s =>
       fold_left
         (fun res t =>
            if Nat.eqb (t_from t) s && symbolIs (t_symbol t) symbol
            then setAdd Nat.eqb res (t_to t) else res)
         (transitions nfa) res)
    stateSet [].

(** [sort((a, b) => a - b)]: ascending numeric order. *)
Fixpoint insertAsc (x : nat) (l : list nat) : list nat :=
  match l with
  | [] => [x]
  | y :: l' => if Nat.leb x y then x :: l else y :: insertAsc x l'
  end.

Definition sortAsc (l : list nat) : list nat := fold_right insertAsc [] l.

(** [String(n)] for a state id: its decimal digits. *)
Definition natToString (n : nat) : string :=
  NilEmpty.string_of_uint (Nat.to_uint n).

(** [Number(s)] for a string of decimal digits ([Number('')] is [0]);
    [None] stands for the values that are not state ids. *)
Definition stringToNat (s : string) : option nat :=
  option_map Nat.of_uint (NilEmpty.uint_of_string s).

(** [parts.join(sep)] *)
Fixpoint join (sep : string) (parts : list string) : string :=
  match parts with
  | [] => EmptyString
  | [p] => p
  | p :: rest => (p ++ sep ++ join sep rest)%string
  end.

(** [s.split(',')]: [cur] is the part being read. *)
Fixpoint splitGo (sep : ascii) (s : string) (cur : string) : list string :=
  match s with
  | EmptyString => [cur]
  | String c rest =>
      if Ascii.eqb c sep then cur :: splitGo sep rest EmptyString
      else splitGo sep rest (cur ++ String c EmptyString)%string
  end.

Definition split (sep : ascii) (s : string) : list string :=
  splitGo sep s EmptyString.

Definition keyOf (set : list nat) : string :=
  join "," (map natToString (sortAsc set)).

(** [k === '' ? [] : k.split(',').map((x) => Number(x))] *)
Definition partsOf (k : string) : list (option nat) :=
  if String.eqb k "" then [] else map stringToNat (split "," k).

(** [parts.includes(id)] *)
Definition includes (parts : list (option nat)) (id : nat) : bool :=
  existsb (fun p => match p with Some n => Nat.eqb n id | None => false end)
    parts.

(** The variables of the worklist loop of [nfaToDfa]. *)
Record Subsets : Type := mkSubsets {
  dfaStatesMap : list (string * nat);
  dfaStatesList : list (list nat);
  out_transitions : list DTransition;
  idx : nat
}.

(** [dfaStatesMap.get(k)!]: every key the source looks up has been set
    ([subsets_get] below); [0] stands for the [undefined] of a missing one. *)
Definition mapGetBang (m : list (string * nat)) (k : string) : nat :=
  match mapGet m k with Some id => id | None => 0 end.

(** The body of [for (const sym of alphabet)] for the subset [currentSet]
    with id [fromId]. *)
Definition symbolStep (nfa : NFA) (currentSet : list nat) (fromId : nat)
    (st : Subsets) (sym : string) : Subsets :=
  let moved := move nfa currentSet sym in
  match moved with
  | [] => st
  | _ :: _ =>
      let closure := epsilonClosure nfa moved in
      let k := keyOf closure in
      let st1 :=
        if mapHas (dfaStatesMap st) k then st
        else mkSubsets (mapSet (dfaStatesMap st) k (length (dfaStatesList st)))
               (dfaStatesList st ++ [closure])
               (out_transitions st) (idx st) in
      let toId := mapGetBang (dfaStatesMap st1) k in
      mkSubsets (dfaStatesMap st1) (dfaStatesList st1)
        (out_transitions st1 ++ [mkDTransition fromId toId sym]) (idx st1)
  end.

(** The body of [while (idx < dfaStatesList.length)]. *)
Definition subsetStep (nfa : NFA) (alphabet : list string) (st : Subsets)
  : Subsets :=
  let currentSet := nth (idx st) (dfaStatesList st) [] in
  let currentKey := keyOf currentSet in
  let fromId := mapGetBang (dfaStatesMap st) currentKey in
  let st1 := fold_left (symbolStep nfa currentSet fromId) alphabet st in
  mkSubsets (dfaStatesMap st1) (dfaStatesList st1) (out_transitions st1)
    (S (idx st1)).

(** At most [turns] turns of the worklist loop: [inr] when the loop has
    ended, [inl] when turns are left to do. *)
Fixpoint subsetTurns (turns : nat) (nfa : NFA) (alphabet : list string)
    (st : Subsets) : Subsets + Subsets :=
  match turns with
  | 0 => inl st
  | S turns' =>
      if Nat.ltb (idx st) (length (dfaStatesList st))
      then subsetTurns turns' nfa alphabet (subsetStep nfa alphabet st)
      else inr st
  end.

(** The worklist loop with fuel [depth]: up to [2 ^ depth] turns
    ([subsetLoop_turns] below). *)
Fixpoint subsetLoop (depth : nat) (nfa : NFA) (alphabet : list string)
    (st : Subsets) : Subsets + Subsets :=
  match depth with
  | 0 => subsetTurns 1 nfa alphabet st
  | S depth' =>
      match subsetLoop depth' nfa alphabet st with
      | inl st' => subsetLoop depth' nfa alphabet st'
      | inr st' => inr st'
      end
  end.

(** [for (const t of nfa.transitions) if (t.symbol !== null)
      alphabet.add(t.symbol)] *)
Definition alphabetOf (nfa : NFA) : list string :=
  fold_left
    (fun alphabet t =>
       match t_symbol t with
       | Some sym => setAdd String.eqb alphabet sym
       | None => alphabet
       end)
    (transitions nfa) [].

(** Fuel of the worklist loop: a subset is made of the start state and of
    targets of transitions, so there are at most
    [2 ^ (1 + length (transitions nfa))] subsets, each the subject of one
    turn, and one more turn ends the loop ([subsetLoop_total] below). *)
Definition subsetDepth (nfa : NFA) : nat := length (transitions nfa) + 2.

Definition initialSubsets (nfa : NFA) : Subsets :=
  let startClosure := epsilonClosure nfa (setOf Nat.eqb [start nfa]) in
  let q0key := keyOf startClosure in
  mkSubsets (mapSet [] q0key 0) [startClosure] [] 0.

Definition finalSubsets (nfa : NFA) : Subsets :=
  match subsetLoop (subsetDepth nfa) nfa (alphabetOf nfa)
          (initialSubsets nfa) with
  | inl st => st
  | inr st => st
  end.

(** [for (const [k, id] of dfaStatesMap.entries())
      if (parts.includes(nfa.accept)) acceptStates.push(id)] *)
Definition acceptIds (m : list (string * nat)) (acc : nat) : list nat :=
  map snd (filter (fun e => includes (partsOf (fst e)) acc) m).

Definition nfaToDfa (nfa : NFA) : DFA :=
  let st := finalSubsets nfa in
  mkDFA 0
    (acceptIds (dfaStatesMap st) (accept nfa))
    (seq 0 (length (dfaStatesList st)))
    (out_transitions st).

(** ** DOT export *)

Definition dquote : string := String "034" EmptyString.
Definition newline : string := String "010" EmptyString.

(** The glyph U+03B5, as its UTF-8 bytes. *)
Definition epsilonGlyph : string := String "206" (String "181" EmptyString).

(** [`  ${s} [shape=doublecircle];`] *)
Definition acceptLine (s : nat) : string :=
  ("  " ++ natToString s ++ " [shape=doublecircle];")%string.

(** [`  ${from} -> ${to} [label="${label}"];`] *)
Definition edgeLine (from to : nat) (label : string) : string :=
  ("  " ++ natToString from ++ " -> " ++ natToString to
        ++ " [label=" ++ dquote ++ label ++ dquote ++ "];")%string.

(** [`  start -> ${start};`] *)
Definition entryLine (s : nat) : string :=
  ("  start -> " ++ natToString s ++ ";")%string.

Definition nfaLabel (t : Transition) : string :=
  match t_symbol t with None => epsilonGlyph | Some sym => sym end.

(** The array [lines] of [nfaToDot]. *)
Definition nfaDotLines (nfa : NFA) : list string :=
  ["digraph NFA {"; "  rankdir=LR;"; "  node [shape = circle];";
   "  start [shape=point];"; entryLine (start nfa)]
  ++ map acceptLine (filter (fun s => Nat.eqb s (accept nfa)) (states nfa))
  ++ map (fun t => edgeLine (t_from t) (t_to t) (nfaLabel t))
       (transitions nfa)
  ++ ["}"].

Definition nfaToDot (nfa : NFA) : string := join newline (nfaDotLines nfa).

(** The array [lines] of [dfaToDot]. *)
Definition dfaDotLines (dfa : DFA) : list string :=
  ["digraph DFA {"; "  rankdir=LR;"; "  node [shape = circle];";
   "  start [shape=point];"; entryLine (dfa_start dfa)]
  ++ map acceptLine
       (filter (fun s => existsb (Nat.eqb s) (acceptStates dfa))
          (dfa_states dfa))
  ++ map (fun t => edgeLine (d_from t) (d_to t) (d_symbol t))
       (dfa_transitions dfa)
  ++ ["}"].

Definition dfaToDot (dfa : DFA) : string := join newline (dfaDotLines dfa).

(** ** Running the automata

    The source builds and draws automata and does not run them.  The two
    acceptance tests below follow the words of the specification: a DFA
    follows its one transition for each symbol and rejects when there is
    none; an NFA is simulated from the epsilon-closure of its start state,
    by [move] then [epsilonClosure] for each symbol, and accepts when the
    set reached holds the accept state. *)

Definition dfaStep (dfa : DFA) (q : nat) (sym : string) : option nat :=
  option_map d_to
    (find (fun t => Nat.eqb (d_from t) q && String.eqb (d_symbol t) sym)
       (dfa_transitions dfa)).

Fixpoint dfaRun (dfa : DFA) (q : nat) (w : list string) : option nat :=
  match w with
  | [] => Some q
  | sym :: w' =>
      match dfaStep dfa q sym with
      | Some q' => dfaRun dfa q' w'
      | None => None
      end
  end.

Definition dfaAccepts (dfa : DFA) (w : list string) : bool :=
  match dfaRun dfa (dfa_start dfa) w with
  | Some q => existsb (Nat.eqb q) (acceptStates dfa)
  | None => false
  end.

Definition nfaRun (nfa : NFA) (w : list string) : list nat :=
  fold_left (fun set sym => epsilonClosure nfa (move nfa set sym)) w
    (epsilonClosure nfa [start nfa]).

Definition nfaAccepts (nfa : NFA) (w : list string) : bool :=
  setHas Nat.eqb (nfaRun nfa w) (accept nfa).

(** The symbols of an input string: its characters, one by one. *)
Definition symbolsOf (w : string) : list string :=
  map (fun c => String c EmptyString) (list_ascii_of_string w).

(** Compiling a pattern: [postfixToNFA(regexToPostfix(pattern))]. *)
Definition compile (pattern : string) : Build NFA :=
  postfixToNFA (regexToPostfix pattern).

(** After [resetIds()]. *)
Definition compileFresh (pattern : string) : Build NFA :=
  _ <- resetIds ;; compile pattern.

(** ** Invariants of the Thompson construction *)

(** What holds of every fragment on the stack when the counter is [k]. *)
Record fragOk (k : nat) (n : NFA) : Prop := mkFragOk {
  ok_nodup : NoDup (states n);
  ok_start : In (start n) (states n);
  ok_accept : In (accept n) (states n);
  ok_ends : forall t, In t (transitions n) ->
                      In (t_from t) (states n) /\ In (t_to t) (states n);
  ok_below : forall q, In q (states n) -> q < k;
  ok_no_out : forall t, In t (transitions n) -> t_from t <> accept n;
  ok_no_in : forall t, In t (transitions n) -> t_to t <> start n
}.

(** The fragments of the stack are well formed and share no state. *)
Fixpoint stackOk (k : nat) (stack : list NFA) : Prop :=
  match stack with
  | [] => True
  | n :: rest =>
      fragOk k n
      /\ (forall m q, In m rest -> In q (states n) -> ~ In q (states m))
      /\ stackOk k rest
  end.

(** ** Reachability by epsilon transitions *)

(** The states reached from a state of [S] by epsilon transitions only. *)
Inductive epsReach (ts : list Transition) (S : list nat) : nat -> Prop :=
| reach_in : forall q, In q S -> epsReach ts S q
| reach_step : forall p q,
    epsReach ts S p -> In (eps p q) ts -> epsReach ts S q.

(** The transitions whose target is not in [res] yet. *)
Definition unseen (ts : list Transition) (res : list nat) : nat :=
  length (filter (fun t => negb (setHas Nat.eqb res (t_to t))) ts).

(** Two lists hold the same elements. *)
Definition sameSet (s1 s2 : list nat) : Prop :=
  forall q, In q s1 <-> In q s2.

(** ** Characters of a string *)

Fixpoint allChars (P : ascii -> bool) (s : string) : bool :=
  match s with
  | EmptyString => true
  | String c rest => P c && allChars P rest
  end.

Definition isDigit (c : ascii) : bool :=
  let n := nat_of_ascii c in Nat.leb 48 n && Nat.leb n 57.

(** ** Invariants of the subset construction *)

(** Every state of a subset is the start state or the target of a
    transition. *)
Definition universe (nfa : NFA) : list nat :=
  start nfa :: map t_to (transitions nfa).

Definition fromSym (t : DTransition) : nat * string :=
  (d_from t, d_symbol t).

(** What holds of the variables of [nfaToDfa] while the subset of id [i] is
    worked on and the symbols [done] of the alphabet have been tried:
    the map sends the key of the [j]-th subset to [j]; the subsets have
    different keys; a recorded transition leads to the subset of the
    closure of the move; and every non-empty move tried so far is
    recorded, once. *)
Record subsetsOk (nfa : NFA) (alphabet : list string) (i : nat)
    (done : list string) (st : Subsets) : Prop := mkSubsetsOk {
  so_map :
    dfaStatesMap st
    = combine (map keyOf (dfaStatesList st))
        (seq 0 (length (dfaStatesList st)));
  so_keys : NoDup (map keyOf (dfaStatesList st));
  so_sets : forall s, In s (dfaStatesList st) ->
                      NoDup s /\ incl s (universe nfa);
  so_first :
    nth 0 (dfaStatesList st) [] = epsilonClosure nfa [start nfa]
    /\ 0 < length (dfaStatesList st);
  so_det : NoDup (map fromSym (out_transitions st));
  so_from : forall t, In t (out_transitions st) ->
                      d_from t < i \/ (d_from t = i /\ In (d_symbol t) done);
  so_sound : forall t, In t (out_transitions st) ->
    In (d_symbol t) alphabet
    /\ d_from t < length (dfaStatesList st)
    /\ d_to t < length (dfaStatesList st)
    /\ move nfa (nth (d_from t) (dfaStatesList st) []) (d_symbol t) <> []
    /\ keyOf (nth (d_to t) (dfaStatesList st) [])
       = keyOf (epsilonClosure nfa
                  (move nfa (nth (d_from t) (dfaStatesList st) [])
                     (d_symbol t)));
  so_complete : forall j sym,
    j < i \/ (j = i /\ In sym done) ->
    In sym alphabet ->
    move nfa (nth j (dfaStatesList st) []) sym <> [] ->
    exists t, In t (out_transitions st) /\ d_from t = j /\ d_symbol t = sym
}.

(** All the lists of booleans of length [n]. *)
Fixpoint allVectors (n : nat) : list (list bool) :=
  match n with
  | 0 => [[]]
  | S n' => map (cons true) (allVectors n') ++ map (cons false) (allVectors n')
  end.

(** The membership vector of a subset over the universe [u]. *)
Definition vectorOf (u : list nat) (s : list nat) : list bool :=
  map (setHas Nat.eqb s) u.

(** ** Two compiled patterns *)

(** The automaton of [ab.], the postfix form of [ab], from counter 0. *)
Definition nfa_ab : NFA :=
  mkNFA 0 3 [0; 1; 2; 3]
    [mkTransition 0 1 (Some "a"); mkTransition 2 3 (Some "b"); eps 1 2].

(** The automaton of [(a|b)*abb], from counter 0. *)
Definition nfa_abb : NFA :=
  mkNFA 6 13 [6; 7; 4; 5; 0; 1; 2; 3; 8; 9; 10; 11; 12; 13]
    [eps 6 4; eps 6 7; eps 5 4; eps 5 7; eps 4 0; eps 4 2; eps 1 5; eps 3 5;
     mkTransition 0 1 (Some "a"); mkTransition 2 3 (Some "b");
     mkTransition 8 9 (Some "a"); eps 7 8;
     mkTransition 10 11 (Some "b"); eps 9 10;
     mkTransition 12 13 (Some "b"); eps 11 12].

(** Its DFA. *)
Definition dfa_abb : DFA :=
  mkDFA 0 [4] [0; 1; 2; 3; 4]
    [mkDTransition 0 1 "a"; mkDTransition 0 2 "b";
     mkDTransition 1 1 "a"; mkDTransition 1 3 "b";
     mkDTransition 2 1 "a"; mkDTransition 2 2 "b";
     mkDTransition 3 1 "a"; mkDTransition 3 4 "b";
     mkDTransition 4 1 "a"; mkDTransition 4 2 "b"].

(** ** Relabelling the states of an automaton *)

Definition relabelT (f : nat -> nat) (t : Transition) : Transition :=
  mkTransition (f (t_from t)) (f (t_to t)) (t_symbol t).

Definition relabel (f : nat -> nat) (n : NFA) : NFA :=
  mkNFA (f (start n)) (f (accept n)) (map f (states n))
    (map (relabelT f) (transitions n)).

(** ** The language of [(a|b)*abb] *)

Definition isAB (c : ascii) : bool := Ascii.eqb c "a" || Ascii.eqb c "b".

(** The strings that end in [abb] after zero or more characters [a] and
    [b]. *)
Definition endsInAbb (w : string) : Prop :=
  exists u, w = (u ++ "abb")%string /\ allChars isAB u = true.

(** ** Reading the exported text *)

(** The maximal runs of digits of a text, from left to right: the numbers
    written in it.  [cur] is the run being read. *)
Fixpoint digitRuns (text : string) (cur : string) : list string :=
  match text with
  | EmptyString =>
      match cur with EmptyString => [] | _ => [cur] end
  | String c rest =>
      if isDigit c then digitRuns rest (cur ++ String c EmptyString)%string
      else match cur with
           | EmptyString => digitRuns rest EmptyString
           | _ => cur :: digitRuns rest EmptyString
           end
  end.







(** ** Characters of a pattern *)

Definition isParen (c : ascii) : bool := Ascii.eqb c "(" || Ascii.eqb c ")".

(** A literal: a character that [regexToPostfix] sends to its output as it
    is (the last branch of its loop). *)
Definition isLiteral (c : ascii) : bool :=
  negb (isOperator c) && negb (isParen c).

Definition notDot (c : ascii) : bool := negb (Ascii.eqb c ".").

(** A character of the ASCII range, and a string written in ASCII. *)
Definition isAscii (c : ascii) : bool := Nat.ltb (nat_of_ascii c) 128.

Definition asciiOnly (s : string) : bool := allChars isAscii s.

(** The parentheses of [l] match, [depth] of them being open before [l]. *)
Fixpoint parenBalance (l : list ascii) (depth : nat) : bool :=
  match l with
  | [] => Nat.eqb depth 0
  | c :: rest =>
      if Ascii.eqb c "(" then parenBalance rest (S depth)
      else if Ascii.eqb c ")" then
        match depth with
        | 0 => false
        | S depth' => parenBalance rest depth'
        end
      else parenBalance rest depth
  end.

Definition notParen (c : ascii) : bool := negb (isParen c).

(** What the operator stack may hold: operators and opening
    parentheses. *)
Definition isStacked (c : ascii) : bool := isOperator c || Ascii.eqb c "(".

(** ** Postfix strings as stack programs *)

(** The height of the fragment stack after the tokens of [postfix], from
    height [d]; [None] when an operator finds too few fragments. *)
Fixpoint rpnDepth (postfix : string) (d : nat) : option nat :=
  match postfix with
  | EmptyString => Some d
  | String c rest =>
      if Ascii.eqb c "*" then
        match d with
        | 0 => None
        | S _ => rpnDepth rest d
        end
      else if Ascii.eqb c "." || Ascii.eqb c "|" then
        match d with
        | S (S d') => rpnDepth rest (S d')
        | _ => None
        end
      else rpnDepth rest (S d)
  end.

(** The sum of the weights [f] of the characters of [s]. *)
Fixpoint sumChars (f : ascii -> nat) (s : string) : nat :=
  match s with
  | EmptyString => 0
  | String c rest => f c + sumChars f rest
  end.

(** The states [postfixToNFA] takes for a token: none for a concatenation,
    two for any other token. *)
Definition tokenStates (c : ascii) : nat :=
  if Ascii.eqb c "." then 0 else 2.

(** The transitions it adds for a token: four for a closure or a union,
    one for a concatenation or a literal. *)
Definition tokenEdges (c : ascii) : nat :=
  if Ascii.eqb c "*" || Ascii.eqb c "|" then 4 else 1.

(** ** Regular expressions and their words *)

Inductive regex : Type :=
| Lit (c : ascii)
| Cat (r s : regex)
| Alt (r s : regex)
| Star (r : regex).

(** The words of a regular expression. *)
Inductive matches : regex -> list ascii -> Prop :=
| m_lit : forall c, matches (Lit c) [c]
| m_cat : forall r s u v,
    matches r u -> matches s v -> matches (Cat r s) (u ++ v)
| m_alt_l : forall r s u, matches r u -> matches (Alt r s) u
| m_alt_r : forall r s u, matches s u -> matches (Alt r s) u
| m_star_nil : forall r, matches (Star r) []
| m_star_app : forall r u v,
    matches r u -> matches (Star r) v -> matches (Star r) (u ++ v).

(** The postfix form of a regular expression: operands, then operator. *)
Fixpoint postfixOf (r : regex) : string :=
  match r with
  | Lit c => String c EmptyString
  | Cat r s => (postfixOf r ++ postfixOf s ++ ".")%string
  | Alt r s => (postfixOf r ++ postfixOf s ++ "|")%string
  | Star r => (postfixOf r ++ "*")%string
  end.

(** The literals of [r] are tokens that [postfixToNFA] reads as symbols. *)
Fixpoint symbolsOnly (r : regex) : bool :=
  match r with
  | Lit c => negb (isOperator c)
  | Cat r s | Alt r s => symbolsOnly r && symbolsOnly s
  | Star r => symbolsOnly r
  end.

(** The symbol of a character: the string of that one character. *)
Definition symbolOf (c : ascii) : string := String c EmptyString.

(** A walk of the automaton from one state to another that reads a word:
    epsilon transitions read nothing. *)
Inductive nfaPath (ts : list Transition) : nat -> list string -> nat -> Prop :=
| path_nil : forall q, nfaPath ts q [] q
| path_eps : forall p q r w,
    In (eps p q) ts -> nfaPath ts q w r -> nfaPath ts p w r
| path_sym : forall p q r a w,
    In (mkTransition p q (Some a)) ts -> nfaPath ts q w r ->
    nfaPath ts p (a :: w) r.

(** The fragment that [postfixToNFA] builds for a regular expression, from
    counter [k], and the counter afterwards ([thompsonLoop_postfixOf]
    below): the construction of [thompsonStep], read along the
    expression. *)
Fixpoint fragOf (r : regex) (k : nat) : NFA * nat :=
  match r with
  | Lit c =>
      (mkNFA k (S k) [k; S k] [mkTransition k (S k) (Some (symbolOf c))],
       S (S k))
  | Cat r1 r2 =>
      let (n1, k1) := fragOf r1 k in
      let (n2, k2) := fragOf r2 k1 in
      (mkNFA (start n1) (accept n2) (states n1 ++ states n2)
         (transitions n1 ++ transitions n2
          ++ [eps (accept n1) (start n2)]),
       k2)
  | Alt r1 r2 =>
      let (n1, k1) := fragOf r1 k in
      let (n2, k2) := fragOf r2 k1 in
      (mkNFA k2 (S k2) (k2 :: S k2 :: states n1 ++ states n2)
         ([eps k2 (start n1); eps k2 (start n2);
           eps (accept n1) (S k2); eps (accept n2) (S k2)]
          ++ transitions n1 ++ transitions n2),
       S (S k2))
  | Star r1 =>
      let (n1, k1) := fragOf r1 k in
      (mkNFA k1 (S k1) (k1 :: S k1 :: states n1)
         ([eps k1 (start n1); eps k1 (S k1);
           eps (accept n1) (start n1); eps (accept n1) (S k1)]
          ++ transitions n1),
       S (S k1))
  end.

(** What holds of the fragment [n] built for [r] between the counter
    values [k] and [k']: its states are ids handed out in between, its
    transitions stay among them, and the words that lead from its start
    state to its accept state are the words of [r]. *)
Record fragSpec (r : regex) (k : nat) (n : NFA) (k' : nat) : Prop :=
  mkFragSpec {
  fs_range : forall q, In q (states n) -> k <= q < k';
  fs_start : In (start n) (states n);
  fs_accept : In (accept n) (states n);
  fs_ends : forall t, In t (transitions n) ->
                      In (t_from t) (states n) /\ In (t_to t) (states n);
  fs_lang : forall w,
    nfaPath (transitions n) (start n) w (accept n)
    <-> exists u, w = map symbolOf u /\ matches r u
}.

(** ** The patterns of the grammar *)

Definition firstChar (s : string) : option ascii :=
  match s with
  | EmptyString => None
  | String c _ => Some c
  end.

Fixpoint lastChar (s : string) : option ascii :=
  match s with
  | EmptyString => None
  | String c rest =>
      match rest with
      | EmptyString => Some c
      | String _ _ => lastChar rest
      end
  end.

(** The test of [insertConcats] for a dot between [c] and the next
    character [d]. *)
Definition needsDot (c d : ascii) : bool :=
  negb (Ascii.eqb c "(" || Ascii.eqb c "|")
  && negb (Ascii.eqb d "*" || Ascii.eqb d "|" || Ascii.eqb d ")").

(** [parses l s r]: the pattern [s] is written for the expression [r], at
    level [l] of the grammar
      union  (0) ::= union "|" concat  |  concat
      concat (1) ::= concat repeat     |  repeat
      repeat (2) ::= repeat "*"        |  atom
      atom   (3) ::= literal           |  "(" union ")"
    where a literal is one character other than [( ) | * .]. *)
Inductive parses : nat -> string -> regex -> Prop :=
| p_lit : forall c,
    isLiteral c = true -> parses 3 (String c EmptyString) (Lit c)
| p_paren : forall s r,
    parses 0 s r -> parses 3 ("(" ++ s ++ ")")%string r
| p_star : forall s r,
    parses 2 s r -> parses 2 (s ++ "*")%string (Star r)
| p_cat : forall s1 s2 r1 r2,
    parses 1 s1 r1 -> parses 2 s2 r2 ->
    parses 1 (s1 ++ s2)%string (Cat r1 r2)
| p_alt : forall s1 s2 r1 r2,
    parses 0 s1 r1 -> parses 1 s2 r2 ->
    parses 0 (s1 ++ "|" ++ s2)%string (Alt r1 r2)
| p_up : forall l s r, parses (S l) s r -> parses l s r.

(** The operator on top of the stack, if any, stays there when an operator
    of precedence [p] arrives: the test of the loop of [regexToPostfix]
    fails on it. *)
Definition lowTop (p : nat) (ops : list ascii) : Prop :=
  match ops with
  | [] => True
  | o :: _ => isOperator o && Nat.leb p (precedence o) = false
  end.

(** The expression of the sample pattern [(a|b)*abb]. *)
Definition regex_abb : regex :=
  Cat (Cat (Cat (Star (Alt (Lit "a") (Lit "b"))) (Lit "a")) (Lit "b"))
    (Lit "b").

(** ** The page of the visualizer

    What [app/regex/page.tsx] computes for the selected pattern: the
    pattern, its postfix form and the two graph texts. *)
Definition artifact (re : string)
  : Build (string * string * string * string) :=
  _ <- resetIds ;;
  let postfix := regexToPostfix re in
  nfa <- postfixToNFA postfix ;;
  let dfa := nfaToDfa nfa in
  let nfaDot := nfaToDot nfa in
  let dfaDot := dfaToDot dfa in
  ret (re, postfix, nfaDot, dfaDot).

(** ** Reading a postfix string back

    The expressions that a postfix string stands for: the stack machine of
    [postfixToNFA], on expressions in place of fragments. *)
Fixpoint rpnParse (postfix : string) (rs : list regex)
  : option (list regex) :=
  match postfix with
  | EmptyString => Some rs
  | String c rest =>
      if Ascii.eqb c "*" then
        match rs with
        | r :: rs' => rpnParse rest (Star r :: rs')
        | [] => None
        end
      else if Ascii.eqb c "." then
        match rs with
        | r2 :: r1 :: rs' => rpnParse rest (Cat r1 r2 :: rs')
        | _ => None
        end
      else if Ascii.eqb c "|" then
        match rs with
        | r2 :: r1 :: rs' => rpnParse rest (Alt r1 r2 :: rs')
        | _ => None
        end
      else rpnParse rest (Lit c :: rs)
  end.

(** The postfix forms of the expressions of a stack, bottom first. *)
Fixpoint stackPostfix (rs : list regex) : string :=
  match rs with
  | [] => EmptyString
  | r :: rest => (stackPostfix rest ++ postfixOf r)%string
  end.

(** ** The shape of the automata *)

(** How many transitions of [ts] leave state [q]. *)
Definition outDegree (ts : list Transition) (q : nat) : nat :=
  length (filter (fun t => Nat.eqb (t_from t) q) ts).

(** ** Renaming the states of the NFA under the subset construction *)

(** The variables of the worklist loop of [nfaToDfa] on an NFA, [st], and
    on the NFA with its states renamed by [f], [st']: the same ids, turns
    and transitions, over subsets renamed by [f]. *)
Definition renamedSubsets (f : nat -> nat) (st st' : Subsets) : Prop :=
  exists (sets : list (list nat)) (ids : list nat),
    length sets = length ids
    /\ dfaStatesMap st = combine (map keyOf sets) ids
    /\ dfaStatesMap st' = combine (map keyOf (map (map f) sets)) ids
    /\ dfaStatesList st' = map (map f) (dfaStatesList st)
    /\ out_transitions st' = out_transitions st
    /\ idx st' = idx st.

(** The same, for the two outcomes of a bounded run of the loop. *)
Definition renamedOutcome (f : nat -> nat) (o o' : Subsets + Subsets)
  : Prop :=
  match o, o' with
  | inl st, inl st' => renamedSubsets f st st'
  | inr st, inr st' => renamedSubsets f st st'
  | _, _ => False
  end.

(** The out-degrees of a fragment: at most two, none at the accept state,
    and one at a state that a labelled transition leaves. *)
Record degreesOk (n : NFA) : Prop := mkDegreesOk {
  dg_two : forall q, outDegree (transitions n) q <= 2;
  dg_accept : outDegree (transitions n) (accept n) = 0;
  dg_label : forall t, In t (transitions n) -> t_symbol t <> None ->
                       outDegree (transitions n) (t_from t) = 1
}.

(** * Properties *)

(** ** The two compiled patterns *)

Lemma postfixToNFA_ab : postfixToNFA "ab." 0 = (inr nfa_ab, 4).
Proof. vm_compute. reflexivity. Qed.

Lemma compile_abb : compile "(a|b)*abb" 0 = (inr nfa_abb, 14).
Proof. vm_compute. reflexivity. Qed.

Lemma nfaToDfa_abb : nfaToDfa nfa_abb = dfa_abb.
Proof. vm_compute. reflexivity. Qed.

(** ** Postfix conversion *)

(** C4: [regexToPostfix] returns exactly "ab|" on "a|b", "ab*." on "ab*"
    and "ab|*a.b.b." on "(a|b)*abb". *)
Theorem regexToPostfix_examples :
  regexToPostfix "a|b" = "ab|"
  /\ regexToPostfix "ab*" = "ab*."
  /\ regexToPostfix "(a|b)*abb" = "ab|*a.b.b.".
Proof. repeat split; reflexivity. Qed.

(** ** Thompson construction: the final check *)

Lemma postfixToNFA_unfold (postfix : string) (k : nat) :
  postfixToNFA postfix k =
  match thompsonLoop postfix [] k with
  | (inl e, k') => (inl e, k')
  | (inr [nfa], k') =>
      (inr (mkNFA (start nfa) (accept nfa) (setOf Nat.eqb (states nfa))
              (transitions nfa)), k')
  | (inr _, k') => (inl InvalidPostfix, k')
  end.
Proof.
  unfold postfixToNFA, bind.
  destruct (thompsonLoop postfix [] k) as [[e | stack] k']; [reflexivity|].
  destruct stack as [| nfa [| n2 stack]]; reflexivity.
Qed.

Lemma postfixToNFA_returns (postfix : string) (k k' : nat) (nfa : NFA) :
  postfixToNFA postfix k = (inr nfa, k') ->
  exists frag,
    thompsonLoop postfix [] k = (inr [frag], k')
    /\ nfa = mkNFA (start frag) (accept frag)
               (setOf Nat.eqb (states frag)) (transitions frag).
Proof.
  rewrite postfixToNFA_unfold.
  destruct (thompsonLoop postfix [] k) as [[e | stack] k1]; [discriminate|].
  destruct stack as [| frag [| n2 stack]]; try discriminate.
  intros E. injection E as <- <-. exists frag. split; reflexivity.
Qed.

(** C6: when the tokens are consumed and the fragment stack does not hold
    exactly one fragment, [postfixToNFA] throws; and an automaton it returns
    is the one fragment left on the stack, with its states deduplicated. *)
Theorem postfixToNFA_stack_check (postfix : string) (k : nat) :
  (forall stack k',
      thompsonLoop postfix [] k = (inr stack, k') ->
      length stack <> 1 ->
      postfixToNFA postfix k = (inl InvalidPostfix, k'))
  /\ (forall nfa k',
        postfixToNFA postfix k = (inr nfa, k') ->
        exists frag,
          thompsonLoop postfix [] k = (inr [frag], k')
          /\ nfa = mkNFA (start frag) (accept frag)
                     (setOf Nat.eqb (states frag)) (transitions frag)).
Proof.
  split.
  - rewrite postfixToNFA_unfold. intros stack k' E Hlen. rewrite E.
    destruct stack as [| nfa [| n2 stack]]; try reflexivity.
    exfalso. apply Hlen. reflexivity.
  - intros nfa k'. apply postfixToNFA_returns.
Qed.

Lemma postfixToNFA_stack_check_witness :
  postfixToNFA "ab" 0 = (inl InvalidPostfix, 4)
  /\ exists frag, thompsonLoop "a" [] 0 = (inr [frag], 2).
Proof.
  split.
  - apply (proj1 (postfixToNFA_stack_check "ab" 0)
             [mkNFA 2 3 [2; 3] [mkTransition 2 3 (Some "b")];
              mkNFA 0 1 [0; 1] [mkTransition 0 1 (Some "a")]] 4).
    + reflexivity.
    + simpl. lia.
  - destruct (proj2 (postfixToNFA_stack_check "a" 0)
                (mkNFA 0 1 [0; 1] [mkTransition 0 1 (Some "a")]) 2
                eq_refl) as [frag [E _]].
    exists frag. exact E.
Defined.

(** ** Thompson construction: invariants *)

Section JsSetFacts.
Context {A : Type} (eqb : A -> A -> bool).
Hypothesis eqb_eq : forall x y, eqb x y = true <-> x = y.

Lemma setHas_In (s : list A) (x : A) : setHas eqb s x = true <-> In x s.
Proof.
  unfold setHas. rewrite existsb_exists. split.
  - intros [y [Hy E]]. apply eqb_eq in E. subst. exact Hy.
  - intros H. exists x. split; [exact H | apply eqb_eq; reflexivity].
Qed.

Lemma setHas_false (s : list A) (x : A) :
  setHas eqb s x = false <-> ~ In x s.
Proof.
  rewrite <- setHas_In. destruct (setHas eqb s x); split; intros H;
    congruence.
Qed.

Lemma setAdd_In (s : list A) (x y : A) :
  In y (setAdd eqb s x) <-> In y s \/ y = x.
Proof.
  unfold setAdd. destruct (setHas eqb s x) eqn:E.
  - apply setHas_In in E. split; [auto | intros [H | ->]; assumption].
  - rewrite in_app_iff. simpl. intuition congruence.
Qed.

Lemma setAdd_NoDup (s : list A) (x : A) :
  NoDup s -> NoDup (setAdd eqb s x).
Proof.
  intros H. unfold setAdd. destruct (setHas eqb s x) eqn:E; [exact H|].
  apply setHas_false in E.
  apply NoDup_rev in H. rewrite <- (rev_involutive (s ++ [x])).
  apply NoDup_rev. rewrite rev_app_distr. simpl. constructor; [|exact H].
  rewrite <- in_rev. exact E.
Qed.

Lemma fold_setAdd_In (l acc : list A) (y : A) :
  In y (fold_left (setAdd eqb) l acc) <-> In y acc \/ In y l.
Proof.
  revert acc. induction l as [| x l IH]; intros acc; simpl.
  - tauto.
  - rewrite IH, setAdd_In. intuition congruence.
Qed.

Lemma fold_setAdd_NoDup (l acc : list A) :
  NoDup acc -> NoDup (fold_left (setAdd eqb) l acc).
Proof.
  revert acc. induction l as [| x l IH]; intros acc H; simpl.
  - exact H.
  - apply IH, setAdd_NoDup, H.
Qed.

Lemma setOf_In (l : list A) (y : A) : In y (setOf eqb l) <-> In y l.
Proof. unfold setOf. rewrite fold_setAdd_In. simpl. tauto. Qed.

Lemma setOf_NoDup (l : list A) : NoDup (setOf eqb l).
Proof. apply fold_setAdd_NoDup. constructor. Qed.
End JsSetFacts.

Lemma fragOk_mono (k k' : nat) (n : NFA) :
  k <= k' -> fragOk k n -> fragOk k' n.
Proof.
  intros Hk [H1 H2 H3 H4 H5 H6 H7]. constructor; auto.
  intros q Hq. apply H5 in Hq. lia.
Qed.

Lemma stackOk_mono (k k' : nat) (stack : list NFA) :
  k <= k' -> stackOk k stack -> stackOk k' stack.
Proof.
  intros Hk. induction stack as [| n rest IH]; simpl; [trivial|].
  intros [Hn [Hd Hr]]. split; [eapply fragOk_mono; eauto|].
  split; [exact Hd | apply IH, Hr].
Qed.

Lemma stackOk_below (k : nat) (stack : list NFA) (m : NFA) (q : nat) :
  stackOk k stack -> In m stack -> In q (states m) -> q < k.
Proof.
  induction stack as [| n rest IH]; simpl; [tauto|].
  intros [Hn [_ Hr]] [<- | Hm] Hq; [apply (ok_below _ _ Hn), Hq | auto].
Qed.

Lemma thompsonStep_ok (c : ascii) (stack stack' : list NFA) (k k' : nat) :
  stackOk k stack ->
  thompsonStep c stack k = (inr stack', k') ->
  stackOk k' stack' /\ k <= k'.
Proof.
  intros Hs. unfold thompsonStep.
  destruct (Ascii.eqb c "*").
  { destruct stack as [| n rest]; cbn; [discriminate|].
    intros E. injection E as <- <-. split; [|lia].
    destruct Hs as [Hn [Hd Hr]].
    assert (Hb := ok_below _ _ Hn).
    simpl. split; [|split].
    - destruct Hn as [H1 H2 H3 H4 H5 H6 H7].
      constructor; simpl.
      + constructor; [simpl; intros [E | E]; [lia | apply H5 in E; lia]|].
        constructor; [intros E; apply H5 in E; lia | exact H1].
      + auto.
      + auto.
      + intros t [<- | [<- | [<- | [<- | Ht]]]]; simpl; auto.
        apply H4 in Ht. tauto.
      + intros q [<- | [<- | Hq]]; [lia | lia | apply H5 in Hq; lia].
      + intros t [<- | [<- | [<- | [<- | Ht]]]]; simpl;
          try (apply H5 in H3; lia); try lia.
        apply H4 in Ht. destruct Ht as [Ht _]. apply H5 in Ht. lia.
      + intros t [<- | [<- | [<- | [<- | Ht]]]]; simpl;
          try (apply H5 in H2; lia); try lia.
        apply H4 in Ht. destruct Ht as [_ Ht]. apply H5 in Ht. lia.
    - intros m q Hm [<- | [<- | Hq]].
      + intros Hq. apply (stackOk_below _ _ _ _ Hr Hm) in Hq. lia.
      + intros Hq. apply (stackOk_below _ _ _ _ Hr Hm) in Hq. lia.
      + apply Hd; assumption.
    - apply (stackOk_mono k); [lia | exact Hr]. }
  destruct (Ascii.eqb c ".").
  { destruct stack as [| n2 [| n1 rest]]; cbn; try discriminate.
    intros E. injection E as <- <-. split; [|lia].
    destruct Hs as [Hn2 [Hd2 [Hn1 [Hd1 Hr]]]].
    assert (Hdis : forall q, In q (states n1) -> ~ In q (states n2)).
    { intros q H1 H2. apply (Hd2 n1 q); simpl; auto. }
    simpl. split; [|split].
    - destruct Hn1 as [A1 A2 A3 A4 A5 A6 A7].
      destruct Hn2 as [B1 B2 B3 B4 B5 B6 B7].
      constructor; simpl.
      + apply NoDup_app; auto.
      + apply in_or_app; auto.
      + apply in_or_app; auto.
      + intros t Ht. rewrite !in_app_iff in *. simpl in Ht.
        destruct Ht as [Ht | [Ht | [<- | []]]]; simpl.
        * apply A4 in Ht. tauto.
        * apply B4 in Ht. tauto.
        * auto.
      + intros q Hq. apply in_app_or in Hq. destruct Hq; auto.
      + intros t Ht. rewrite !in_app_iff in Ht. simpl in Ht.
        destruct Ht as [Ht | [Ht | [<- | []]]]; simpl.
        * intros E. apply A4 in Ht. destruct Ht as [Ht _].
          rewrite E in Ht. apply (Hdis _ Ht B3).
        * auto.
        * intros E. rewrite E in A3. apply (Hdis _ A3 B3).
      + intros t Ht. rewrite !in_app_iff in Ht. simpl in Ht.
        destruct Ht as [Ht | [Ht | [<- | []]]]; simpl.
        * auto.
        * intros E. apply B4 in Ht. destruct Ht as [_ Ht].
          rewrite E in Ht. apply (Hdis _ A2 Ht).
        * intros E. rewrite E in B2. apply (Hdis _ A2 B2).
    - intros m q Hm Hq. apply in_app_or in Hq. destruct Hq as [Hq | Hq].
      + apply Hd1; assumption.
      + apply Hd2; simpl; auto.
    - exact Hr. }
  destruct (Ascii.eqb c "|").
  { destruct stack as [| n2 [| n1 rest]]; cbn; try discriminate.
    intros E. injection E as <- <-. split; [|lia].
    destruct Hs as [Hn2 [Hd2 [Hn1 [Hd1 Hr]]]].
    assert (Hdis : forall q, In q (states n1) -> ~ In q (states n2)).
    { intros q H1 H2. apply (Hd2 n1 q); simpl; auto. }
    simpl. split; [|split].
    - destruct Hn1 as [A1 A2 A3 A4 A5 A6 A7].
      destruct Hn2 as [B1 B2 B3 B4 B5 B6 B7].
      assert (Hall : forall q, In q (states n1 ++ states n2) -> q < k).
      { intros q Hq. apply in_app_or in Hq. destruct Hq; auto. }
      constructor; simpl.
      + constructor; [simpl; intros [E | E]; [lia | apply Hall in E; lia]|].
        constructor; [intros E; apply Hall in E; lia |].
        apply NoDup_app; auto.
      + auto.
      + auto.
      + intros t [<- | [<- | [<- | [<- | Ht]]]]; simpl;
          rewrite ?in_app_iff; auto.
        apply in_app_or in Ht. destruct Ht as [Ht | Ht];
          [apply A4 in Ht | apply B4 in Ht]; tauto.
      + intros q [<- | [<- | Hq]]; [lia | lia | apply Hall in Hq; lia].
      + intros t [<- | [<- | [<- | [<- | Ht]]]]; simpl;
          try (apply A5 in A3; lia); try (apply B5 in B3; lia); try lia.
        apply in_app_or in Ht. destruct Ht as [Ht | Ht];
          [apply A4 in Ht; destruct Ht as [Ht _]; apply A5 in Ht
          | apply B4 in Ht; destruct Ht as [Ht _]; apply B5 in Ht]; lia.
      + intros t [<- | [<- | [<- | [<- | Ht]]]]; simpl;
          try (apply A5 in A2; lia); try (apply B5 in B2; lia); try lia.
        apply in_app_or in Ht. destruct Ht as [Ht | Ht];
          [apply A4 in Ht; destruct Ht as [_ Ht]; apply A5 in Ht
          | apply B4 in Ht; destruct Ht as [_ Ht]; apply B5 in Ht]; lia.
    - intros m q Hm [<- | [<- | Hq]].
      + intros Hq. apply (stackOk_below _ _ _ _ Hr Hm) in Hq. lia.
      + intros Hq. apply (stackOk_below _ _ _ _ Hr Hm) in Hq. lia.
      + apply in_app_or in Hq. destruct Hq as [Hq | Hq].
        * apply Hd1; assumption.
        * apply Hd2; simpl; auto.
    - apply (stackOk_mono k); [lia | exact Hr]. }
  cbn. intros E. injection E as <- <-. split; [|lia].
  simpl. split; [|split].
  - constructor; simpl.
    + constructor; [simpl; intros [E | []]; lia|].
      constructor; [intros [] | constructor].
    + auto.
    + auto.
    + intros t [<- | []]; simpl; auto.
    + intros q [<- | [<- | []]]; lia.
    + intros t [<- | []]; simpl; lia.
    + intros t [<- | []]; simpl; lia.
  - intros m q Hm [<- | [<- | []]] Hq;
      apply (stackOk_below _ _ _ _ Hs Hm) in Hq; lia.
  - apply (stackOk_mono k); [lia | exact Hs].
Qed.

(** C3, as the code has it: on [*] the step pops one fragment [n], takes
    two fresh states [s] and [f] (different, and states of no fragment of
    the stack), and pushes the fragment from [s] to [f] whose transitions
    are the four epsilon edges [s -> n.start], [s -> f],
    [n.accept -> n.start], [n.accept -> f] followed by those of [n], and
    whose states are [s], [f] and those of [n]; the repetition edge goes
    back to [n.start], not to [s]. *)
Theorem thompsonStep_star (n : NFA) (stack : list NFA) (k : nat) :
  stackOk k (n :: stack) ->
  let s := k in
  let f := S k in
  thompsonStep "*" (n :: stack) k =
  (inr (mkNFA s f (s :: f :: states n)
          ([eps s (start n); eps s f;
            eps (accept n) (start n); eps (accept n) f]
           ++ transitions n)
        :: stack),
   S (S k))
  /\ s <> f
  /\ forall m, In m (n :: stack) ->
               ~ In s (states m) /\ ~ In f (states m).
Proof.
  intros H s f. split; [reflexivity|]. split; [unfold s, f; lia|].
  intros m Hm. split; intros Hq;
    apply (stackOk_below _ _ _ _ H Hm) in Hq; unfold s, f in Hq; lia.
Qed.

Lemma thompsonStep_star_witness :
  thompsonStep "*" [mkNFA 0 1 [0; 1] [mkTransition 0 1 (Some "a")]] 2 =
  (inr [mkNFA 2 3 [2; 3; 0; 1]
          [eps 2 0; eps 2 3; eps 1 0; eps 1 3;
           mkTransition 0 1 (Some "a")]], 4)
  /\ 2 <> 3.
Proof.
  destruct (thompsonStep_star
              (mkNFA 0 1 [0; 1] [mkTransition 0 1 (Some "a")]) [] 2)
    as [H1 [H2 _]].
  - exact (proj1 (thompsonStep_ok "a"%char [] _ 0 2 I eq_refl)).
  - split; [exact H1 | exact H2].
Defined.

(** C3, as stated, fails: in the automaton of [a*] the fragment of the
    literal [a] has the states [0] and [1], the closure adds the fresh
    states [s = 2] and [f = 3], and there is no edge from the accept state
    [1] of the fragment to [s]: the edge for repetition is [1 -> 0]. *)
Lemma thompsonStep_star_no_edge_to_s :
  postfixToNFA "a*" 0
  = (inr (mkNFA 2 3 [2; 3; 0; 1]
            [eps 2 0; eps 2 3; eps 1 0; eps 1 3;
             mkTransition 0 1 (Some "a")]), 4)
  /\ ~ In (eps 1 2)
         [eps 2 0; eps 2 3; eps 1 0; eps 1 3; mkTransition 0 1 (Some "a")].
Proof.
  split; [reflexivity|]. intros H.
  repeat (destruct H as [H | H]; [discriminate H|]). exact H.
Qed.

Lemma thompsonLoop_ok (postfix : string) :
  forall (stack stack' : list NFA) (k k' : nat),
    stackOk k stack ->
    thompsonLoop postfix stack k = (inr stack', k') ->
    stackOk k' stack' /\ k <= k'.
Proof.
  induction postfix as [| c rest IH]; intros stack stack' k k' Hs; simpl.
  - unfold ret. intros E. injection E as <- <-. auto.
  - unfold bind. destruct (thompsonStep c stack k) as [[e | stack1] k1] eqn:E1;
      [discriminate|].
    intros E. destruct (thompsonStep_ok _ _ _ _ _ Hs E1) as [Hs1 Hk1].
    destruct (IH _ _ _ _ Hs1 E) as [Hs' Hk']. split; [exact Hs' | lia].
Qed.

Lemma postfixToNFA_fragOk (postfix : string) (k k' : nat) (nfa : NFA) :
  postfixToNFA postfix k = (inr nfa, k') ->
  exists frag,
    fragOk k' frag
    /\ nfa = mkNFA (start frag) (accept frag) (setOf Nat.eqb (states frag))
               (transitions frag).
Proof.
  intros E.
  destruct (postfixToNFA_returns _ _ _ _ E) as [frag [El ->]].
  exists frag. split; [|reflexivity].
  assert (H0 : stackOk k []) by exact I.
  destruct (thompsonLoop_ok _ _ _ _ _ H0 El) as [[Hf _] _]. exact Hf.
Qed.

(** C8: the states of a returned automaton hold no id twice, and hold its
    start id, its accept id and both ends of each of its transitions. *)
Theorem postfixToNFA_states (postfix : string) (k k' : nat) (nfa : NFA) :
  postfixToNFA postfix k = (inr nfa, k') ->
  NoDup (states nfa)
  /\ In (start nfa) (states nfa)
  /\ In (accept nfa) (states nfa)
  /\ forall t, In t (transitions nfa) ->
               In (t_from t) (states nfa) /\ In (t_to t) (states nfa).
Proof.
  intros E. destruct (postfixToNFA_fragOk _ _ _ _ E) as [frag [Hf ->]].
  destruct Hf as [H1 H2 H3 H4 H5 H6 H7]. simpl.
  split; [apply setOf_NoDup, Nat.eqb_eq|].
  rewrite !(setOf_In Nat.eqb Nat.eqb_eq).
  repeat split; auto;
    rewrite (setOf_In Nat.eqb Nat.eqb_eq); apply H4; assumption.
Qed.

Lemma postfixToNFA_states_witness :
  NoDup (states nfa_ab)
  /\ In (start nfa_ab) (states nfa_ab)
  /\ In (accept nfa_ab) (states nfa_ab)
  /\ forall t, In t (transitions nfa_ab) ->
               In (t_from t) (states nfa_ab) /\ In (t_to t) (states nfa_ab).
Proof.
  apply (postfixToNFA_states "ab." 0 4 nfa_ab). vm_compute. reflexivity.
Defined.

(** C10: in a returned automaton no transition leaves the accept state and
    no transition enters the start state. *)
Theorem postfixToNFA_start_accept (postfix : string) (k k' : nat)
    (nfa : NFA) :
  postfixToNFA postfix k = (inr nfa, k') ->
  (forall t, In t (transitions nfa) -> t_from t <> accept nfa)
  /\ (forall t, In t (transitions nfa) -> t_to t <> start nfa).
Proof.
  intros E. destruct (postfixToNFA_fragOk _ _ _ _ E) as [frag [Hf ->]].
  destruct Hf as [H1 H2 H3 H4 H5 H6 H7]. simpl. split; assumption.
Qed.

Lemma postfixToNFA_start_accept_witness :
  (forall t, In t (transitions nfa_ab) -> t_from t <> accept nfa_ab)
  /\ (forall t, In t (transitions nfa_ab) -> t_to t <> start nfa_ab).
Proof.
  apply (postfixToNFA_start_accept "ab." 0 4 nfa_ab). vm_compute.
  reflexivity.
Defined.

(** ** Epsilon closure *)

Lemma transition_eta (t : Transition) :
  t = mkTransition (t_from t) (t_to t) (t_symbol t).
Proof. destruct t; reflexivity. Qed.

Lemma isNull_true (o : option string) : isNull o = true <-> o = None.
Proof. destruct o; simpl; split; congruence. Qed.

Lemma filter_length_mono {A} (f g : A -> bool) (l : list A) :
  (forall x, In x l -> f x = true -> g x = true) ->
  length (filter f l) <= length (filter g l).
Proof.
  induction l as [| x l IH]; intros H; simpl; [lia|].
  assert (IH' : length (filter f l) <= length (filter g l)).
  { apply IH. intros y Hy. apply H. right. exact Hy. }
  destruct (f x) eqn:Ef.
  - rewrite (H x (or_introl eq_refl) Ef). simpl. lia.
  - destruct (g x); simpl; lia.
Qed.

Lemma filter_length_strict {A} (f g : A -> bool) (l : list A) (a : A) :
  (forall x, In x l -> f x = true -> g x = true) ->
  In a l -> f a = false -> g a = true ->
  length (filter f l) < length (filter g l).
Proof.
  induction l as [| x l IH]; intros H Ha Ef Eg; simpl; [destruct Ha|].
  assert (Hle : length (filter f l) <= length (filter g l)).
  { apply filter_length_mono. intros y Hy. apply H. right. exact Hy. }
  destruct Ha as [-> | Ha].
  - rewrite Ef, Eg. simpl. lia.
  - assert (IH' : length (filter f l) < length (filter g l)).
    { apply IH; auto. intros y Hy. apply H. right. exact Hy. }
    destruct (f x) eqn:Efx.
    + rewrite (H x (or_introl eq_refl) Efx). simpl. lia.
    + destruct (g x); simpl; lia.
Qed.

Lemma unseen_add (ts : list Transition) (res : list nat) (t : Transition) :
  In t ts -> ~ In (t_to t) res ->
  unseen ts (setAdd Nat.eqb res (t_to t)) < unseen ts res.
Proof.
  intros Ht Hn. unfold unseen. apply (filter_length_strict _ _ _ t).
  - intros x _ Hx. apply negb_true_iff in Hx. apply negb_true_iff.
    apply (setHas_false Nat.eqb Nat.eqb_eq) in Hx.
    apply (setHas_false Nat.eqb Nat.eqb_eq).
    intros Hin. apply Hx. apply (setAdd_In Nat.eqb Nat.eqb_eq). auto.
  - exact Ht.
  - apply negb_false_iff. apply (setHas_In Nat.eqb Nat.eqb_eq).
    apply (setAdd_In Nat.eqb Nat.eqb_eq). auto.
  - apply negb_true_iff. apply (setHas_false Nat.eqb Nat.eqb_eq). exact Hn.
Qed.

(** One scan of the transitions for the popped state [s]: the states it
    adds are the epsilon successors of [s] that [res] did not hold. *)
Lemma closureScan_spec (ts : list Transition) (s : nat) :
  forall (l : list Transition) (res stack res' stack' : list nat),
    incl l ts ->
    closureScan l s (res, stack) = (res', stack') ->
    exists added,
      stack' = added ++ stack
      /\ (forall q, In q res' <-> In q res \/ In q added)
      /\ (forall q, In q added -> In (eps s q) l)
      /\ (forall q, In (eps s q) l -> In q res')
      /\ length added + unseen ts res' <= unseen ts res
      /\ (NoDup res -> NoDup res').
Proof.
  induction l as [| t l IH]; intros res stack res' stack' Hl; simpl.
  - intros E. injection E as <- <-. exists []. simpl.
    repeat split; try tauto. lia.
  - assert (Hl' : incl l ts) by (intros x Hx; apply Hl; right; exact Hx).
    assert (Ht : In t ts) by (apply Hl; left; reflexivity).
    destruct (Nat.eqb (t_from t) s && isNull (t_symbol t)
              && negb (setHas Nat.eqb res (t_to t))) eqn:C.
    + apply andb_true_iff in C. destruct C as [C C3].
      apply andb_true_iff in C. destruct C as [C1 C2].
      apply Nat.eqb_eq in C1. apply isNull_true in C2.
      apply negb_true_iff, (setHas_false Nat.eqb Nat.eqb_eq) in C3.
      assert (Et : t = eps s (t_to t)).
      { rewrite (transition_eta t) at 1. unfold eps. congruence. }
      intros E. destruct (IH _ _ _ _ Hl' E)
        as [added [E1 [E2 [E3 [E4 [E5 E6]]]]]].
      exists (added ++ [t_to t]).
      split; [rewrite <- app_assoc; exact E1|].
      split; [|split; [|split; [|split]]].
      * intros q. rewrite E2, (setAdd_In Nat.eqb Nat.eqb_eq), in_app_iff.
        simpl. intuition.
      * intros q Hq. apply in_app_or in Hq. destruct Hq as [Hq | [<- | []]].
        -- right. apply E3, Hq.
        -- left. exact Et.
      * intros q [Hq | Hq].
        -- apply E2. left. apply (setAdd_In Nat.eqb Nat.eqb_eq). right.
           rewrite Hq. reflexivity.
        -- apply E4, Hq.
      * rewrite length_app. simpl.
        assert (Hlt := unseen_add ts res t Ht C3). lia.
      * intros Hnd. apply E6, (setAdd_NoDup Nat.eqb Nat.eqb_eq), Hnd.
    + intros E. destruct (IH _ _ _ _ Hl' E)
        as [added [E1 [E2 [E3 [E4 [E5 E6]]]]]].
      exists added. repeat split; auto.
      * apply E2.
      * apply E2.
      * intros q [Hq | Hq]; [|apply E4, Hq].
        apply andb_false_iff in C. destruct C as [C | C].
        -- rewrite Hq in C. simpl in C. rewrite Nat.eqb_refl in C.
           discriminate.
        -- apply negb_false_iff, (setHas_In Nat.eqb Nat.eqb_eq) in C.
           rewrite Hq in C. simpl in C. apply E2. left. exact C.
Qed.

Lemma unseen_le (ts : list Transition) (res : list nat) :
  unseen ts res <= length ts.
Proof. unfold unseen. apply List.filter_length_le. Qed.

(** The worklist loop of [epsilonClosure] ends within its fuel, with the
    states reachable from [S0] by epsilon transitions. *)
Lemma closureLoop_spec (ts : list Transition) (S0 : list nat) :
  forall (fuel : nat) (stack res : list nat),
    length stack + unseen ts res < fuel ->
    (forall q, In q S0 -> In q res) ->
    (forall q, In q res -> epsReach ts S0 q) ->
    (forall q, In q stack -> In q res) ->
    (forall p q, In p res -> ~ In p stack -> In (eps p q) ts -> In q res) ->
    exists r,
      closureLoop fuel ts stack res = Some r
      /\ (forall q, In q r <-> epsReach ts S0 q)
      /\ (NoDup res -> NoDup r).
Proof.
  induction fuel as [| fuel IH]; intros stack res Hm H1 H2 H3 H4; [lia|].
  destruct stack as [| s stack]; simpl.
  - exists res. split; [reflexivity|]. split; [|auto].
    intros q. split; [apply H2|].
    intros Hq. induction Hq as [q Hq | p q _ IHp He].
    + apply H1, Hq.
    + apply (H4 p q IHp); [intros [] | exact He].
  - destruct (closureScan ts s (res, stack)) as [res' stack'] eqn:E.
    destruct (closureScan_spec ts s ts res stack res' stack'
                (incl_refl ts) E) as [added [E1 [E2 [E3 [E4 [E5 E6]]]]]].
    subst stack'.
    destruct (IH (added ++ stack) res') as [r [R1 [R2 R3]]].
    + rewrite length_app. simpl in Hm. lia.
    + intros q Hq. apply E2. left. apply H1, Hq.
    + intros q Hq. apply E2 in Hq. destruct Hq as [Hq | Hq]; [apply H2, Hq|].
      apply (reach_step ts S0 s q); [|apply E3, Hq].
      apply H2, H3. left. reflexivity.
    + intros q Hq. apply E2. apply in_app_or in Hq.
      destruct Hq as [Hq | Hq]; [right; exact Hq|].
      left. apply H3. right. exact Hq.
    + intros p q Hp Hn He.
      assert (Hp' : In p res).
      { apply E2 in Hp. destruct Hp as [Hp | Hp]; [exact Hp|].
        exfalso. apply Hn, in_or_app. left. exact Hp. }
      destruct (Nat.eq_dec p s) as [-> | Hne].
      * apply E4, He.
      * apply E2. left. apply (H4 p q Hp'); [|exact He].
        intros [Hs | Hs]; [congruence|].
        apply Hn, in_or_app. right. exact Hs.
    + exists r. split; [exact R1|]. split; [exact R2|].
      intros Hnd. apply R3, E6, Hnd.
Qed.

Lemma closureLoop_total (nfa : NFA) (stateSet : list nat) :
  closureLoop (closureFuel nfa stateSet) (transitions nfa)
    (List.rev stateSet) stateSet
  = Some (epsilonClosure nfa stateSet)
  /\ (forall q, In q (epsilonClosure nfa stateSet)
                <-> epsReach (transitions nfa) stateSet q)
  /\ (NoDup stateSet -> NoDup (epsilonClosure nfa stateSet)).
Proof.
  unfold epsilonClosure.
  destruct (closureLoop_spec (transitions nfa) stateSet
              (closureFuel nfa stateSet) (List.rev stateSet) stateSet)
    as [r [R1 [R2 R3]]].
  - unfold closureFuel. rewrite length_rev.
    assert (H := unseen_le (transitions nfa) stateSet). lia.
  - auto.
  - apply reach_in.
  - intros q Hq. apply in_rev. exact Hq.
  - intros p q Hp Hn. exfalso. apply Hn. apply -> in_rev. exact Hp.
  - rewrite R1. auto.
Qed.

Lemma epsilonClosure_In (nfa : NFA) (stateSet : list nat) (q : nat) :
  In q (epsilonClosure nfa stateSet)
  <-> epsReach (transitions nfa) stateSet q.
Proof. apply closureLoop_total. Qed.

Lemma epsilonClosure_NoDup (nfa : NFA) (stateSet : list nat) :
  NoDup stateSet -> NoDup (epsilonClosure nfa stateSet).
Proof. apply closureLoop_total. Qed.

Lemma epsilonClosure_nil (nfa : NFA) : epsilonClosure nfa [] = [].
Proof. reflexivity. Qed.

Lemma epsReach_sameSet (ts : list Transition) (s1 s2 : list nat) (q : nat) :
  sameSet s1 s2 -> epsReach ts s1 q -> epsReach ts s2 q.
Proof.
  intros H R. induction R as [q Hq | p q _ IHp He].
  - apply reach_in, H, Hq.
  - apply (reach_step ts s2 p q IHp He).
Qed.

Lemma epsilonClosure_sameSet (nfa : NFA) (s1 s2 : list nat) :
  sameSet s1 s2 -> sameSet (epsilonClosure nfa s1) (epsilonClosure nfa s2).
Proof.
  intros H q. rewrite !epsilonClosure_In. split; apply epsReach_sameSet.
  - exact H.
  - intros x. symmetry. apply H.
Qed.

(** Targets: a state of the closure is in the set or is the target of a
    transition. *)
Lemma epsilonClosure_incl (nfa : NFA) (stateSet : list nat) (q : nat) :
  In q (epsilonClosure nfa stateSet) ->
  In q stateSet \/ In q (map t_to (transitions nfa)).
Proof.
  rewrite epsilonClosure_In. intros R. destruct R as [q Hq | p q _ He].
  - left. exact Hq.
  - right. apply (in_map t_to) in He. exact He.
Qed.

(** ** Move *)

Lemma symbolIs_true (o : option string) (a : string) :
  symbolIs o a = true <-> o = Some a.
Proof.
  destruct o as [x |]; simpl; [|split; discriminate].
  rewrite String.eqb_eq. split; congruence.
Qed.

Lemma moveRow_spec (ts : list Transition) (s : nat) (a : string) :
  forall (res : list nat),
    let res' :=
      fold_left
        (fun res t =>
           if Nat.eqb (t_from t) s && symbolIs (t_symbol t) a
           then setAdd Nat.eqb res (t_to t) else res) ts res in
    (forall q, In q res' <->
               In q res \/ In (mkTransition s q (Some a)) ts)
    /\ (NoDup res -> NoDup res').
Proof.
  induction ts as [| t ts IH]; intros res; simpl.
  - split; [tauto | auto].
  - destruct (Nat.eqb (t_from t) s && symbolIs (t_symbol t) a) eqn:C.
    + apply andb_true_iff in C. destruct C as [C1 C2].
      apply Nat.eqb_eq in C1. apply symbolIs_true in C2.
      destruct (IH (setAdd Nat.eqb res (t_to t))) as [I1 I2]. split.
      * intros q. rewrite I1, (setAdd_In Nat.eqb Nat.eqb_eq).
        rewrite (transition_eta t) at 2. rewrite C1, C2.
        split; [intros [[H | ->] | H]; auto | intros [H | [H | H]]; auto].
        injection H as ->. auto.
      * intros H. apply I2, (setAdd_NoDup Nat.eqb Nat.eqb_eq), H.
    + destruct (IH res) as [I1 I2]. split; [|exact I2].
      intros q. rewrite I1. split; [tauto|].
      intros [H | [H | H]]; auto.
      rewrite H in C. simpl in C. rewrite Nat.eqb_refl, String.eqb_refl in C.
      discriminate.
Qed.

Lemma move_spec (nfa : NFA) (a : string) (stateSet : list nat) :
  (forall q, In q (move nfa stateSet a) <->
             exists p, In p stateSet
                       /\ In (mkTransition p q (Some a)) (transitions nfa))
  /\ NoDup (move nfa stateSet a).
Proof.
  unfold move.
  assert (G : forall (l res : list nat),
             let res' :=
               fold_left
                 (fun res s =>
                    fold_left
                      (fun res t =>
                         if Nat.eqb (t_from t) s
                            && symbolIs (t_symbol t) a
                         then setAdd Nat.eqb res (t_to t) else res)
                      (transitions nfa) res) l res in
             (forall q, In q res' <->
                        In q res
                        \/ exists p, In p l
                             /\ In (mkTransition p q (Some a))
                                  (transitions nfa))
             /\ (NoDup res -> NoDup res')).
  { induction l as [| s l IH]; intros res; simpl.
    - split; [|auto]. intros q. split; [auto|].
      intros [H | [p [[] _]]]. exact H.
    - destruct (moveRow_spec (transitions nfa) s a res) as [M1 M2].
      destruct (IH (fold_left
                      (fun res t =>
                         if Nat.eqb (t_from t) s
                            && symbolIs (t_symbol t) a
                         then setAdd Nat.eqb res (t_to t) else res)
                      (transitions nfa) res)) as [I1 I2].
      split.
      + intros q. rewrite I1, M1. split.
        * intros [[H | H] | [p [Hp H]]]; eauto.
        * intros [H | [p [[-> | Hp] H]]]; eauto.
      + intros H. apply I2, M2, H. }
  destruct (G stateSet []) as [G1 G2]. split.
  - intros q. rewrite G1. simpl. split; [intros [[] | H]; exact H | auto].
  - apply G2. constructor.
Qed.

Lemma move_In (nfa : NFA) (a : string) (stateSet : list nat) (q : nat) :
  In q (move nfa stateSet a) <->
  exists p, In p stateSet
            /\ In (mkTransition p q (Some a)) (transitions nfa).
Proof. apply move_spec. Qed.

Lemma move_NoDup (nfa : NFA) (a : string) (stateSet : list nat) :
  NoDup (move nfa stateSet a).
Proof. apply move_spec. Qed.

Lemma move_sameSet (nfa : NFA) (a : string) (s1 s2 : list nat) :
  sameSet s1 s2 -> sameSet (move nfa s1 a) (move nfa s2 a).
Proof.
  intros H q. rewrite !move_In.
  split; intros [p [Hp Ht]]; exists p; split; try exact Ht; apply H, Hp.
Qed.

Lemma sameSet_nil (s : list nat) : sameSet s [] -> s = [].
Proof.
  destruct s as [| x s]; [reflexivity|].
  intros H. destruct (proj1 (H x) (or_introl eq_refl)).
Qed.

(** ** Canonical keys *)

Lemma insertAsc_In (a x : nat) (l : list nat) :
  In x (insertAsc a l) <-> x = a \/ In x l.
Proof.
  induction l as [| y l IH]; simpl.
  - intuition.
  - destruct (Nat.leb a y); simpl; [intuition|].
    rewrite IH. intuition.
Qed.

Lemma sortAsc_In (x : nat) (l : list nat) : In x (sortAsc l) <-> In x l.
Proof.
  induction l as [| a l IH]; simpl; [tauto|].
  rewrite insertAsc_In, IH. intuition.
Qed.

Lemma insertAsc_sorted (a : nat) (l : list nat) :
  StronglySorted lt l -> ~ In a l -> StronglySorted lt (insertAsc a l).
Proof.
  induction l as [| y l IH]; intros Hs Hn; simpl.
  - constructor; constructor.
  - apply StronglySorted_inv in Hs. destruct Hs as [Hs Hy].
    destruct (Nat.leb a y) eqn:E.
    + apply Nat.leb_le in E.
      assert (a < y) by (simpl in Hn; lia).
      constructor; [constructor; assumption|].
      constructor; [assumption|].
      rewrite Forall_forall in *. intros z Hz. apply Hy in Hz. lia.
    + apply Nat.leb_gt in E.
      constructor; [apply IH; [exact Hs | simpl in Hn; tauto]|].
      rewrite Forall_forall in *. intros z Hz. apply insertAsc_In in Hz.
      destruct Hz as [-> | Hz]; [exact E | apply Hy, Hz].
Qed.

Lemma sortAsc_sorted (l : list nat) :
  NoDup l -> StronglySorted lt (sortAsc l).
Proof.
  induction l as [| a l IH]; intros H; simpl; [constructor|].
  inversion H as [| ? ? Hn Hl]; subst.
  apply insertAsc_sorted; [apply IH, Hl|].
  rewrite sortAsc_In. exact Hn.
Qed.

Lemma sorted_sameSet_eq (l1 : list nat) :
  forall l2,
    StronglySorted lt l1 -> StronglySorted lt l2 -> sameSet l1 l2 ->
    l1 = l2.
Proof.
  induction l1 as [| a l1 IH]; intros l2 H1 H2 E.
  - destruct l2 as [| b l2]; [reflexivity|].
    destruct (proj2 (E b) (or_introl eq_refl)).
  - destruct l2 as [| b l2];
      [destruct (proj1 (E a) (or_introl eq_refl))|].
    apply StronglySorted_inv in H1. destruct H1 as [H1 Ha].
    apply StronglySorted_inv in H2. destruct H2 as [H2 Hb].
    rewrite Forall_forall in Ha, Hb.
    assert (Eab : a = b).
    { destruct (proj1 (E a) (or_introl eq_refl)) as [-> | Hin];
        [reflexivity|].
      destruct (proj2 (E b) (or_introl eq_refl)) as [-> | Hin'];
        [reflexivity|].
      apply Hb in Hin. apply Ha in Hin'. lia. }
    subst b. f_equal. apply IH; try assumption.
    intros q. split; intros Hq.
    + destruct (proj1 (E q) (or_intror Hq)) as [<- | Hin]; [|exact Hin].
      apply Ha in Hq. lia.
    + destruct (proj2 (E q) (or_intror Hq)) as [<- | Hin]; [|exact Hin].
      apply Hb in Hq. lia.
Qed.

Lemma sortAsc_sameSet (s1 s2 : list nat) :
  NoDup s1 -> NoDup s2 -> sameSet s1 s2 -> sortAsc s1 = sortAsc s2.
Proof.
  intros H1 H2 E. apply sorted_sameSet_eq; try (apply sortAsc_sorted; auto).
  intros q. rewrite !sortAsc_In. apply E.
Qed.

Lemma string_of_uint_digits (d : Decimal.uint) :
  allChars isDigit (NilEmpty.string_of_uint d) = true.
Proof. induction d; simpl; auto. Qed.

Lemma natToString_digits (n : nat) :
  allChars isDigit (natToString n) = true.
Proof. apply string_of_uint_digits. Qed.

Lemma natToString_nonempty (n : nat) : natToString n <> EmptyString.
Proof.
  unfold natToString. intros E.
  assert (H : Nat.to_uint n = Decimal.Nil).
  { destruct (Nat.to_uint n); try discriminate E. reflexivity. }
  assert (H' := Unsigned.of_to n). rewrite H in H'. simpl in H'. subst n.
  discriminate H.
Qed.

Lemma stringToNat_natToString (n : nat) :
  stringToNat (natToString n) = Some n.
Proof.
  unfold stringToNat, natToString. rewrite NilEmpty.usu. simpl.
  rewrite Unsigned.of_to. reflexivity.
Qed.


Lemma append_nil_r (s : string) : (s ++ "")%string = s.
Proof. induction s; simpl; congruence. Qed.

Lemma append_assoc (a b c : string) :
  ((a ++ b) ++ c)%string = (a ++ (b ++ c))%string.
Proof. induction a; simpl; congruence. Qed.

Lemma splitGo_app (sep : ascii) (p : string) :
  forall (rest cur : string),
    allChars (fun c => negb (Ascii.eqb c sep)) p = true ->
    splitGo sep (p ++ rest)%string cur
    = splitGo sep rest (cur ++ p)%string.
Proof.
  induction p as [| c p IH]; intros rest cur H; simpl.
  - rewrite append_nil_r. reflexivity.
  - simpl in H. apply andb_true_iff in H. destruct H as [Hc Hp].
    apply negb_true_iff in Hc. rewrite Hc. rewrite IH by exact Hp.
    rewrite append_assoc. reflexivity.
Qed.

Lemma split_join (sep : ascii) (parts : list string) :
  parts <> [] ->
  Forall (fun p => allChars (fun c => negb (Ascii.eqb c sep)) p = true)
    parts ->
  split sep (join (String sep EmptyString) parts) = parts.
Proof.
  unfold split. induction parts as [| p parts IH]; intros Hne Hall;
    [congruence|].
  inversion Hall as [| ? ? Hp Hps]; subst.
  destruct parts as [| q parts].
  - simpl. rewrite <- (append_nil_r p) at 1.
    rewrite splitGo_app by exact Hp. reflexivity.
  - change (join (String sep "") (p :: q :: parts))
      with (p ++ String sep (join (String sep "") (q :: parts)))%string.
    rewrite splitGo_app by exact Hp. simpl. rewrite Ascii.eqb_refl.
    f_equal. apply IH; [discriminate | exact Hps].
Qed.

Lemma allChars_impl (P Q : ascii -> bool) (s : string) :
  (forall c, P c = true -> Q c = true) ->
  allChars P s = true -> allChars Q s = true.
Proof.
  intros H. induction s as [| c s IH]; simpl; [auto|].
  rewrite !andb_true_iff. intros [H1 H2]. auto.
Qed.

Lemma isDigit_not (c sep : ascii) :
  isDigit sep = false -> isDigit c = true -> negb (Ascii.eqb c sep) = true.
Proof.
  intros Hs Hc. apply negb_true_iff. apply Ascii.eqb_neq. congruence.
Qed.

Lemma join_nonempty (sep p : string) (parts : list string) :
  p <> EmptyString -> join sep (p :: parts) <> EmptyString.
Proof.
  intros Hp. destruct parts as [| q parts]; simpl; [exact Hp|].
  destruct p; [congruence | discriminate].
Qed.

Lemma partsOf_keyOf (set : list nat) :
  partsOf (keyOf set) = map Some (sortAsc set).
Proof.
  unfold partsOf, keyOf. destruct (sortAsc set) as [| x l] eqn:E;
    [reflexivity|].
  destruct (String.eqb_spec (join "," (map natToString (x :: l))) "")
    as [E0 | _].
  - exfalso. revert E0. simpl map. apply join_nonempty, natToString_nonempty.
  - change ","%string with (String ","%char EmptyString).
    rewrite split_join.
    + rewrite map_map. apply map_ext. apply stringToNat_natToString.
    + discriminate.
    + rewrite Forall_forall. intros p Hp. apply in_map_iff in Hp.
      destruct Hp as [n [<- _]].
      apply (allChars_impl isDigit); [|apply natToString_digits].
      intros c Hc. apply (isDigit_not c ","%char); [reflexivity | exact Hc].
Qed.

Lemma map_Some_inj {A} (l1 : list A) :
  forall l2, map Some l1 = map Some l2 -> l1 = l2.
Proof.
  induction l1 as [| a l1 IH]; intros [| b l2] H; try discriminate;
    [reflexivity|].
  simpl in H. injection H as -> H. f_equal. apply IH, H.
Qed.

Lemma keyOf_sortAsc (s1 s2 : list nat) :
  keyOf s1 = keyOf s2 <-> sortAsc s1 = sortAsc s2.
Proof.
  split; intros E.
  - assert (H := partsOf_keyOf s1). rewrite E, partsOf_keyOf in H.
    symmetry. apply map_Some_inj, H.
  - unfold keyOf. rewrite E. reflexivity.
Qed.

Lemma keyOf_sameSet (s1 s2 : list nat) :
  NoDup s1 -> NoDup s2 -> (keyOf s1 = keyOf s2 <-> sameSet s1 s2).
Proof.
  intros H1 H2. rewrite keyOf_sortAsc. split.
  - intros E q. rewrite <- (sortAsc_In q s1), <- (sortAsc_In q s2), E.
    tauto.
  - apply sortAsc_sameSet; assumption.
Qed.

Lemma includes_keyOf (set : list nat) (id : nat) :
  includes (partsOf (keyOf set)) id = setHas Nat.eqb set id.
Proof.
  rewrite partsOf_keyOf. unfold includes, setHas.
  apply eq_true_iff_eq. rewrite !existsb_exists. split.
  - intros [p [Hp E]]. apply in_map_iff in Hp. destruct Hp as [n [<- Hn]].
    apply Nat.eqb_eq in E. subst. exists id. rewrite sortAsc_In in Hn.
    split; [exact Hn | apply Nat.eqb_refl].
  - intros [n [Hn E]]. apply Nat.eqb_eq in E. subst. exists (Some n).
    split; [|apply Nat.eqb_refl].
    apply in_map, sortAsc_In, Hn.
Qed.

(** ** The map of subset keys *)

Lemma combine_snoc {A B} (l : list A) (a : A) :
  forall (l' : list B) (b : B),
    length l = length l' ->
    combine (l ++ [a]) (l' ++ [b]) = combine l l' ++ [(a, b)].
Proof.
  induction l as [| x l IH]; intros [| y l'] b H; simpl in *;
    try discriminate; [reflexivity|].
  rewrite IH by lia. reflexivity.
Qed.

Lemma mapHas_combine (ks : list string) (k : string) :
  forall b, mapHas (combine ks (seq b (length ks))) k = true <-> In k ks.
Proof.
  unfold mapHas. induction ks as [| x ks IH]; intros b; simpl.
  - split; [discriminate | tauto].
  - rewrite orb_true_iff, IH, String.eqb_eq. tauto.
Qed.

Lemma mapGet_combine (ks : list string) :
  forall b j d,
    NoDup ks -> j < length ks ->
    mapGet (combine ks (seq b (length ks))) (nth j ks d) = Some (b + j).
Proof.
  unfold mapGet. induction ks as [| x ks IH]; intros b j d Hnd Hj; simpl in *;
    [lia|].
  inversion Hnd as [| ? ? Hx Hks]; subst.
  destruct j as [| j].
  - rewrite String.eqb_refl. simpl. f_equal. lia.
  - destruct (String.eqb_spec x (nth j ks d)) as [E | _].
    + exfalso. apply Hx. rewrite E. apply nth_In. lia.
    + rewrite (IH (S b) j d Hks) by lia. f_equal. lia.
Qed.

Lemma mapSet_fresh (m : list (string * nat)) (k : string) (v : nat) :
  mapHas m k = false -> mapSet m k v = m ++ [(k, v)].
Proof. unfold mapSet. intros ->. reflexivity. Qed.

Lemma In_nth_key (l : list (list nat)) (k : string) :
  In k (map keyOf l) ->
  exists j, j < length l /\ keyOf (nth j l []) = k.
Proof.
  intros H. apply (In_nth _ _ (keyOf [])) in H.
  destruct H as [j [Hj E]]. rewrite length_map in Hj.
  exists j. split; [exact Hj|].
  rewrite <- E. symmetry. apply (map_nth keyOf).
Qed.

Lemma subsets_get (nfa : NFA) (alphabet : list string) (i : nat)
    (done : list string) (st : Subsets) (j : nat) :
  subsetsOk nfa alphabet i done st ->
  j < length (dfaStatesList st) ->
  mapGet (dfaStatesMap st) (keyOf (nth j (dfaStatesList st) [])) = Some j.
Proof.
  intros H Hj. rewrite (so_map _ _ _ _ _ H).
  rewrite <- (map_nth keyOf).
  rewrite <- (length_map keyOf (dfaStatesList st)).
  rewrite (mapGet_combine _ 0 j (keyOf [])).
  - reflexivity.
  - apply (so_keys _ _ _ _ _ H).
  - rewrite length_map. exact Hj.
Qed.

Lemma subsets_has (nfa : NFA) (alphabet : list string) (i : nat)
    (done : list string) (st : Subsets) (k : string) :
  subsetsOk nfa alphabet i done st ->
  mapHas (dfaStatesMap st) k = true <-> In k (map keyOf (dfaStatesList st)).
Proof.
  intros H. rewrite (so_map _ _ _ _ _ H).
  rewrite <- (length_map keyOf (dfaStatesList st)).
  apply mapHas_combine.
Qed.

(** ** The worklist loop: one symbol *)

Lemma closure_move_ok (nfa : NFA) (set : list nat) (sym : string) :
  NoDup (epsilonClosure nfa (move nfa set sym))
  /\ incl (epsilonClosure nfa (move nfa set sym)) (universe nfa).
Proof.
  split; [apply epsilonClosure_NoDup, move_NoDup|].
  intros q Hq. right.
  apply epsilonClosure_incl in Hq. destruct Hq as [Hq | Hq]; [|exact Hq].
  apply move_In in Hq. destruct Hq as [p [_ Ht]].
  apply (in_map t_to) in Ht. exact Ht.
Qed.

(** A subset whose key is new is added at the end of the list, with the
    next id. *)
Lemma addSubset_ok (nfa : NFA) (alphabet : list string) (i : nat)
    (done : list string) (st : Subsets) (set : list nat) :
  subsetsOk nfa alphabet i done st ->
  i < length (dfaStatesList st) ->
  mapHas (dfaStatesMap st) (keyOf set) = false ->
  NoDup set -> incl set (universe nfa) ->
  subsetsOk nfa alphabet i done
    (mkSubsets
       (mapSet (dfaStatesMap st) (keyOf set) (length (dfaStatesList st)))
       (dfaStatesList st ++ [set]) (out_transitions st) (idx st)).
Proof.
  intros H Hi Hk Hnd Hin.
  assert (Hnk : ~ In (keyOf set) (map keyOf (dfaStatesList st))).
  { intros Hc. apply (subsets_has _ _ _ _ _ _ H) in Hc. congruence. }
  assert (Hnth : forall j, j < length (dfaStatesList st) ->
                   nth j (dfaStatesList st ++ [set]) []
                   = nth j (dfaStatesList st) []).
  { intros j Hj. apply app_nth1, Hj. }
  destruct H as [H1 H2 H3 [H4 H4'] H5 H6 H7 H8].
  constructor; simpl.
  - rewrite mapSet_fresh by exact Hk. rewrite H1.
    rewrite map_app, length_app. simpl.
    rewrite Nat.add_1_r, seq_S. simpl.
    rewrite combine_snoc; [reflexivity|].
    rewrite length_map, length_seq. reflexivity.
  - rewrite map_app. simpl. apply NoDup_app; auto.
    + constructor; [intros [] | constructor].
    + intros a Ha [<- | []]. exact (Hnk Ha).
  - intros s Hs. apply in_app_or in Hs.
    destruct Hs as [Hs | [<- | []]]; auto.
  - rewrite Hnth by exact H4'. rewrite length_app. split; [exact H4 | lia].
  - exact H5.
  - exact H6.
  - intros t Ht. destruct (H7 t Ht) as [A [B [C [D E]]]].
    rewrite length_app, !Hnth by assumption. simpl.
    repeat split; auto; lia.
  - intros j sym Hj Hs Hm. rewrite Hnth in Hm by lia.
    apply (H8 j sym Hj Hs Hm).
Qed.

(** Recording the transition from [i] on [sym] to the subset of id [j]. *)
Lemma addTransition_ok (nfa : NFA) (alphabet : list string) (i : nat)
    (done : list string) (st : Subsets) (sym : string) (j : nat) :
  subsetsOk nfa alphabet i done st ->
  i < length (dfaStatesList st) ->
  In sym alphabet -> ~ In sym done ->
  j < length (dfaStatesList st) ->
  move nfa (nth i (dfaStatesList st) []) sym <> [] ->
  keyOf (nth j (dfaStatesList st) [])
  = keyOf (epsilonClosure nfa (move nfa (nth i (dfaStatesList st) []) sym)) ->
  subsetsOk nfa alphabet i (done ++ [sym])
    (mkSubsets (dfaStatesMap st) (dfaStatesList st)
       (out_transitions st ++ [mkDTransition i j sym]) (idx st)).
Proof.
  intros H Hi Hs Hn Hj Hm Hk.
  destruct H as [H1 H2 H3 H4 H5 H6 H7 H8].
  constructor; simpl; auto.
  - rewrite map_app. simpl. apply NoDup_app; auto.
    + constructor; [intros [] | constructor].
    + intros a Ha [<- | []]. apply in_map_iff in Ha.
      destruct Ha as [t [Et Ht]]. unfold fromSym in Et.
      injection Et as E1 E2. destruct (H6 t Ht) as [Hlt | [_ Hd]].
      * lia.
      * apply Hn. rewrite <- E2. exact Hd.
  - intros t Ht. apply in_app_or in Ht. destruct Ht as [Ht | [<- | []]].
    + destruct (H6 t Ht) as [Hlt | [E Hd]]; [left; exact Hlt|].
      right. split; [exact E | apply in_or_app; left; exact Hd].
    + right. simpl. split; [reflexivity | apply in_or_app; simpl; auto].
  - intros t Ht. apply in_app_or in Ht. destruct Ht as [Ht | [<- | []]].
    + apply H7, Ht.
    + simpl. repeat split; assumption.
  - intros j' sym' Hj' Hs' Hm'.
    assert (Hold : j' < i \/ (j' = i /\ In sym' done)
                   \/ (j' = i /\ sym' = sym)).
    { destruct Hj' as [Hlt | [E Hd]]; [left; exact Hlt|].
      apply in_app_or in Hd. destruct Hd as [Hd | [<- | []]]; auto. }
    destruct Hold as [Hlt | [Hd | [-> ->]]].
    + destruct (H8 j' sym' (or_introl Hlt) Hs' Hm') as [t [Ht E]].
      exists t. split; [apply in_or_app; left; exact Ht | exact E].
    + destruct (H8 j' sym' (or_intror Hd) Hs' Hm') as [t [Ht E]].
      exists t. split; [apply in_or_app; left; exact Ht | exact E].
    + exists (mkDTransition i j sym).
      split; [apply in_or_app; simpl; auto | split; reflexivity].
Qed.

Lemma subsetsOk_skip (nfa : NFA) (alphabet : list string) (i : nat)
    (done : list string) (st : Subsets) (sym : string) :
  subsetsOk nfa alphabet i done st ->
  move nfa (nth i (dfaStatesList st) []) sym = [] ->
  subsetsOk nfa alphabet i (done ++ [sym]) st.
Proof.
  intros H Hm. destruct H as [H1 H2 H3 H4 H5 H6 H7 H8].
  constructor; auto.
  - intros t Ht. destruct (H6 t Ht) as [Hlt | [E Hd]]; [left; exact Hlt|].
    right. split; [exact E | apply in_or_app; left; exact Hd].
  - intros j sym' Hj Hs Hm'. apply (H8 j sym'); auto.
    destruct Hj as [Hlt | [E Hd]]; [left; exact Hlt|].
    apply in_app_or in Hd. destruct Hd as [Hd | [<- | []]]; auto.
    subst j. congruence.
Qed.

Lemma symbolStep_ok (nfa : NFA) (alphabet : list string) (i : nat)
    (done : list string) (st : Subsets) (sym : string) :
  subsetsOk nfa alphabet i done st ->
  i < length (dfaStatesList st) ->
  In sym alphabet -> ~ In sym done ->
  let st' := symbolStep nfa (nth i (dfaStatesList st) []) i st sym in
  subsetsOk nfa alphabet i (done ++ [sym]) st'
  /\ idx st' = idx st
  /\ i < length (dfaStatesList st')
  /\ nth i (dfaStatesList st') [] = nth i (dfaStatesList st) [].
Proof.
  intros H Hi Hs Hn. unfold symbolStep.
  destruct (move nfa (nth i (dfaStatesList st) []) sym) as [| x xs] eqn:Em.
  - simpl. split; [apply subsetsOk_skip; assumption | auto].
  - rewrite <- Em.
    set (closure := epsilonClosure nfa
                      (move nfa (nth i (dfaStatesList st) []) sym)).
    destruct (closure_move_ok nfa (nth i (dfaStatesList st) []) sym)
      as [Cnd Cin]. fold closure in Cnd, Cin.
    assert (Hm : move nfa (nth i (dfaStatesList st) []) sym <> [])
      by (rewrite Em; discriminate).
    destruct (mapHas (dfaStatesMap st) (keyOf closure)) eqn:Eh.
    + assert (Hin := proj1 (subsets_has _ _ _ _ _ _ H) Eh).
      apply In_nth_key in Hin. destruct Hin as [j [Hj Ej]].
      assert (Eg : mapGet (dfaStatesMap st) (keyOf closure) = Some j)
        by (rewrite <- Ej; apply (subsets_get _ _ _ _ _ j H Hj)).
      unfold mapGetBang. rewrite Eg. simpl.
      split; [|auto].
      apply addTransition_ok; auto.
    + set (st1 := mkSubsets
                    (mapSet (dfaStatesMap st) (keyOf closure)
                       (length (dfaStatesList st)))
                    (dfaStatesList st ++ [closure]) (out_transitions st)
                    (idx st)).
      assert (H1 : subsetsOk nfa alphabet i done st1)
        by (apply addSubset_ok; assumption).
      assert (Hlen : length (dfaStatesList st1)
                     = S (length (dfaStatesList st))).
      { simpl. rewrite length_app. simpl. lia. }
      assert (Hi1 : nth i (dfaStatesList st1) []
                    = nth i (dfaStatesList st) []).
      { simpl. apply app_nth1, Hi. }
      assert (Hlast : nth (length (dfaStatesList st)) (dfaStatesList st1) []
                      = closure).
      { simpl. rewrite app_nth2 by lia. rewrite Nat.sub_diag. reflexivity. }
      assert (Eg : mapGet (dfaStatesMap st1) (keyOf closure)
                   = Some (length (dfaStatesList st))).
      { rewrite <- Hlast.
        apply (subsets_get _ _ _ _ _ (length (dfaStatesList st)) H1). lia. }
      unfold mapGetBang. fold st1. rewrite Eg. simpl.
      split; [|split; [reflexivity | split; [rewrite length_app; lia|]]].
      * apply (addTransition_ok nfa alphabet i done st1 sym
                 (length (dfaStatesList st))); auto.
        -- lia.
        -- lia.
        -- rewrite Hi1. exact Hm.
        -- rewrite Hlast, Hi1. reflexivity.
      * apply app_nth1, Hi.
Qed.

(** ** The worklist loop: one subset *)

Lemma symbolRow_ok (nfa : NFA) (alphabet : list string) (i : nat)
    (current : list nat) :
  forall (todo done : list string) (st : Subsets),
    subsetsOk nfa alphabet i done st ->
    i < length (dfaStatesList st) ->
    nth i (dfaStatesList st) [] = current ->
    incl todo alphabet ->
    NoDup (done ++ todo) ->
    let st' := fold_left (symbolStep nfa current i) todo st in
    subsetsOk nfa alphabet i (done ++ todo) st'
    /\ idx st' = idx st
    /\ i < length (dfaStatesList st').
Proof.
  induction todo as [| sym todo IH]; intros done st H Hi Hc Hin Hnd; simpl.
  - rewrite app_nil_r. auto.
  - assert (Hs : In sym alphabet) by (apply Hin; left; reflexivity).
    assert (Hn : ~ In sym done).
    { intros Hd. apply NoDup_remove_2 in Hnd. apply Hnd.
      apply in_or_app. left. exact Hd. }
    destruct (symbolStep_ok nfa alphabet i done st sym H Hi Hs Hn)
      as [H' [Ei [Hi' Hc']]].
    rewrite Hc in H', Ei, Hi', Hc'.
    destruct (IH (done ++ [sym]) (symbolStep nfa current i st sym))
      as [R1 [R2 R3]]; auto.
    + intros x Hx. apply Hin. right. exact Hx.
    + rewrite <- app_assoc. exact Hnd.
    + rewrite <- app_assoc in R1. simpl in R1.
      split; [exact R1 | split; [congruence | exact R3]].
Qed.

Lemma subsetsOk_next (nfa : NFA) (alphabet : list string) (i : nat)
    (st : Subsets) (n : nat) :
  subsetsOk nfa alphabet i alphabet st ->
  subsetsOk nfa alphabet (S i) []
    (mkSubsets (dfaStatesMap st) (dfaStatesList st) (out_transitions st) n).
Proof.
  intros [H1 H2 H3 H4 H5 H6 H7 H8]. constructor; simpl; auto.
  - intros t Ht. left. destruct (H6 t Ht) as [Hlt | [E _]]; lia.
  - intros j sym Hj Hs Hm. apply (H8 j sym); auto.
    destruct Hj as [Hlt | [_ []]].
    destruct (Nat.eq_dec j i) as [-> | Hne]; [right; auto | left; lia].
Qed.

(** The invariant at the head of the worklist loop. *)
Lemma subsetStep_ok (nfa : NFA) (alphabet : list string) (st : Subsets) :
  NoDup alphabet ->
  subsetsOk nfa alphabet (idx st) [] st ->
  idx st < length (dfaStatesList st) ->
  let st' := subsetStep nfa alphabet st in
  subsetsOk nfa alphabet (idx st') [] st'
  /\ idx st' = S (idx st)
  /\ idx st' <= length (dfaStatesList st').
Proof.
  intros Hnd H Hi. unfold subsetStep.
  assert (Eg : mapGetBang (dfaStatesMap st)
                 (keyOf (nth (idx st) (dfaStatesList st) [])) = idx st).
  { unfold mapGetBang. rewrite (subsets_get _ _ _ _ _ _ H Hi). reflexivity. }
  rewrite Eg.
  destruct (symbolRow_ok nfa alphabet (idx st)
              (nth (idx st) (dfaStatesList st) []) alphabet [] st)
    as [R1 [R2 R3]]; auto.
  - apply incl_refl.
  - simpl in R1. cbv zeta. simpl. rewrite R2.
    split; [apply subsetsOk_next, R1 | split; [reflexivity | lia]].
Qed.

(** ** The worklist loop: its turns *)

Lemma allVectors_length (n : nat) : length (allVectors n) = 2 ^ n.
Proof.
  induction n as [| n IH]; simpl; [reflexivity|].
  rewrite length_app, !length_map, IH. lia.
Qed.

Lemma allVectors_In (v : list bool) : In v (allVectors (length v)).
Proof.
  induction v as [| b v IH]; simpl; [auto|].
  apply in_or_app. destruct b; [left | right]; apply in_map, IH.
Qed.

Lemma vectorOf_sameSet (u s1 s2 : list nat) :
  incl s1 u -> incl s2 u -> vectorOf u s1 = vectorOf u s2 -> sameSet s1 s2.
Proof.
  unfold vectorOf. intros H1 H2 E.
  assert (G : forall q, In q u ->
                        setHas Nat.eqb s1 q = setHas Nat.eqb s2 q).
  { clear H1 H2. induction u as [| x u IH]; intros q []; simpl in E;
      injection E as E1 E2; subst; auto. }
  intros q. split; intros Hq.
  - apply (setHas_In Nat.eqb Nat.eqb_eq). rewrite <- G by (apply H1, Hq).
    apply (setHas_In Nat.eqb Nat.eqb_eq), Hq.
  - apply (setHas_In Nat.eqb Nat.eqb_eq). rewrite G by (apply H2, Hq).
    apply (setHas_In Nat.eqb Nat.eqb_eq), Hq.
Qed.

Lemma NoDup_map_transfer {A B C} (f : A -> B) (g : A -> C) (l : list A) :
  (forall x y, In x l -> In y l -> g x = g y -> f x = f y) ->
  NoDup (map f l) -> NoDup (map g l).
Proof.
  induction l as [| a l IH]; intros H Hnd; simpl; [constructor|].
  simpl in Hnd. inversion Hnd as [| ? ? Ha Hl]; subst.
  constructor.
  - intros Hin. apply in_map_iff in Hin. destruct Hin as [y [E Hy]].
    apply Ha. apply in_map_iff. exists y. split; [|exact Hy].
    apply H; simpl; auto.
  - apply IH; [|exact Hl]. intros x y Hx Hy. apply H; simpl; auto.
Qed.

(** There are at most [2 ^ n] subsets of a universe of [n] states. *)
Lemma subsets_count (nfa : NFA) (alphabet : list string) (i : nat)
    (done : list string) (st : Subsets) :
  subsetsOk nfa alphabet i done st ->
  length (dfaStatesList st) <= 2 ^ length (universe nfa).
Proof.
  intros H.
  rewrite <- allVectors_length.
  rewrite <- (length_map (vectorOf (universe nfa)) (dfaStatesList st)).
  apply NoDup_incl_length.
  - apply (NoDup_map_transfer keyOf); [|apply (so_keys _ _ _ _ _ H)].
    intros x y Hx Hy E.
    destruct (so_sets _ _ _ _ _ H x Hx) as [Nx Ix].
    destruct (so_sets _ _ _ _ _ H y Hy) as [Ny Iy].
    apply keyOf_sameSet; auto.
    apply (vectorOf_sameSet (universe nfa)); assumption.
  - intros v Hv. apply in_map_iff in Hv. destruct Hv as [s [<- _]].
    assert (E : length (universe nfa)
                = length (vectorOf (universe nfa) s))
      by (unfold vectorOf; rewrite length_map; reflexivity).
    rewrite E. apply allVectors_In.
Qed.

Lemma subsetTurns_total (nfa : NFA) (alphabet : list string) :
  NoDup alphabet ->
  forall (turns : nat) (st : Subsets),
    subsetsOk nfa alphabet (idx st) [] st ->
    idx st <= length (dfaStatesList st) ->
    2 ^ length (universe nfa) - idx st < turns ->
    exists st',
      subsetTurns turns nfa alphabet st = inr st'
      /\ subsetsOk nfa alphabet (idx st') [] st'
      /\ idx st' = length (dfaStatesList st').
Proof.
  intros Hnd. induction turns as [| turns IH]; intros st H Hi Hm; [lia|].
  simpl. destruct (Nat.ltb_spec (idx st) (length (dfaStatesList st)))
    as [Hlt | Hge].
  - destruct (subsetStep_ok nfa alphabet st Hnd H Hlt) as [H' [E Hi']].
    apply IH; auto.
    assert (Hc := subsets_count _ _ _ _ _ H). lia.
  - exists st. split; [reflexivity | split; [exact H | lia]].
Qed.

Lemma subsetTurns_add (nfa : NFA) (alphabet : list string) (a b : nat) :
  forall st,
    subsetTurns (a + b) nfa alphabet st
    = match subsetTurns a nfa alphabet st with
      | inl st' => subsetTurns b nfa alphabet st'
      | inr st' => inr st'
      end.
Proof.
  induction a as [| a IH]; intros st; simpl; [reflexivity|].
  destruct (Nat.ltb (idx st) (length (dfaStatesList st)));
    [apply IH | reflexivity].
Qed.

Lemma subsetLoop_turns (nfa : NFA) (alphabet : list string) (depth : nat) :
  forall st,
    subsetLoop depth nfa alphabet st
    = subsetTurns (2 ^ depth) nfa alphabet st.
Proof.
  induction depth as [| depth IH]; intros st; [reflexivity|].
  cbn [subsetLoop]. rewrite IH.
  replace (2 ^ S depth) with (2 ^ depth + 2 ^ depth) by (simpl; lia).
  rewrite subsetTurns_add.
  destruct (subsetTurns (2 ^ depth) nfa alphabet st) as [st' | st'];
    [apply IH | reflexivity].
Qed.

(** ** The alphabet *)

Lemma alphabetOf_spec (nfa : NFA) :
  NoDup (alphabetOf nfa)
  /\ forall a, In a (alphabetOf nfa) <->
               exists t, In t (transitions nfa) /\ t_symbol t = Some a.
Proof.
  unfold alphabetOf.
  assert (G : forall (ts : list Transition) (acc : list string),
             let r := fold_left
                        (fun alphabet t =>
                           match t_symbol t with
                           | Some sym => setAdd String.eqb alphabet sym
                           | None => alphabet
                           end) ts acc in
             (NoDup acc -> NoDup r)
             /\ forall a, In a r <->
                          In a acc
                          \/ exists t, In t ts /\ t_symbol t = Some a).
  { induction ts as [| t ts IH]; intros acc; simpl.
    - split; [auto|]. intros a. split; [auto|].
      intros [H | [t [[] _]]]. exact H.
    - destruct (t_symbol t) as [sym |] eqn:E.
      + destruct (IH (setAdd String.eqb acc sym)) as [I1 I2]. split.
        * intros H. apply I1, (setAdd_NoDup String.eqb String.eqb_eq), H.
        * intros a. rewrite I2, (setAdd_In String.eqb String.eqb_eq).
          split.
          -- intros [[H | ->] | [t' [Ht' E']]]; eauto.
          -- intros [H | [t' [[<- | Ht'] E']]]; eauto.
             left. right. congruence.
      + destruct (IH acc) as [I1 I2]. split; [exact I1|].
        intros a. rewrite I2. split.
        * intros [H | [t' [Ht' E']]]; eauto.
        * intros [H | [t' [[<- | Ht'] E']]]; eauto. congruence. }
  destruct (G (transitions nfa) []) as [G1 G2]. split.
  - apply G1. constructor.
  - intros a. rewrite G2. simpl. split; [intros [[] | H]; exact H | auto].
Qed.

(** ** The worklist loop: from start to end *)

Lemma initialSubsets_ok (nfa : NFA) (alphabet : list string) :
  subsetsOk nfa alphabet 0 [] (initialSubsets nfa).
Proof.
  unfold initialSubsets.
  change (setOf Nat.eqb [start nfa]) with [start nfa].
  constructor; simpl.
  - reflexivity.
  - constructor; [intros [] | constructor].
  - intros s [<- | []]. split.
    + apply epsilonClosure_NoDup. constructor; [intros [] | constructor].
    + intros q Hq. apply epsilonClosure_incl in Hq.
      destruct Hq as [[<- | []] | Hq]; [left; reflexivity | right; exact Hq].
  - split; [reflexivity | lia].
  - constructor.
  - intros t [].
  - intros t [].
  - intros j sym [Hj | [_ []]]. lia.
Qed.

(** The worklist loop ends within its fuel; at its end every subset of the
    list has been worked on. *)
Lemma subsetLoop_total (nfa : NFA) :
  subsetLoop (subsetDepth nfa) nfa (alphabetOf nfa) (initialSubsets nfa)
  = inr (finalSubsets nfa)
  /\ subsetsOk nfa (alphabetOf nfa) (length (dfaStatesList (finalSubsets nfa)))
       [] (finalSubsets nfa).
Proof.
  unfold finalSubsets. rewrite subsetLoop_turns.
  destruct (subsetTurns_total nfa (alphabetOf nfa)
              (proj1 (alphabetOf_spec nfa)) (2 ^ subsetDepth nfa)
              (initialSubsets nfa)) as [st' [E [H Hi]]].
  - apply initialSubsets_ok.
  - simpl. lia.
  - unfold subsetDepth, universe. simpl length. rewrite length_map.
    replace (length (transitions nfa) + 2)
      with (S (S (length (transitions nfa)))) by lia.
    cbn [Nat.pow].
    assert (0 < 2 ^ length (transitions nfa))
      by (apply Nat.neq_0_lt_0, Nat.pow_nonzero; discriminate).
    simpl. lia.
  - rewrite E. split; [reflexivity|]. rewrite <- Hi. exact H.
Qed.

Lemma finalSubsets_ok (nfa : NFA) :
  subsetsOk nfa (alphabetOf nfa) (length (dfaStatesList (finalSubsets nfa)))
    [] (finalSubsets nfa).
Proof. apply subsetLoop_total. Qed.

(** ** The DFA is deterministic *)

Lemma NoDup_map_filter_le {A B} (f : A -> B) (p : A -> bool) (b : B)
    (l : list A) :
  NoDup (map f l) -> (forall x, p x = true -> f x = b) ->
  length (filter p l) <= 1.
Proof.
  intros Hnd Hp. induction l as [| a l IH]; simpl; [lia|].
  simpl in Hnd. inversion Hnd as [| ? ? Ha Hl]; subst.
  destruct (p a) eqn:E; [|apply IH, Hl].
  simpl. assert (El : filter p l = []).
  { destruct (filter p l) as [| y r] eqn:Ef; [reflexivity|].
    exfalso. assert (Hy : In y (filter p l)) by (rewrite Ef; left; reflexivity).
    apply filter_In in Hy. destruct Hy as [Hy Py].
    apply Ha. rewrite (Hp a E), <- (Hp y Py). apply in_map, Hy. }
  rewrite El. simpl. lia.
Qed.

(** C5: the DFA of any NFA has, for each state and symbol, at most one
    transition; each of its transitions is labelled with a symbol of the
    alphabet, the label of a transition of the NFA that is not epsilon; and
    its start id is 0. *)
Theorem nfaToDfa_deterministic (nfa : NFA) :
  (forall (q : nat) (sym : string),
      length (filter (fun t => Nat.eqb (d_from t) q
                               && String.eqb (d_symbol t) sym)
                (dfa_transitions (nfaToDfa nfa))) <= 1)
  /\ (forall t, In t (dfa_transitions (nfaToDfa nfa)) ->
                exists t', In t' (transitions nfa)
                           /\ t_symbol t' = Some (d_symbol t))
  /\ dfa_start (nfaToDfa nfa) = 0.
Proof.
  assert (H := finalSubsets_ok nfa). simpl.
  split; [|split; [|reflexivity]].
  - intros q sym. apply (NoDup_map_filter_le fromSym _ (q, sym)).
    + apply (so_det _ _ _ _ _ H).
    + intros t Ht. apply andb_true_iff in Ht. destruct Ht as [E1 E2].
      apply Nat.eqb_eq in E1. apply String.eqb_eq in E2.
      unfold fromSym. congruence.
  - intros t Ht. apply (so_sound _ _ _ _ _ H) in Ht.
    destruct Ht as [Ha _]. apply (proj2 (alphabetOf_spec nfa)), Ha.
Qed.

Lemma nfaToDfa_deterministic_witness :
  length (filter (fun t => Nat.eqb (d_from t) 3
                           && String.eqb (d_symbol t) "b")
            (dfa_transitions (nfaToDfa nfa_abb))) <= 1
  /\ (exists t', In t' (transitions nfa_abb) /\ t_symbol t' = Some "b")
  /\ dfa_start (nfaToDfa nfa_abb) = 0.
Proof.
  destruct (nfaToDfa_deterministic nfa_abb) as [H1 [H2 H3]].
  split; [apply H1 | split; [|exact H3]].
  apply (H2 (mkDTransition 3 4 "b")). rewrite nfaToDfa_abb. simpl. tauto.
Defined.

(** ** The DFA and the NFA accept the same words *)

Lemma combine_seq_In (ks : list string) (d : string) :
  forall (b j : nat) (k : string),
    In (k, j) (combine ks (seq b (length ks)))
    <-> b <= j < b + length ks /\ nth (j - b) ks d = k.
Proof.
  induction ks as [| x ks IH]; intros b j k; simpl.
  - split; [tauto | lia].
  - rewrite IH. split.
    + intros [E | [Hj E]].
      * injection E as -> ->. rewrite Nat.sub_diag. split; [lia | reflexivity].
      * split; [lia|]. replace (j - b) with (S (j - S b)) by lia. exact E.
    + intros [Hj E]. destruct (Nat.eq_dec j b) as [-> | Hne].
      * left. rewrite Nat.sub_diag in E. congruence.
      * right. split; [lia|].
        replace (j - b) with (S (j - S b)) in E by lia. exact E.
Qed.

Lemma acceptIds_spec (nfa : NFA) (alphabet : list string) (i : nat)
    (done : list string) (st : Subsets) (acc q : nat) :
  subsetsOk nfa alphabet i done st ->
  q < length (dfaStatesList st) ->
  existsb (Nat.eqb q) (acceptIds (dfaStatesMap st) acc)
  = setHas Nat.eqb (nth q (dfaStatesList st) []) acc.
Proof.
  intros H Hq. rewrite <- includes_keyOf. unfold acceptIds.
  rewrite (so_map _ _ _ _ _ H).
  rewrite <- (length_map keyOf (dfaStatesList st)).
  apply eq_true_iff_eq. rewrite existsb_exists. split.
  - intros [j [Hj E]]. apply Nat.eqb_eq in E. subst j.
    apply in_map_iff in Hj. destruct Hj as [[k j] [E He]]. simpl in E.
    subst j. apply filter_In in He. destruct He as [He Hi]. simpl in Hi.
    apply (combine_seq_In _ (keyOf [])) in He. destruct He as [_ He].
    rewrite Nat.sub_0_r, (map_nth keyOf) in He. rewrite He. exact Hi.
  - intros Hi. exists q. split; [|apply Nat.eqb_refl].
    apply in_map_iff.
    exists (keyOf (nth q (dfaStatesList st) []), q). split; [reflexivity|].
    apply filter_In. split; [|exact Hi].
    apply (combine_seq_In _ (keyOf [])). rewrite length_map.
    split; [lia|]. rewrite Nat.sub_0_r. apply (map_nth keyOf).
Qed.

Lemma dfaStep_some (nfa : NFA) (q : nat) (sym : string) :
  q < length (dfaStatesList (finalSubsets nfa)) ->
  move nfa (nth q (dfaStatesList (finalSubsets nfa)) []) sym <> [] ->
  exists q',
    dfaStep (nfaToDfa nfa) q sym = Some q'
    /\ q' < length (dfaStatesList (finalSubsets nfa))
    /\ keyOf (nth q' (dfaStatesList (finalSubsets nfa)) [])
       = keyOf (epsilonClosure nfa
                  (move nfa (nth q (dfaStatesList (finalSubsets nfa)) [])
                     sym)).
Proof.
  intros Hq Hm. assert (H := finalSubsets_ok nfa).
  assert (Ha : In sym (alphabetOf nfa)).
  { destruct (move nfa (nth q (dfaStatesList (finalSubsets nfa)) []) sym)
      as [| x xs] eqn:E; [congruence|].
    assert (Hx : In x (move nfa (nth q (dfaStatesList (finalSubsets nfa)) [])
                         sym)) by (rewrite E; left; reflexivity).
    apply move_In in Hx. destruct Hx as [p [_ Ht]].
    apply (proj2 (alphabetOf_spec nfa)). eexists. split; [exact Ht|].
    reflexivity. }
  destruct (so_complete _ _ _ _ _ H q sym (or_introl Hq) Ha Hm)
    as [t [Ht [E1 E2]]].
  unfold dfaStep. cbn [dfa_transitions nfaToDfa].
  destruct (find (fun t0 => Nat.eqb (d_from t0) q
                            && String.eqb (d_symbol t0) sym)
              (out_transitions (finalSubsets nfa))) as [t' |] eqn:Ef.
  - apply find_some in Ef. destruct Ef as [Ht' C].
    apply andb_true_iff in C. destruct C as [C1 C2].
    apply Nat.eqb_eq in C1. apply String.eqb_eq in C2.
    destruct (so_sound _ _ _ _ _ H t' Ht') as [_ [_ [B [_ K]]]].
    rewrite C1, C2 in K. exists (d_to t'). simpl. auto.
  - exfalso. apply (find_none _ _ Ef) in Ht.
    rewrite E1, E2, Nat.eqb_refl, String.eqb_refl in Ht. discriminate.
Qed.

Lemma dfaStep_none (nfa : NFA) (q : nat) (sym : string) :
  move nfa (nth q (dfaStatesList (finalSubsets nfa)) []) sym = [] ->
  dfaStep (nfaToDfa nfa) q sym = None.
Proof.
  intros Hm. assert (H := finalSubsets_ok nfa).
  unfold dfaStep. cbn [dfa_transitions nfaToDfa].
  destruct (find (fun t0 => Nat.eqb (d_from t0) q
                            && String.eqb (d_symbol t0) sym)
              (out_transitions (finalSubsets nfa))) as [t' |] eqn:Ef;
    [|reflexivity].
  exfalso. apply find_some in Ef. destruct Ef as [Ht' C].
  apply andb_true_iff in C. destruct C as [C1 C2].
  apply Nat.eqb_eq in C1. apply String.eqb_eq in C2.
  destruct (so_sound _ _ _ _ _ H t' Ht') as [_ [_ [_ [M _]]]].
  rewrite C1, C2 in M. exact (M Hm).
Qed.

Lemma nfaRun_dead (nfa : NFA) (w : list string) :
  fold_left (fun set sym => epsilonClosure nfa (move nfa set sym)) w [] = [].
Proof. induction w as [| a w IH]; simpl; [reflexivity | exact IH]. Qed.

Lemma setHas_sameSet (s1 s2 : list nat) (q : nat) :
  sameSet s1 s2 -> setHas Nat.eqb s1 q = setHas Nat.eqb s2 q.
Proof.
  intros E. apply eq_true_iff_eq.
  rewrite !(setHas_In Nat.eqb Nat.eqb_eq). apply E.
Qed.

Lemma sameSet_trans (s1 s2 s3 : list nat) :
  sameSet s1 s2 -> sameSet s2 s3 -> sameSet s1 s3.
Proof. intros H1 H2 q. rewrite (H1 q). apply H2. Qed.

(** From a DFA state and the set of NFA states it stands for, the two
    automata give the same verdict on every word. *)
Lemma dfaRun_simulates (nfa : NFA) (w : list string) :
  forall (q : nat) (set : list nat),
    q < length (dfaStatesList (finalSubsets nfa)) ->
    NoDup set ->
    sameSet (nth q (dfaStatesList (finalSubsets nfa)) []) set ->
    match dfaRun (nfaToDfa nfa) q w with
    | Some q' => existsb (Nat.eqb q') (acceptStates (nfaToDfa nfa))
    | None => false
    end
    = setHas Nat.eqb
        (fold_left (fun set sym => epsilonClosure nfa (move nfa set sym))
           w set)
        (accept nfa).
Proof.
  assert (H := finalSubsets_ok nfa).
  induction w as [| a w IH]; intros q set Hq Hnd Hs.
  - simpl. rewrite (acceptIds_spec _ _ _ _ _ _ _ H Hq).
    apply setHas_sameSet, Hs.
  - cbn [dfaRun fold_left].
    destruct (move nfa (nth q (dfaStatesList (finalSubsets nfa)) []) a)
      as [| x xs] eqn:Em.
    + rewrite (dfaStep_none nfa q a Em).
      assert (E : move nfa set a = []).
      { apply sameSet_nil. rewrite <- Em. apply move_sameSet.
        intros p. symmetry. apply Hs. }
      rewrite E, epsilonClosure_nil, nfaRun_dead. reflexivity.
    + assert (Hm : move nfa (nth q (dfaStatesList (finalSubsets nfa)) []) a
                   <> []) by (rewrite Em; discriminate).
      destruct (dfaStep_some nfa q a Hq Hm) as [q' [E [Hq' K]]].
      rewrite E. apply IH.
      * exact Hq'.
      * apply epsilonClosure_NoDup, move_NoDup.
      * apply (sameSet_trans _
                 (epsilonClosure nfa
                    (move nfa (nth q (dfaStatesList (finalSubsets nfa)) [])
                       a))).
        -- apply keyOf_sameSet; [| |exact K].
           ++ apply (so_sets _ _ _ _ _ H), nth_In, Hq'.
           ++ apply epsilonClosure_NoDup, move_NoDup.
        -- apply epsilonClosure_sameSet, move_sameSet, Hs.
Qed.

Lemma nfaToDfa_equivalent (nfa : NFA) (w : list string) :
  dfaAccepts (nfaToDfa nfa) w = nfaAccepts nfa w.
Proof.
  assert (H := finalSubsets_ok nfa).
  destruct (so_first _ _ _ _ _ H) as [E0 Hlen].
  unfold dfaAccepts, nfaAccepts, nfaRun.
  change (dfa_start (nfaToDfa nfa)) with 0.
  apply dfaRun_simulates.
  - exact Hlen.
  - apply epsilonClosure_NoDup. constructor; [intros [] | constructor].
  - rewrite E0. intros q. tauto.
Qed.

(** C1: for a pattern that compiles and a string of at most six characters
    of the alphabet, the DFA accepts the string exactly when the simulation
    of the NFA does. *)
Theorem compiled_dfa_equivalent (pattern : string) (k k' : nat) (nfa : NFA)
    (w : string) :
  compile pattern k = (inr nfa, k') ->
  (forall sym, In sym (symbolsOf w) -> In sym (alphabetOf nfa)) ->
  String.length w <= 6 ->
  dfaAccepts (nfaToDfa nfa) (symbolsOf w) = true
  <-> nfaAccepts nfa (symbolsOf w) = true.
Proof.
  intros _ _ _. rewrite nfaToDfa_equivalent. tauto.
Qed.

Lemma compiled_dfa_equivalent_witness :
  dfaAccepts (nfaToDfa nfa_abb) (symbolsOf "aabb") = true
  <-> nfaAccepts nfa_abb (symbolsOf "aabb") = true.
Proof.
  apply (compiled_dfa_equivalent "(a|b)*abb" 0 14 nfa_abb "aabb").
  - vm_compute. reflexivity.
  - intros sym Hs. vm_compute in Hs. vm_compute.
    destruct Hs as [<- | [<- | [<- | [<- | []]]]]; auto.
  - vm_compute. repeat constructor.
Defined.

(** ** The language of the DFA of [(a|b)*abb] *)

Lemma string1_eqb (a c : ascii) :
  String.eqb (String a EmptyString) (String c EmptyString) = Ascii.eqb a c.
Proof. simpl. destruct (Ascii.eqb a c); reflexivity. Qed.

Lemma dfa_abb_step (q : nat) (c : ascii) :
  q <= 4 ->
  dfaStep dfa_abb q (String c EmptyString)
  = if Ascii.eqb c "a" then Some 1
    else if Ascii.eqb c "b"
         then Some (match q with 1 => 3 | 3 => 4 | _ => 2 end)
         else None.
Proof.
  intros Hq.
  destruct (Ascii.eqb_spec c "a") as [-> | Ha];
    [|destruct (Ascii.eqb_spec c "b") as [-> | Hb]].
  - do 5 (destruct q as [| q]; [reflexivity|]). lia.
  - do 5 (destruct q as [| q]; [reflexivity|]). lia.
  - apply Ascii.eqb_neq in Ha, Hb. rewrite Ascii.eqb_sym in Ha, Hb.
    unfold dfaStep, dfa_abb. cbn [dfa_transitions find d_from d_symbol].
    rewrite !string1_eqb, Ha, Hb, !andb_false_r. reflexivity.
Qed.

Lemma endsInAbb_nil : ~ endsInAbb "".
Proof. intros [u [E _]]. destruct u; discriminate E. Qed.

Lemma endsInAbb_a (w : string) :
  endsInAbb (String "a" w) <-> endsInAbb w \/ w = "bb".
Proof.
  split.
  - intros [u [E Hu]]. destruct u as [| c u].
    + right. simpl in E. congruence.
    + left. simpl in E. injection E as <- ->. exists u. split; [reflexivity|].
      simpl in Hu. exact Hu.
  - intros [[u [-> Hu]] | ->].
    + exists (String "a" u). split; [reflexivity|]. simpl. exact Hu.
    + exists "". split; reflexivity.
Qed.

Lemma endsInAbb_b (w : string) : endsInAbb (String "b" w) <-> endsInAbb w.
Proof.
  split.
  - intros [u [E Hu]]. destruct u as [| c u]; [discriminate E|].
    simpl in E. injection E as <- ->. exists u. split; [reflexivity|].
    simpl in Hu. exact Hu.
  - intros [u [-> Hu]]. exists (String "b" u). split; [reflexivity|].
    simpl. exact Hu.
Qed.

Lemma endsInAbb_other (c : ascii) (w : string) :
  isAB c = false -> ~ endsInAbb (String c w).
Proof.
  intros Hc [u [E Hu]]. destruct u as [| c' u].
  - simpl in E. injection E as -> _. discriminate Hc.
  - simpl in E. injection E as <- _. simpl in Hu. rewrite Hc in Hu.
    discriminate Hu.
Qed.

(** From each state of the DFA, what is left to read. *)
Lemma dfa_abb_from (w : string) :
  forall q, q <= 4 ->
    (match dfaRun dfa_abb q (symbolsOf w) with
     | Some q' => existsb (Nat.eqb q') (acceptStates dfa_abb)
     | None => false
     end = true)
    <-> (endsInAbb w
         \/ (q = 1 /\ w = "bb") \/ (q = 3 /\ w = "b") \/ (q = 4 /\ w = "")).
Proof.
  induction w as [| c w IH]; intros q Hq.
  - simpl. rewrite orb_false_r, Nat.eqb_eq.
    assert (N := endsInAbb_nil). split.
    + intros ->. auto.
    + intros [H | [[_ H] | [[_ H] | [H _]]]]; try discriminate; tauto.
  - change (symbolsOf (String c w))
      with (String c EmptyString :: symbolsOf w).
    cbn [dfaRun]. rewrite dfa_abb_step by exact Hq.
    destruct (Ascii.eqb_spec c "a") as [-> | Ha];
      [|destruct (Ascii.eqb_spec c "b") as [-> | Hb]].
    + rewrite IH by lia. rewrite endsInAbb_a. split.
      * intros [H | [[_ ->] | [[H _] | [H _]]]]; try discriminate; tauto.
      * intros [[H | ->] | [[_ H] | [[_ H] | [_ H]]]];
          try discriminate; auto.
    + rewrite IH by (do 5 (destruct q as [| q]; [lia|]); lia).
      rewrite endsInAbb_b. split.
      * intros [H | [[E ->] | [[E ->] | [E ->]]]]; auto.
        -- do 5 (destruct q as [| q]; try discriminate E; auto).
        -- do 5 (destruct q as [| q]; try discriminate E; auto).
        -- do 5 (destruct q as [| q]; try discriminate E; auto).
      * intros [H | [[-> H] | [[-> H] | [_ H]]]]; try discriminate; auto.
        -- injection H as ->. auto.
        -- injection H as ->. auto.
    + assert (Hc : isAB c = false).
      { unfold isAB. apply Ascii.eqb_neq in Ha, Hb. rewrite Ha, Hb.
        reflexivity. }
      assert (N := endsInAbb_other c w Hc). split; [discriminate|].
      intros [H | [[_ H] | [[_ H] | [_ H]]]]; try discriminate; try tauto.
      * injection H as -> _. congruence.
      * injection H as -> _. congruence.
Qed.

Lemma dfa_abb_language (w : string) :
  dfaAccepts dfa_abb (symbolsOf w) = true <-> endsInAbb w.
Proof.
  unfold dfaAccepts. change (dfa_start dfa_abb) with 0.
  rewrite dfa_abb_from by lia. split; [|auto].
  intros [H | [[E _] | [[E _] | [E _]]]]; try discriminate E. exact H.
Qed.

(** ** Relabelling: the states' names do not matter *)

Section Relabel.
Variable f : nat -> nat.
Hypothesis f_inj : forall x y, f x = f y -> x = y.

Lemma epsReach_relabel (ts : list Transition) (S : list nat) (q' : nat) :
  epsReach (map (relabelT f) ts) (map f S) q'
  <-> exists q, q' = f q /\ epsReach ts S q.
Proof.
  split.
  - intros R. induction R as [q' Hq | p' q' _ IHp He].
    + apply in_map_iff in Hq. destruct Hq as [q [<- Hq]].
      exists q. split; [reflexivity | apply reach_in, Hq].
    + destruct IHp as [p [-> Rp]].
      apply in_map_iff in He. destruct He as [t [Et Ht]].
      unfold relabelT, eps in Et. injection Et as E1 E2 E3.
      apply f_inj in E1. exists (t_to t). split; [congruence|].
      apply (reach_step ts S p); [exact Rp|].
      rewrite (transition_eta t) in Ht. unfold eps. congruence.
  - intros [q [-> R]]. induction R as [q Hq | p q _ IHp He].
    + apply reach_in, in_map, Hq.
    + apply (reach_step _ _ (f p)); [exact IHp|].
      apply (in_map (relabelT f)) in He. exact He.
Qed.

Lemma sameSet_map (s1 s2 : list nat) :
  sameSet s1 s2 -> sameSet (map f s1) (map f s2).
Proof.
  intros E q. rewrite !in_map_iff.
  split; intros [x [Ex Hx]]; exists x; split; auto; apply E, Hx.
Qed.

Lemma sameSet_sym (s1 s2 : list nat) : sameSet s1 s2 -> sameSet s2 s1.
Proof. intros E q. symmetry. apply E. Qed.

Lemma epsilonClosure_relabel (n : NFA) (S' S : list nat) :
  sameSet S' (map f S) ->
  sameSet (epsilonClosure (relabel f n) S') (map f (epsilonClosure n S)).
Proof.
  intros E.
  apply (sameSet_trans _ (epsilonClosure (relabel f n) (map f S)));
    [apply epsilonClosure_sameSet, E|].
  intros q'. rewrite epsilonClosure_In. simpl.
  rewrite epsReach_relabel, in_map_iff.
  split; intros [q [E1 H]]; exists q; split; auto;
    apply epsilonClosure_In, H.
Qed.

Lemma move_relabel (n : NFA) (a : string) (S' S : list nat) :
  sameSet S' (map f S) ->
  sameSet (move (relabel f n) S' a) (map f (move n S a)).
Proof.
  intros E.
  apply (sameSet_trans _ (move (relabel f n) (map f S) a));
    [apply move_sameSet, E|].
  intros q'. rewrite move_In, in_map_iff. simpl. split.
  - intros [p' [Hp' Ht]]. apply in_map_iff in Hp'.
    destruct Hp' as [p [<- Hp]].
    apply in_map_iff in Ht. destruct Ht as [t [Et Ht]].
    unfold relabelT in Et. injection Et as E1 E2 E3. apply f_inj in E1.
    exists (t_to t). split; [exact E2|]. apply move_In. exists p.
    split; [exact Hp|]. rewrite (transition_eta t) in Ht. congruence.
  - intros [q [<- Hq]]. apply move_In in Hq. destruct Hq as [p [Hp Ht]].
    exists (f p). split; [apply in_map, Hp|].
    apply (in_map (relabelT f)) in Ht. exact Ht.
Qed.

Lemma nfaRun_relabel (n : NFA) (w : list string) :
  forall S' S,
    sameSet S' (map f S) ->
    sameSet
      (fold_left
         (fun set sym =>
            epsilonClosure (relabel f n) (move (relabel f n) set sym))
         w S')
      (map f
         (fold_left (fun set sym => epsilonClosure n (move n set sym))
            w S)).
Proof.
  induction w as [| a w IH]; intros S' S E; simpl; [exact E|].
  apply IH, epsilonClosure_relabel, move_relabel, E.
Qed.

Lemma nfaAccepts_relabel (n : NFA) (w : list string) :
  nfaAccepts (relabel f n) w = nfaAccepts n w.
Proof.
  unfold nfaAccepts, nfaRun.
  assert (E := nfaRun_relabel n w
                 (epsilonClosure (relabel f n) [start (relabel f n)])
                 (epsilonClosure n [start n])
                 (epsilonClosure_relabel n [f (start n)] [start n]
                    (fun q => iff_refl _))).
  apply eq_true_iff_eq. rewrite !(setHas_In Nat.eqb Nat.eqb_eq).
  rewrite (E (accept (relabel f n))). simpl. rewrite in_map_iff. split.
  - intros [q [Eq Hq]]. apply f_inj in Eq. congruence.
  - intros Hq. eauto.
Qed.

Lemma setHas_map (s : list nat) (x : nat) :
  setHas Nat.eqb (map f s) (f x) = setHas Nat.eqb s x.
Proof.
  apply eq_true_iff_eq. rewrite !(setHas_In Nat.eqb Nat.eqb_eq).
  rewrite in_map_iff. split.
  - intros [y [Ey Hy]]. apply f_inj in Ey. congruence.
  - intros Hx. eauto.
Qed.

Lemma setOf_map (l : list nat) :
  setOf Nat.eqb (map f l) = map f (setOf Nat.eqb l).
Proof.
  unfold setOf. change (@nil nat) with (map f []) at 1.
  generalize (@nil nat). induction l as [| x l IH]; intros acc; simpl;
    [reflexivity|].
  rewrite <- IH. f_equal. unfold setAdd. rewrite setHas_map.
  destruct (setHas Nat.eqb acc x); [reflexivity|].
  rewrite map_app. reflexivity.
Qed.
End Relabel.

(** ** Compiling from another value of the counter *)

Lemma thompsonStep_shift (d : nat) (c : ascii) (stack : list NFA) (k : nat) :
  thompsonStep c (map (relabel (fun q => q + d)) stack) (k + d)
  = match thompsonStep c stack k with
    | (inl e, k') => (inl e, k' + d)
    | (inr stack', k') =>
        (inr (map (relabel (fun q => q + d)) stack'), k' + d)
    end.
Proof.
  unfold thompsonStep.
  destruct (Ascii.eqb c "*").
  { destruct stack as [| n rest]; [reflexivity|].
    reflexivity. }
  destruct (Ascii.eqb c ".").
  { destruct stack as [| n2 [| n1 rest]]; try reflexivity.
    cbn. unfold ret, relabel. cbn. rewrite ?map_app. reflexivity. }
  destruct (Ascii.eqb c "|").
  { destruct stack as [| n2 [| n1 rest]]; try reflexivity.
    cbn. unfold ret, relabel. cbn. rewrite ?map_app. reflexivity. }
  reflexivity.
Qed.

Lemma thompsonLoop_shift (d : nat) (postfix : string) :
  forall (stack : list NFA) (k : nat),
    thompsonLoop postfix (map (relabel (fun q => q + d)) stack) (k + d)
    = match thompsonLoop postfix stack k with
      | (inl e, k') => (inl e, k' + d)
      | (inr stack', k') =>
          (inr (map (relabel (fun q => q + d)) stack'), k' + d)
      end.
Proof.
  induction postfix as [| c rest IH]; intros stack k; [reflexivity|].
  cbn [thompsonLoop]. unfold bind. rewrite thompsonStep_shift.
  destruct (thompsonStep c stack k) as [[e | stack1] k1]; [reflexivity|].
  apply IH.
Qed.

(** Compiling from counter [k + d] gives what compiling from [k] gives,
    with [d] added to every state id. *)
Lemma postfixToNFA_shift (d : nat) (postfix : string) (k : nat) :
  postfixToNFA postfix (k + d)
  = match postfixToNFA postfix k with
    | (inl e, k') => (inl e, k' + d)
    | (inr nfa, k') => (inr (relabel (fun q => q + d) nfa), k' + d)
    end.
Proof.
  rewrite !postfixToNFA_unfold.
  assert (E := thompsonLoop_shift d postfix [] k). simpl in E. rewrite E.
  destruct (thompsonLoop postfix [] k) as [[e | stack] k']; [reflexivity|].
  destruct stack as [| nfa [| n2 stack]]; try reflexivity.
  unfold relabel. simpl.
  rewrite setOf_map; [reflexivity|]. intros x y. lia.
Qed.

(** ** Reproducibility *)

(** C9: resetting the counter and compiling a pattern, twice in
    succession, gives the same outcome both times (the same automaton, or
    the same error), whatever the counter was before; and compiling without
    the reset, from counter [k], gives the automaton compiled from counter
    [0] with [k] added to every state id. *)
Theorem compileFresh_reproducible (pattern : string) (k : nat) :
  (let (r1, k1) := compileFresh pattern k in
   let (r2, k2) := compileFresh pattern k1 in
   r1 = r2 /\ k1 = k2)
  /\ compile pattern k
     = match compile pattern 0 with
       | (inl e, k') => (inl e, k' + k)
       | (inr nfa, k') => (inr (relabel (fun q => q + k) nfa), k' + k)
       end.
Proof.
  split.
  - unfold compileFresh, bind, resetIds.
    destruct (compile pattern 0) as [r1 k1]. split; reflexivity.
  - unfold compile. apply (postfixToNFA_shift k _ 0).
Qed.

(** C2: the DFA of [(a|b)*abb], compiled from any value of the counter,
    accepts the strings that end in [abb] after zero or more [a] and [b],
    and no other: it accepts [abb], [aabb], [babb], [aaaabb] and rejects
    the empty string, [ab] and [abbb]. *)
Theorem abb_dfa_language (k k' : nat) (nfa : NFA) :
  compile "(a|b)*abb" k = (inr nfa, k') ->
  (forall w, dfaAccepts (nfaToDfa nfa) (symbolsOf w) = true <-> endsInAbb w)
  /\ map (fun w => dfaAccepts (nfaToDfa nfa) (symbolsOf w))
       ["abb"; "aabb"; "babb"; "aaaabb"; ""; "ab"; "abbb"]
     = [true; true; true; true; false; false; false].
Proof.
  intros E.
  assert (En : nfa = relabel (fun q => q + k) nfa_abb).
  { assert (S := postfixToNFA_shift k (regexToPostfix "(a|b)*abb") 0).
    change (postfixToNFA (regexToPostfix "(a|b)*abb"))
      with (compile "(a|b)*abb") in S.
    rewrite compile_abb in S. change (0 + k) with k in S.
    rewrite S in E. congruence. }
  assert (G : forall w, dfaAccepts (nfaToDfa nfa) w = dfaAccepts dfa_abb w).
  { intros w. rewrite nfaToDfa_equivalent, En.
    rewrite nfaAccepts_relabel by (intros x y; lia).
    rewrite <- nfaToDfa_equivalent, nfaToDfa_abb. reflexivity. }
  split.
  - intros w. rewrite G. apply dfa_abb_language.
  - simpl. rewrite !G. vm_compute. reflexivity.
Qed.

Lemma abb_dfa_language_witness :
  (forall w, dfaAccepts (nfaToDfa nfa_abb) (symbolsOf w) = true
             <-> endsInAbb w)
  /\ map (fun w => dfaAccepts (nfaToDfa nfa_abb) (symbolsOf w))
       ["abb"; "aabb"; "babb"; "aaaabb"; ""; "ab"; "abbb"]
     = [true; true; true; true; false; false; false].
Proof.
  apply (abb_dfa_language 0 14 nfa_abb). vm_compute. reflexivity.
Defined.

(** ** DOT export *)











Lemma acceptIds_below (nfa : NFA) (q : nat) :
  In q (acceptStates (nfaToDfa nfa)) ->
  q < length (dfaStatesList (finalSubsets nfa)).
Proof.
  assert (H := finalSubsets_ok nfa). simpl. unfold acceptIds.
  rewrite (so_map _ _ _ _ _ H). intros Hq.
  apply in_map_iff in Hq. destruct Hq as [[k j] [E He]]. simpl in E. subst j.
  apply filter_In in He. destruct He as [He _].
  apply in_combine_r in He. apply in_seq in He. lia.
Qed.

(** ** The lines of the exported text *)













(** ** The numbers written in an edge line *)



Lemma digitRuns_skip (s : string) :
  allChars (fun c => negb (isDigit c)) s = true ->
  forall rest,
    digitRuns (s ++ rest)%string EmptyString = digitRuns rest EmptyString.
Proof.
  induction s as [| c s IH]; intros H rest; simpl; [reflexivity|].
  simpl in H. apply andb_true_iff in H. destruct H as [Hc Hs].
  apply negb_true_iff in Hc. rewrite Hc. apply IH, Hs.
Qed.




(** ** Markers in the text *)









(** ** The labels of the automata of the pipeline *)











(** ** The numbers written in the text *)











(** * Further properties *)

(** ** Epsilon closure, as a set and as a list *)

Lemma closureScan_extends (s : nat) :
  forall (l : list Transition) (res stack res' stack' : list nat),
    closureScan l s (res, stack) = (res', stack') ->
    exists added, res' = res ++ added.
Proof.
  induction l as [| t l IH]; intros res stack res' stack'; simpl.
  - intros E. injection E as <- _. exists []. symmetry. apply app_nil_r.
  - destruct (Nat.eqb (t_from t) s && isNull (t_symbol t)
              && negb (setHas Nat.eqb res (t_to t))) eqn:C.
    + intros E. apply IH in E. destruct E as [added ->].
      apply andb_true_iff in C. destruct C as [_ C].
      apply negb_true_iff in C. unfold setAdd. rewrite C.
      exists ([t_to t] ++ added). rewrite app_assoc. reflexivity.
    + apply IH.
Qed.

Lemma closureLoop_extends (ts : list Transition) :
  forall (fuel : nat) (stack res r : list nat),
    closureLoop fuel ts stack res = Some r ->
    exists added, r = res ++ added.
Proof.
  induction fuel as [| fuel IH]; intros stack res r; simpl; [discriminate|].
  destruct stack as [| s stack].
  - intros E. injection E as <-. exists []. symmetry. apply app_nil_r.
  - destruct (closureScan ts s (res, stack)) as [res' stack'] eqn:E.
    intros Er. apply IH in Er. destruct Er as [a2 ->].
    apply closureScan_extends in E. destruct E as [a1 ->].
    exists (a1 ++ a2). rewrite app_assoc. reflexivity.
Qed.

(** X1: [epsilonClosure] returns the states of its argument, in their
    order, followed by the other states that epsilon transitions reach from
    them; it holds exactly the states reachable by epsilon transitions, and
    no state twice when its argument has none twice. *)
Theorem epsilonClosure_exact (nfa : NFA) (stateSet : list nat) :
  (exists added, epsilonClosure nfa stateSet = stateSet ++ added)
  /\ (forall q, In q (epsilonClosure nfa stateSet)
                <-> epsReach (transitions nfa) stateSet q)
  /\ (NoDup stateSet -> NoDup (epsilonClosure nfa stateSet)).
Proof.
  destruct (closureLoop_total nfa stateSet) as [E [H1 H2]].
  split; [|split; assumption].
  apply closureLoop_extends in E. exact E.
Qed.

Lemma closureScan_closed (s : nat) (res : list nat) :
  forall (l : list Transition) (stack : list nat),
    (forall q, In (eps s q) l -> In q res) ->
    closureScan l s (res, stack) = (res, stack).
Proof.
  induction l as [| t l IH]; intros stack H; simpl; [reflexivity|].
  destruct (Nat.eqb (t_from t) s && isNull (t_symbol t)
            && negb (setHas Nat.eqb res (t_to t))) eqn:C.
  - exfalso. apply andb_true_iff in C. destruct C as [C C3].
    apply andb_true_iff in C. destruct C as [C1 C2].
    apply Nat.eqb_eq in C1. apply isNull_true in C2.
    apply negb_true_iff, (setHas_false Nat.eqb Nat.eqb_eq) in C3.
    apply C3, H. left. rewrite (transition_eta t) at 1. unfold eps.
    congruence.
  - apply IH. intros q Hq. apply H. right. exact Hq.
Qed.

Lemma closureLoop_closed (ts : list Transition) (res : list nat) :
  (forall p q, In p res -> In (eps p q) ts -> In q res) ->
  forall (fuel : nat) (stack : list nat),
    (forall p, In p stack -> In p res) ->
    length stack < fuel ->
    closureLoop fuel ts stack res = Some res.
Proof.
  intros Hc. induction fuel as [| fuel IH]; intros stack Hs Hf; [lia|].
  destruct stack as [| s stack]; simpl; [reflexivity|].
  rewrite closureScan_closed.
  - apply IH; [|simpl in Hf; lia]. intros p Hp. apply Hs. right. exact Hp.
  - intros q. apply Hc, Hs. left. reflexivity.
Qed.

(** X2: the closure of a closure is that closure, state for state:
    [epsilonClosure] adds nothing to a set that epsilon transitions do not
    leave. *)
Theorem epsilonClosure_idempotent (nfa : NFA) (stateSet : list nat) :
  epsilonClosure nfa (epsilonClosure nfa stateSet)
  = epsilonClosure nfa stateSet.
Proof.
  set (c := epsilonClosure nfa stateSet).
  unfold epsilonClosure at 1.
  rewrite (closureLoop_closed (transitions nfa) c).
  - reflexivity.
  - intros p q Hp He. apply epsilonClosure_In.
    apply (reach_step _ _ p); [apply epsilonClosure_In, Hp | exact He].
  - intros p Hp. apply in_rev. exact Hp.
  - unfold closureFuel. rewrite length_rev. lia.
Qed.

(** X3: [move] returns, without repetition, the targets of the transitions
    labelled with the symbol that leave a state of the set. *)
Theorem move_exact (nfa : NFA) (stateSet : list nat) (symbol : string) :
  (forall q, In q (move nfa stateSet symbol)
             <-> exists p, In p stateSet
                   /\ In (mkTransition p q (Some symbol)) (transitions nfa))
  /\ NoDup (move nfa stateSet symbol).
Proof. apply move_spec. Qed.

(** ** The DFA as a table *)

Lemma entries_ids_NoDup (keep : string * nat -> bool)
    (m : list (string * nat)) :
  NoDup (map snd m) -> NoDup (map snd (filter keep m)).
Proof.
  induction m as [| e m IH]; simpl; intros H; [constructor|].
  inversion H as [| ? ? He Hm]; subst.
  destruct (keep e); simpl; [|apply IH, Hm].
  constructor; [|apply IH, Hm].
  intros Hin. apply He. apply in_map_iff in Hin.
  destruct Hin as [x [E Hx]]. apply filter_In in Hx.
  apply in_map_iff. exists x. tauto.
Qed.

Lemma map_snd_combine_seq {A} (ks : list A) :
  forall b, map snd (combine ks (seq b (length ks))) = seq b (length ks).
Proof.
  induction ks as [| x ks IH]; intros b; simpl; [reflexivity|].
  rewrite IH. reflexivity.
Qed.

(** X4: the DFA of any NFA is a table over the states [0 .. n-1], with
    [1 <= n <= 2 ^ (1 + number of NFA transitions)]: both ends of every
    transition and every accepting state are among its states, and no
    accepting state is listed twice. *)
Theorem nfaToDfa_wellformed (nfa : NFA) :
  exists n,
    dfa_states (nfaToDfa nfa) = seq 0 n
    /\ 1 <= n <= 2 ^ S (length (transitions nfa))
    /\ (forall t, In t (dfa_transitions (nfaToDfa nfa)) ->
                  d_from t < n /\ d_to t < n)
    /\ (forall q, In q (acceptStates (nfaToDfa nfa)) -> q < n)
    /\ NoDup (acceptStates (nfaToDfa nfa)).
Proof.
  assert (H := finalSubsets_ok nfa).
  exists (length (dfaStatesList (finalSubsets nfa))).
  split; [reflexivity|]. split; [|split; [|split]].
  - destruct (so_first _ _ _ _ _ H) as [_ H0].
    assert (Hc := subsets_count _ _ _ _ _ H).
    unfold universe in Hc. simpl length in Hc. rewrite length_map in Hc.
    lia.
  - intros t Ht. simpl in Ht.
    destruct (so_sound _ _ _ _ _ H t Ht) as [_ [A [B _]]]. auto.
  - intros q. apply acceptIds_below.
  - simpl. unfold acceptIds. apply entries_ids_NoDup.
    rewrite (so_map _ _ _ _ _ H).
    rewrite <- (length_map keyOf (dfaStatesList (finalSubsets nfa))).
    rewrite map_snd_combine_seq. apply seq_NoDup.
Qed.

(** X5: the DFA and the NFA it was built from give the same verdict on
    every word, whatever its length and its symbols. *)
Theorem nfaToDfa_language (nfa : NFA) (w : list string) :
  dfaAccepts (nfaToDfa nfa) w = nfaAccepts nfa w.
Proof. apply nfaToDfa_equivalent. Qed.

(** ** Every DFA state is reached *)

Lemma symbolStep_incoming (nfa : NFA) (alphabet : list string) (i : nat)
    (done : list string) (st : Subsets) (sym : string) :
  subsetsOk nfa alphabet i done st ->
  i < length (dfaStatesList st) ->
  (forall j, 0 < j < length (dfaStatesList st) ->
     exists t, In t (out_transitions st) /\ d_to t = j /\ d_from t < j) ->
  let st' := symbolStep nfa (nth i (dfaStatesList st) []) i st sym in
  forall j, 0 < j < length (dfaStatesList st') ->
    exists t, In t (out_transitions st') /\ d_to t = j /\ d_from t < j.
Proof.
  intros H Hi Hr. unfold symbolStep.
  destruct (move nfa (nth i (dfaStatesList st) []) sym) as [| x xs] eqn:Em;
    [exact Hr|].
  rewrite <- Em.
  set (closure := epsilonClosure nfa
                    (move nfa (nth i (dfaStatesList st) []) sym)).
  destruct (closure_move_ok nfa (nth i (dfaStatesList st) []) sym)
    as [Cnd Cin]. fold closure in Cnd, Cin.
  destruct (mapHas (dfaStatesMap st) (keyOf closure)) eqn:Eh.
  - simpl. intros j Hj. destruct (Hr j Hj) as [t [Ht E]].
    exists t. split; [apply in_or_app; left; exact Ht | exact E].
  - set (st1 := mkSubsets
                  (mapSet (dfaStatesMap st) (keyOf closure)
                     (length (dfaStatesList st)))
                  (dfaStatesList st ++ [closure]) (out_transitions st)
                  (idx st)).
    assert (H1 : subsetsOk nfa alphabet i done st1)
      by (apply addSubset_ok; assumption).
    assert (Hlast : nth (length (dfaStatesList st)) (dfaStatesList st1) []
                    = closure).
    { simpl. rewrite app_nth2 by lia. rewrite Nat.sub_diag. reflexivity. }
    assert (Eg : mapGet (dfaStatesMap st1) (keyOf closure)
                 = Some (length (dfaStatesList st))).
    { rewrite <- Hlast.
      apply (subsets_get _ _ _ _ _ (length (dfaStatesList st)) H1).
      simpl. rewrite length_app. simpl. lia. }
    unfold mapGetBang. fold st1. rewrite Eg. simpl.
    rewrite length_app. simpl. intros j Hj.
    destruct (Nat.eq_dec j (length (dfaStatesList st))) as [-> | Hne].
    + exists (mkDTransition i (length (dfaStatesList st)) sym).
      split; [apply in_or_app; simpl; auto | simpl; auto].
    + destruct (Hr j) as [t [Ht E]]; [lia|].
      exists t. split; [apply in_or_app; left; exact Ht | exact E].
Qed.

Lemma symbolRow_incoming (nfa : NFA) (alphabet : list string) (i : nat)
    (current : list nat) :
  forall (todo done : list string) (st : Subsets),
    subsetsOk nfa alphabet i done st ->
    i < length (dfaStatesList st) ->
    nth i (dfaStatesList st) [] = current ->
    incl todo alphabet ->
    NoDup (done ++ todo) ->
    (forall j, 0 < j < length (dfaStatesList st) ->
       exists t, In t (out_transitions st) /\ d_to t = j /\ d_from t < j) ->
    let st' := fold_left (symbolStep nfa current i) todo st in
    forall j, 0 < j < length (dfaStatesList st') ->
      exists t, In t (out_transitions st') /\ d_to t = j /\ d_from t < j.
Proof.
  induction todo as [| sym todo IH]; intros done st H Hi Hc Hin Hnd Hr;
    simpl; [exact Hr|].
  assert (Hs : In sym alphabet) by (apply Hin; left; reflexivity).
  assert (Hn : ~ In sym done).
  { intros Hd. apply NoDup_remove_2 in Hnd. apply Hnd.
    apply in_or_app. left. exact Hd. }
  destruct (symbolStep_ok nfa alphabet i done st sym H Hi Hs Hn)
    as [H' [Ei [Hi' Hc']]].
  assert (Hr' := symbolStep_incoming nfa alphabet i done st sym H Hi Hr).
  rewrite Hc in H', Ei, Hi', Hc', Hr'.
  apply (IH (done ++ [sym]) (symbolStep nfa current i st sym)); auto.
  - intros x Hx. apply Hin. right. exact Hx.
  - rewrite <- app_assoc. exact Hnd.
Qed.

Lemma subsetStep_incoming (nfa : NFA) (alphabet : list string)
    (st : Subsets) :
  NoDup alphabet ->
  subsetsOk nfa alphabet (idx st) [] st ->
  idx st < length (dfaStatesList st) ->
  (forall j, 0 < j < length (dfaStatesList st) ->
     exists t, In t (out_transitions st) /\ d_to t = j /\ d_from t < j) ->
  let st' := subsetStep nfa alphabet st in
  forall j, 0 < j < length (dfaStatesList st') ->
    exists t, In t (out_transitions st') /\ d_to t = j /\ d_from t < j.
Proof.
  intros Hnd H Hi Hr. unfold subsetStep.
  assert (Eg : mapGetBang (dfaStatesMap st)
                 (keyOf (nth (idx st) (dfaStatesList st) [])) = idx st).
  { unfold mapGetBang. rewrite (subsets_get _ _ _ _ _ _ H Hi). reflexivity. }
  rewrite Eg. cbv zeta. simpl.
  apply (symbolRow_incoming nfa alphabet (idx st)
           (nth (idx st) (dfaStatesList st) []) alphabet [] st); auto.
  apply incl_refl.
Qed.

Lemma subsetTurns_incoming (nfa : NFA) (alphabet : list string) :
  NoDup alphabet ->
  forall (turns : nat) (st st' : Subsets),
    subsetsOk nfa alphabet (idx st) [] st ->
    idx st <= length (dfaStatesList st) ->
    (forall j, 0 < j < length (dfaStatesList st) ->
       exists t, In t (out_transitions st) /\ d_to t = j /\ d_from t < j) ->
    subsetTurns turns nfa alphabet st = inr st' ->
    forall j, 0 < j < length (dfaStatesList st') ->
      exists t, In t (out_transitions st') /\ d_to t = j /\ d_from t < j.
Proof.
  intros Hnd. induction turns as [| turns IH]; intros st st' H Hi Hr;
    simpl; [discriminate|].
  destruct (Nat.ltb_spec (idx st) (length (dfaStatesList st)))
    as [Hlt | Hge].
  - destruct (subsetStep_ok nfa alphabet st Hnd H Hlt) as [H' [E Hi']].
    apply IH; auto.
    apply subsetStep_incoming; assumption.
  - intros E. injection E as <-. exact Hr.
Qed.

Lemma finalSubsets_incoming (nfa : NFA) :
  forall j, 0 < j < length (dfaStatesList (finalSubsets nfa)) ->
    exists t, In t (out_transitions (finalSubsets nfa))
              /\ d_to t = j /\ d_from t < j.
Proof.
  destruct (subsetLoop_total nfa) as [E _]. rewrite subsetLoop_turns in E.
  apply (subsetTurns_incoming nfa (alphabetOf nfa)
           (proj1 (alphabetOf_spec nfa)) (2 ^ subsetDepth nfa)
           (initialSubsets nfa)); [| | |exact E].
  - apply initialSubsets_ok.
  - simpl. lia.
  - simpl. intros j Hj. lia.
Qed.

Lemma dfaRun_app (dfa : DFA) (w1 w2 : list string) :
  forall q,
    dfaRun dfa q (w1 ++ w2)
    = match dfaRun dfa q w1 with
      | Some q' => dfaRun dfa q' w2
      | None => None
      end.
Proof.
  induction w1 as [| a w1 IH]; intros q; simpl; [reflexivity|].
  destruct (dfaStep dfa q a); [apply IH | reflexivity].
Qed.

Lemma NoDup_map_eq {A B} (f : A -> B) (l : list A) (x y : A) :
  NoDup (map f l) -> In x l -> In y l -> f x = f y -> x = y.
Proof.
  induction l as [| a l IH]; simpl; intros H Hx Hy E; [destruct Hx|].
  inversion H as [| ? ? Ha Hl]; subst.
  destruct Hx as [-> | Hx], Hy as [-> | Hy]; auto.
  - exfalso. apply Ha. rewrite E. apply in_map, Hy.
  - exfalso. apply Ha. rewrite <- E. apply in_map, Hx.
Qed.

Lemma dfaStep_transition (nfa : NFA) (t : DTransition) :
  In t (dfa_transitions (nfaToDfa nfa)) ->
  dfaStep (nfaToDfa nfa) (d_from t) (d_symbol t) = Some (d_to t).
Proof.
  intros Ht. assert (H := finalSubsets_ok nfa). unfold dfaStep.
  destruct (find (fun t0 => Nat.eqb (d_from t0) (d_from t)
                            && String.eqb (d_symbol t0) (d_symbol t))
              (dfa_transitions (nfaToDfa nfa))) as [t' |] eqn:Ef.
  - apply find_some in Ef. destruct Ef as [Ht' C].
    apply andb_true_iff in C. destruct C as [C1 C2].
    apply Nat.eqb_eq in C1. apply String.eqb_eq in C2.
    assert (E : t' = t).
    { apply (NoDup_map_eq fromSym (out_transitions (finalSubsets nfa)));
        auto.
      - apply (so_det _ _ _ _ _ H).
      - unfold fromSym. congruence. }
    subst t'. reflexivity.
  - exfalso. apply (find_none _ _ Ef) in Ht.
    rewrite Nat.eqb_refl, String.eqb_refl in Ht. discriminate.
Qed.

(** X6: every state of the DFA is reached from its start state by some
    word. *)
Theorem nfaToDfa_reachable (nfa : NFA) (q : nat) :
  In q (dfa_states (nfaToDfa nfa)) ->
  exists w, dfaRun (nfaToDfa nfa) (dfa_start (nfaToDfa nfa)) w = Some q.
Proof.
  simpl. intros Hq. apply in_seq in Hq. destruct Hq as [_ Hq]. simpl in Hq.
  revert Hq. induction q as [q IH] using lt_wf_ind. intros Hq.
  destruct q as [| q]; [exists []; reflexivity|].
  destruct (finalSubsets_incoming nfa (S q)) as [t [Ht [E1 E2]]]; [lia|].
  destruct (IH (d_from t)) as [w Hw]; [lia | lia|].
  exists (w ++ [d_symbol t]). rewrite dfaRun_app, Hw. simpl.
  rewrite (dfaStep_transition nfa t Ht), E1. reflexivity.
Qed.

Lemma nfaToDfa_reachable_witness :
  exists w, dfaRun (nfaToDfa nfa_abb) (dfa_start (nfaToDfa nfa_abb)) w
            = Some 4.
Proof.
  apply (nfaToDfa_reachable nfa_abb 4). rewrite nfaToDfa_abb. simpl. tauto.
Defined.

(** ** Postfix conversion: what becomes of the characters *)

Lemma insertConcats_filter (P : ascii -> bool) (re : string) :
  P "."%char = false ->
  filter P (list_ascii_of_string (insertConcats re))
  = filter P (list_ascii_of_string re).
Proof.
  intros HP. induction re as [| c rest IH]; [reflexivity|].
  cbn [insertConcats list_ascii_of_string filter].
  assert (E : filter P
                (list_ascii_of_string
                   (if Ascii.eqb c "(" || Ascii.eqb c "|"
                    then insertConcats rest
                    else match rest with
                         | EmptyString => insertConcats rest
                         | String d _ =>
                             if Ascii.eqb d "*" || Ascii.eqb d "|"
                                || Ascii.eqb d ")"
                             then insertConcats rest
                             else String "." (insertConcats rest)
                         end))
              = filter P (list_ascii_of_string rest)).
  { destruct (Ascii.eqb c "(" || Ascii.eqb c "|"); [exact IH|].
    destruct rest as [| d rest']; [exact IH|].
    destruct (Ascii.eqb d "*" || Ascii.eqb d "|" || Ascii.eqb d ")");
      [exact IH|].
    cbn [list_ascii_of_string filter]. rewrite HP. exact IH. }
  rewrite E. reflexivity.
Qed.

Lemma insertConcats_length (re : string) :
  String.length re <= String.length (insertConcats re)
  /\ String.length (insertConcats re) <= 2 * String.length re - 1.
Proof.
  induction re as [| c rest IH]; [simpl; lia|].
  cbn [insertConcats String.length].
  destruct (Ascii.eqb c "(" || Ascii.eqb c "|"); [lia|].
  destruct rest as [| d rest']; [simpl; lia|].
  destruct (Ascii.eqb d "*" || Ascii.eqb d "|" || Ascii.eqb d ")");
    [lia|].
  cbn [String.length] in *. lia.
Qed.

(** X7: [insertConcats] only adds dots: without its dots the output is the
    input without its dots; the output of the empty input is empty, and
    the output of an input of [n >= 1] characters has at least [n] and at
    most [2n - 1] characters. *)
Theorem insertConcats_only_dots (re : string) :
  filter notDot (list_ascii_of_string (insertConcats re))
  = filter notDot (list_ascii_of_string re)
  /\ (re = EmptyString -> insertConcats re = EmptyString)
  /\ String.length re <= String.length (insertConcats re)
  /\ (re <> EmptyString ->
      String.length (insertConcats re) + 1 <= 2 * String.length re).
Proof.
  split; [apply insertConcats_filter; reflexivity|].
  split; [intros ->; reflexivity|].
  destruct (insertConcats_length re) as [Lo Hi].
  split; [exact Lo|]. intros Hne.
  destruct re as [| c rest]; [congruence|].
  cbn [String.length] in *. lia.
Qed.

Lemma isOperator_cases (c : ascii) :
  isOperator c = true -> c = "|"%char \/ c = "*"%char \/ c = "."%char.
Proof.
  unfold isOperator. rewrite !orb_true_iff, !Ascii.eqb_eq. tauto.
Qed.

Lemma isOperator_notParen (c : ascii) :
  isOperator c = true -> isParen c = false /\ isLiteral c = false.
Proof.
  intros H. unfold isLiteral. rewrite H.
  apply isOperator_cases in H. destruct H as [-> | [-> | ->]]; auto.
Qed.

Lemma popToParen_spec (ops : list ascii) :
  forall out,
    exists p rest,
      popToParen ops out = (rest, out ++ p)
      /\ ops = p ++ rest
      /\ Forall (fun c => Ascii.eqb c "(" = false) p
      /\ (rest = [] \/ exists r, rest = "("%char :: r).
Proof.
  induction ops as [| o ops IH]; intros out; simpl.
  - exists [], []. rewrite app_nil_r. auto.
  - destruct (Ascii.eqb o "(") eqn:E.
    + apply Ascii.eqb_eq in E. subst o. exists [], ("("%char :: ops).
      rewrite app_nil_r. repeat split; eauto.
    + destruct (IH (out ++ [o])) as [p [rest [E1 [E2 [E3 E4]]]]].
      exists (o :: p), rest. rewrite E1, <- app_assoc. simpl.
      repeat split; auto. congruence.
Qed.

Lemma popHigher_spec (c : ascii) (ops : list ascii) :
  forall out,
    exists p rest,
      popHigher c ops out = (rest, out ++ p)
      /\ ops = p ++ rest
      /\ Forall (fun o => isOperator o = true) p.
Proof.
  induction ops as [| o ops IH]; intros out; simpl.
  - exists [], []. rewrite app_nil_r. auto.
  - destruct (isOperator o && Nat.leb (precedence c) (precedence o)) eqn:E.
    + apply andb_true_iff in E. destruct E as [E _].
      destruct (IH (out ++ [o])) as [p [rest [E1 [E2 E3]]]].
      exists (o :: p), rest. rewrite E1, <- app_assoc. simpl.
      repeat split; auto. congruence.
    + exists [], (o :: ops). rewrite app_nil_r. auto.
Qed.

Lemma filter_all_false {A} (P : A -> bool) (l : list A) :
  Forall (fun x => P x = false) l -> filter P l = [].
Proof.
  induction 1 as [| x l Hx _ IH]; simpl; [reflexivity|].
  rewrite Hx. exact IH.
Qed.

Lemma filter_all_true {A} (P : A -> bool) (l : list A) :
  Forall (fun x => P x = true) l -> filter P l = l.
Proof.
  induction 1 as [| x l Hx _ IH]; simpl; [reflexivity|].
  rewrite Hx, IH. reflexivity.
Qed.

Lemma stacked_not_literal (l : list ascii) :
  Forall (fun c => isStacked c = true) l -> filter isLiteral l = [].
Proof.
  intros H. apply filter_all_false.
  apply (Forall_impl _ (P := fun c => isStacked c = true)); [|exact H].
  intros c Hc. unfold isStacked in Hc. apply orb_true_iff in Hc.
  destruct Hc as [Hc | Hc]; [apply isOperator_notParen, Hc|].
  apply Ascii.eqb_eq in Hc. subst c. reflexivity.
Qed.

(** One turn of the loop of [regexToPostfix], having read [seen]: the
    stack holds operators and opening parentheses, the output holds no
    parenthesis, the literals of the output are those read, in order, and
    output and stack hold what was read, parentheses apart. *)
Lemma postfixStep_inv (c : ascii) (seen ops out : list ascii) :
  Forall (fun o => isStacked o = true) ops ->
  Forall (fun o => isParen o = false) out ->
  filter isLiteral out = filter isLiteral seen ->
  Permutation (filter notParen (out ++ ops)) (filter notParen seen) ->
  let (ops', out') := postfixStep c (ops, out) in
  Forall (fun o => isStacked o = true) ops'
  /\ Forall (fun o => isParen o = false) out'
  /\ filter isLiteral out' = filter isLiteral (seen ++ [c])
  /\ Permutation (filter notParen (out' ++ ops'))
       (filter notParen (seen ++ [c])).
Proof.
  intros H1 H2 H3 H4. unfold postfixStep.
  rewrite (filter_app _ seen [c]), (filter_app _ seen [c]).
  destruct (Ascii.eqb c "(") eqn:E1.
  { apply Ascii.eqb_eq in E1. subst c. simpl. rewrite !app_nil_r.
    split; [constructor; [reflexivity | exact H1]|].
    split; [exact H2|]. split; [exact H3|].
    rewrite filter_app. simpl. rewrite <- filter_app. exact H4. }
  destruct (Ascii.eqb c ")") eqn:E2.
  { apply Ascii.eqb_eq in E2. subst c.
    destruct (popToParen_spec ops out) as [p [rest [P1 [P2 [P3 P4]]]]].
    rewrite P1. simpl filter. rewrite !app_nil_r. subst ops.
    apply Forall_app in H1. destruct H1 as [Hp Hr].
    assert (Hop : Forall (fun o => isOperator o = true) p).
    { rewrite Forall_forall in *. intros o Ho.
      assert (A := Hp o Ho). assert (B := P3 o Ho).
      unfold isStacked in A. rewrite B, orb_false_r in A. exact A. }
    split; [|split; [|split]].
    - destruct rest as [| r rest]; [constructor|].
      inversion Hr; assumption.
    - apply Forall_app. split; [exact H2|].
      apply (Forall_impl _ (P := fun o => isOperator o = true));
        [|exact Hop].
      intros o Ho. apply isOperator_notParen, Ho.
    - rewrite filter_app, H3.
      rewrite (stacked_not_literal p Hp). apply app_nil_r.
    - assert (E : filter notParen (tl rest) = filter notParen rest).
      { destruct P4 as [-> | [r ->]]; reflexivity. }
      rewrite <- H4, !filter_app, E, <- app_assoc. apply Permutation_refl. }
  destruct (isOperator c) eqn:E3.
  { destruct (popHigher_spec c ops out) as [p [rest [P1 [P2 P3]]]].
    rewrite P1. subst ops.
    destruct (isOperator_notParen c E3) as [Ec El].
    apply Forall_app in H1. destruct H1 as [Hp Hr].
    split; [|split; [|split]].
    - constructor; [unfold isStacked; rewrite E3; reflexivity | exact Hr].
    - apply Forall_app. split; [exact H2|].
      apply (Forall_impl _ (P := fun o => isOperator o = true));
        [|exact P3].
      intros o Ho. apply isOperator_notParen, Ho.
    - simpl. rewrite El, app_nil_r, filter_app, H3.
      rewrite (stacked_not_literal p Hp). apply app_nil_r.
    - assert (Nc : forall l, filter notParen (c :: l)
                             = c :: filter notParen l)
        by (intros l; simpl; unfold notParen at 1; rewrite Ec; reflexivity).
      rewrite <- H4, !filter_app, !Nc. simpl. rewrite <- !app_assoc.
      apply Permutation_app_head, Permutation_app_head.
      apply Permutation_cons_append. }
  assert (Ec : isParen c = false)
    by (unfold isParen; rewrite E1, E2; reflexivity).
  assert (El : isLiteral c = true)
    by (unfold isLiteral; rewrite E3, Ec; reflexivity).
  split; [exact H1|]. split; [|split].
  - apply Forall_app. split; [exact H2 | constructor; [exact Ec|constructor]].
  - rewrite filter_app, H3. reflexivity.
  - assert (Nc : forall l, filter notParen (c :: l)
                           = c :: filter notParen l)
      by (intros l; simpl; unfold notParen at 1; rewrite Ec; reflexivity).
    rewrite <- H4, !filter_app, !Nc. simpl. rewrite <- !app_assoc.
    apply Permutation_app_head. simpl.
    apply Permutation_cons_append.
Qed.

Lemma postfixLoop_inv (s : string) :
  forall (seen ops out : list ascii),
    Forall (fun o => isStacked o = true) ops ->
    Forall (fun o => isParen o = false) out ->
    filter isLiteral out = filter isLiteral seen ->
    Permutation (filter notParen (out ++ ops)) (filter notParen seen) ->
    let (ops', out') := postfixLoop s (ops, out) in
    Forall (fun o => isStacked o = true) ops'
    /\ Forall (fun o => isParen o = false) out'
    /\ filter isLiteral out'
       = filter isLiteral (seen ++ list_ascii_of_string s)
    /\ Permutation (filter notParen (out' ++ ops'))
         (filter notParen (seen ++ list_ascii_of_string s)).
Proof.
  induction s as [| c s IH]; intros seen ops out H1 H2 H3 H4.
  - simpl. rewrite app_nil_r. auto.
  - cbn [postfixLoop list_ascii_of_string].
    assert (S := postfixStep_inv c seen ops out H1 H2 H3 H4).
    destruct (postfixStep c (ops, out)) as [ops1 out1].
    destruct S as [S1 [S2 [S3 S4]]].
    assert (L := IH (seen ++ [c]) ops1 out1 S1 S2 S3 S4).
    rewrite <- app_assoc in L. exact L.
Qed.

(** X8: the postfix form never holds a closing parenthesis; its literals
    are the literals of the pattern, in the same order; and, parentheses
    apart, it is a rearrangement of the pattern with its concatenation
    dots: no operator is lost or made up. *)
Theorem regexToPostfix_tokens (re : string) :
  let post := list_ascii_of_string (regexToPostfix re) in
  ~ In ")"%char post
  /\ filter isLiteral post = filter isLiteral (list_ascii_of_string re)
  /\ Permutation (filter notParen post)
       (filter notParen (list_ascii_of_string (insertConcats re))).
Proof.
  unfold regexToPostfix.
  assert (L := postfixLoop_inv (insertConcats re) [] [] []
                 (Forall_nil _) (Forall_nil _) eq_refl (Permutation_refl _)).
  destruct (postfixLoop (insertConcats re) ([], [])) as [ops out].
  destruct L as [L1 [L2 [L3 L4]]]. simpl in L3, L4.
  rewrite list_ascii_of_string_of_list_ascii. cbv zeta.
  split; [|split].
  - intros Hin. apply in_app_or in Hin. rewrite Forall_forall in L1, L2.
    destruct Hin as [Hin | Hin].
    + apply L2 in Hin. discriminate Hin.
    + apply L1 in Hin. discriminate Hin.
  - rewrite filter_app, (stacked_not_literal ops L1), app_nil_r, L3.
    apply insertConcats_filter. reflexivity.
  - exact L4.
Qed.

(** ** Postfix conversion: balanced parentheses *)

Lemma parenBalance_filter (l : list ascii) :
  forall d, parenBalance (filter isParen l) d = parenBalance l d.
Proof.
  induction l as [| c l IH]; intros d; [reflexivity|].
  simpl. unfold isParen at 1.
  destruct (Ascii.eqb c "(") eqn:E1; simpl.
  - rewrite E1. apply IH.
  - destruct (Ascii.eqb c ")") eqn:E2; simpl.
    + rewrite E1, E2. destruct d; [reflexivity | apply IH].
    + apply IH.
Qed.

Lemma count_open_operators (p : list ascii) :
  Forall (fun c => Ascii.eqb c "(" = false) p ->
  count_occ ascii_dec p "("%char = 0.
Proof.
  intros H. apply count_occ_not_In. intros Hin.
  rewrite Forall_forall in H. apply H in Hin. discriminate Hin.
Qed.

(** With balanced parentheses, the stack holds as many opening parentheses
    as are open. *)
Lemma postfixLoop_balanced (s : string) :
  forall (ops out : list ascii) (d : nat),
    count_occ ascii_dec ops "("%char = d ->
    parenBalance (list_ascii_of_string s) d = true ->
    count_occ ascii_dec (fst (postfixLoop s (ops, out))) "("%char = 0.
Proof.
  induction s as [| c s IH]; intros ops out d Hd Hb.
  - simpl in *. apply Nat.eqb_eq in Hb. congruence.
  - cbn [postfixLoop list_ascii_of_string parenBalance] in *.
    unfold postfixStep.
    destruct (Ascii.eqb c "(") eqn:E1.
    { apply Ascii.eqb_eq in E1. subst c.
      apply (IH _ _ (S d)); [|exact Hb].
      rewrite count_occ_cons_eq by reflexivity. congruence. }
    destruct (Ascii.eqb c ")") eqn:E2.
    { destruct d as [| d]; [discriminate|].
      destruct (popToParen_spec ops out) as [p [rest [P1 [P2 [P3 P4]]]]].
      rewrite P1. apply (IH _ _ d); [|exact Hb].
      subst ops. rewrite count_occ_app, (count_open_operators p P3) in Hd.
      simpl in Hd. destruct P4 as [-> | [r ->]]; [discriminate Hd|].
      rewrite count_occ_cons_eq in Hd by reflexivity. simpl. lia. }
    destruct (isOperator c) eqn:E3.
    { destruct (popHigher_spec c ops out) as [p [rest [P1 [P2 P3]]]].
      rewrite P1. apply (IH _ _ d); [|exact Hb].
      subst ops. rewrite count_occ_app in Hd.
      assert (Hp : count_occ ascii_dec p "("%char = 0).
      { apply count_open_operators.
        apply (Forall_impl _ (P := fun o => isOperator o = true));
          [|exact P3].
        intros o Ho. apply isOperator_notParen in Ho.
        destruct Ho as [Ho _]. unfold isParen in Ho.
        apply orb_false_iff in Ho. apply Ho. }
      rewrite count_occ_cons_neq; [lia|].
      intros ->. discriminate E1. }
    apply (IH _ _ d); assumption.
Qed.

(** X9: when the parentheses of the pattern match, the postfix form holds
    no parenthesis at all: it is a rearrangement of the pattern with its
    concatenation dots and without its parentheses. *)
Theorem regexToPostfix_balanced (re : string) :
  parenBalance (list_ascii_of_string re) 0 = true ->
  Permutation (list_ascii_of_string (regexToPostfix re))
    (filter notParen (list_ascii_of_string (insertConcats re)))
  /\ Forall (fun c => isParen c = false)
       (list_ascii_of_string (regexToPostfix re)).
Proof.
  intros Hb.
  assert (Hb' : parenBalance (list_ascii_of_string (insertConcats re)) 0
                = true).
  { rewrite <- parenBalance_filter, insertConcats_filter by reflexivity.
    rewrite parenBalance_filter. exact Hb. }
  assert (Hc := postfixLoop_balanced (insertConcats re) [] [] 0 eq_refl Hb').
  unfold regexToPostfix.
  assert (L := postfixLoop_inv (insertConcats re) [] [] []
                 (Forall_nil _) (Forall_nil _) eq_refl (Permutation_refl _)).
  destruct (postfixLoop (insertConcats re) ([], [])) as [ops out].
  destruct L as [L1 [L2 [L3 L4]]]. simpl in L4, Hc.
  rewrite list_ascii_of_string_of_list_ascii.
  assert (Hall : Forall (fun c => isParen c = false) (out ++ ops)).
  { apply Forall_app. split; [exact L2|].
    rewrite Forall_forall in *. intros c Hin.
    assert (A := L1 c Hin). unfold isStacked in A.
    apply orb_true_iff in A. destruct A as [A | A].
    - apply isOperator_notParen, A.
    - apply Ascii.eqb_eq in A. subst c.
      apply (count_occ_not_In ascii_dec) in Hc. contradiction. }
  split; [|exact Hall].
  rewrite <- L4. rewrite filter_all_true; [apply Permutation_refl|].
  apply (Forall_impl _ (P := fun c => isParen c = false)); [|exact Hall].
  intros c Hc'. unfold notParen. rewrite Hc'. reflexivity.
Qed.

Lemma regexToPostfix_balanced_witness :
  Permutation (list_ascii_of_string (regexToPostfix "(a|b)*abb"))
    (filter notParen (list_ascii_of_string (insertConcats "(a|b)*abb")))
  /\ Forall (fun c => isParen c = false)
       (list_ascii_of_string (regexToPostfix "(a|b)*abb")).
Proof. apply (regexToPostfix_balanced "(a|b)*abb"). reflexivity. Defined.

(** ** Thompson construction: when it fails *)

Lemma thompsonLoop_depth (postfix : string) :
  forall (stack : list NFA) (k : nat),
    match rpnDepth postfix (length stack) with
    | Some d =>
        exists stack' k',
          thompsonLoop postfix stack k = (inr stack', k')
          /\ length stack' = d
    | None => exists k', thompsonLoop postfix stack k = (inl TypeError, k')
    end.
Proof.
  induction postfix as [| c rest IH]; intros stack k.
  - simpl. exists stack, k. auto.
  - cbn [rpnDepth thompsonLoop]. unfold bind, thompsonStep.
    destruct (Ascii.eqb c "*").
    { destruct stack as [| n stack]; [cbn; eauto|].
      cbn. apply (IH (_ :: stack)). }
    destruct (Ascii.eqb c ".") eqn:Ed.
    { simpl orb. destruct stack as [| n2 [| n1 stack]]; cbn; eauto.
      apply (IH (_ :: stack)). }
    destruct (Ascii.eqb c "|").
    { simpl orb. destruct stack as [| n2 [| n1 stack]]; cbn; eauto.
      apply (IH (_ :: stack)). }
    simpl orb. cbn. apply (IH (_ :: stack)).
Qed.

(** X10: [postfixToNFA] returns an automaton exactly when the postfix
    string is a well-formed stack program that leaves one fragment; it
    throws the stack-length error when the program leaves none or several,
    and a [TypeError] when an operator finds too few fragments. *)
Theorem postfixToNFA_outcome (postfix : string) (k : nat) :
  match rpnDepth postfix 0 with
  | Some 1 => exists nfa k', postfixToNFA postfix k = (inr nfa, k')
  | Some _ => exists k', postfixToNFA postfix k = (inl InvalidPostfix, k')
  | None => exists k', postfixToNFA postfix k = (inl TypeError, k')
  end.
Proof.
  rewrite postfixToNFA_unfold.
  assert (H := thompsonLoop_depth postfix [] k). simpl length in H.
  destruct (rpnDepth postfix 0) as [d |].
  - destruct H as [stack' [k' [E Hl]]]. rewrite E.
    destruct stack' as [| n [| n2 stack']]; simpl in Hl; subst d; eauto.
  - destruct H as [k' E]. rewrite E. eauto.
Qed.

(** ** Thompson construction: sizes *)

Lemma fold_setAdd_NoDup_id (l : list nat) :
  forall acc,
    NoDup (acc ++ l) -> fold_left (setAdd Nat.eqb) l acc = acc ++ l.
Proof.
  induction l as [| x l IH]; intros acc H; simpl.
  - symmetry. apply app_nil_r.
  - assert (Hx : setHas Nat.eqb acc x = false).
    { apply (setHas_false Nat.eqb Nat.eqb_eq).
      apply NoDup_remove_2 in H. intros Hin. apply H.
      apply in_or_app. left. exact Hin. }
    unfold setAdd at 2. rewrite Hx.
    replace (acc ++ x :: l) with ((acc ++ [x]) ++ l) in *
      by (rewrite <- app_assoc; reflexivity).
    apply IH, H.
Qed.

Lemma setOf_NoDup_id (l : list nat) : NoDup l -> setOf Nat.eqb l = l.
Proof. intros H. apply (fold_setAdd_NoDup_id l []), H. Qed.

Lemma thompsonStep_sizes (c : ascii) (stack stack' : list NFA) (k k' : nat) :
  thompsonStep c stack k = (inr stack', k') ->
  k' = k + tokenStates c
  /\ Permutation (flat_map states stack')
       (flat_map states stack ++ seq k (tokenStates c))
  /\ length (flat_map transitions stack')
     = length (flat_map transitions stack) + tokenEdges c.
Proof.
  unfold thompsonStep, tokenStates, tokenEdges.
  destruct (Ascii.eqb c "*") eqn:E1.
  { apply Ascii.eqb_eq in E1. subst c.
    destruct stack as [| n rest]; intros E; cbn in E; [discriminate E|].
    injection E as <- <-. simpl. split; [lia|]. split.
    - change (k :: S k :: states n ++ flat_map states rest)
        with ([k; S k] ++ (states n ++ flat_map states rest)).
      apply Permutation_app_comm.
    - rewrite ?length_app. simpl. rewrite ?length_app. simpl. lia. }
  destruct (Ascii.eqb c ".") eqn:E2.
  { apply Ascii.eqb_eq in E2. subst c.
    destruct stack as [| n2 [| n1 rest]]; intros E; cbn in E;
      try discriminate E.
    injection E as <- <-. simpl. split; [lia|]. split.
    - rewrite app_nil_r, !app_assoc.
      apply Permutation_app_tail, Permutation_app_comm.
    - rewrite ?length_app. simpl. rewrite ?length_app. simpl. lia. }
  destruct (Ascii.eqb c "|") eqn:E3.
  { apply Ascii.eqb_eq in E3. subst c.
    destruct stack as [| n2 [| n1 rest]]; intros E; cbn in E;
      try discriminate E.
    injection E as <- <-. simpl. split; [lia|]. split.
    - change (k :: S k :: (states n1 ++ states n2) ++ flat_map states rest)
        with ([k; S k] ++ ((states n1 ++ states n2) ++ flat_map states rest)).
      rewrite Permutation_app_comm. apply Permutation_app_tail.
      rewrite !app_assoc. apply Permutation_app_tail, Permutation_app_comm.
    - rewrite ?length_app. simpl. rewrite ?length_app. simpl. lia. }
  intros E. cbn in E. injection E as <- <-. simpl. split; [lia|]. split.
  - change (k :: S k :: flat_map states stack)
      with ([k; S k] ++ flat_map states stack).
    apply Permutation_app_comm.
  - lia.
Qed.

Lemma thompsonLoop_sizes (postfix : string) :
  forall (stack stack' : list NFA) (k k' : nat),
    thompsonLoop postfix stack k = (inr stack', k') ->
    k' = k + sumChars tokenStates postfix
    /\ Permutation (flat_map states stack')
         (flat_map states stack ++ seq k (sumChars tokenStates postfix))
    /\ length (flat_map transitions stack')
       = length (flat_map transitions stack) + sumChars tokenEdges postfix.
Proof.
  induction postfix as [| c rest IH]; intros stack stack' k k'.
  - simpl. unfold ret. intros E. injection E as <- <-.
    rewrite app_nil_r. split; [lia|]. split; [apply Permutation_refl | lia].
  - cbn [thompsonLoop sumChars]. unfold bind.
    destruct (thompsonStep c stack k) as [[e | stack1] k1] eqn:E1;
      [discriminate|].
    intros E. apply thompsonStep_sizes in E1. destruct E1 as [A1 [A2 A3]].
    apply IH in E. destruct E as [B1 [B2 B3]].
    split; [lia|]. split; [|lia].
    rewrite B2, A2, <- app_assoc, seq_app. subst k1.
    apply Permutation_refl.
Qed.

(** X11: an automaton returned from counter [k] has for states exactly
    the ids handed out during the build, [k] to [k' - 1]: two for each
    token that is not a concatenation; and it has four transitions for each
    closure and each union, one for each concatenation and each literal. *)
Theorem postfixToNFA_sizes (postfix : string) (k k' : nat) (nfa : NFA) :
  postfixToNFA postfix k = (inr nfa, k') ->
  k' = k + sumChars tokenStates postfix
  /\ Permutation (states nfa) (seq k (sumChars tokenStates postfix))
  /\ length (transitions nfa) = sumChars tokenEdges postfix.
Proof.
  intros E. destruct (postfixToNFA_fragOk _ _ _ _ E) as [frag [Hf En]].
  destruct (postfixToNFA_returns _ _ _ _ E) as [frag' [El En']].
  assert (frag' = frag).
  { rewrite En in En'. destruct frag, frag'. simpl in En'.
    injection En' as -> -> E3 ->.
    assert (N1 := ok_nodup _ _ Hf). simpl in N1.
    apply thompsonLoop_ok in El; [|exact I].
    destruct El as [[Hf' _] _]. assert (N2 := ok_nodup _ _ Hf').
    simpl in N2. rewrite !setOf_NoDup_id in E3 by assumption.
    congruence. }
  subst frag'. apply thompsonLoop_sizes in El.
  destruct El as [A1 [A2 A3]]. simpl in A2, A3. rewrite app_nil_r in A2, A3.
  subst nfa. simpl. rewrite setOf_NoDup_id by apply (ok_nodup _ _ Hf).
  auto.
Qed.

Lemma postfixToNFA_sizes_witness :
  4 = 0 + sumChars tokenStates "ab."
  /\ Permutation (states nfa_ab) (seq 0 (sumChars tokenStates "ab."))
  /\ length (transitions nfa_ab) = sumChars tokenEdges "ab.".
Proof. apply (postfixToNFA_sizes "ab." 0 4 nfa_ab). reflexivity. Defined.

(** ** Walks of an automaton *)

Lemma nfaPath_app (ts : list Transition) (p q r : nat) (u v : list string) :
  nfaPath ts p u q -> nfaPath ts q v r -> nfaPath ts p (u ++ v) r.
Proof.
  intros H1 H2. induction H1 as [q | p q q' w He _ IH | p q q' a w He _ IH].
  - exact H2.
  - apply (path_eps ts p q); auto.
  - simpl. apply (path_sym ts p q); auto.
Qed.

Lemma nfaPath_incl (ts ts' : list Transition) (p q : nat) (w : list string) :
  incl ts ts' -> nfaPath ts p w q -> nfaPath ts' p w q.
Proof.
  intros Hi H. induction H as [q | p q r w He _ IH | p q r a w He _ IH].
  - apply path_nil.
  - apply (path_eps ts' p q); auto.
  - apply (path_sym ts' p q); auto.
Qed.

Lemma epsReach_extend (ts : list Transition) (S : list nat) (p q : nat) :
  nfaPath ts p [] q -> epsReach ts S p -> epsReach ts S q.
Proof.
  intros H. remember (@nil string) as w eqn:Ew.
  induction H as [q | p q r w He _ IH | p q r a w He _ IH]; intros R.
  - exact R.
  - apply (IH Ew). apply (reach_step ts S p); assumption.
  - discriminate Ew.
Qed.

Lemma epsReach_path (ts : list Transition) (S : list nat) (q : nat) :
  epsReach ts S q <-> exists p, In p S /\ nfaPath ts p [] q.
Proof.
  split.
  - intros R. induction R as [q Hq | p q _ [p0 [Hp0 Hp]] He].
    + exists q. split; [exact Hq | apply path_nil].
    + exists p0. split; [exact Hp0|].
      apply (nfaPath_app ts p0 p q [] []); [exact Hp|].
      apply (path_eps ts p q); [exact He | apply path_nil].
  - intros [p [Hp H]]. apply (epsReach_extend ts S p q H).
    apply reach_in, Hp.
Qed.

(** A walk that reads [u] and then [a] ends with a transition labelled [a]
    followed by epsilon transitions. *)
Lemma nfaPath_snoc (ts : list Transition) (p q : nat) (w : list string) :
  nfaPath ts p w q ->
  forall u a, w = u ++ [a] ->
    exists p1 q1,
      nfaPath ts p u p1
      /\ In (mkTransition p1 q1 (Some a)) ts
      /\ nfaPath ts q1 [] q.
Proof.
  intros H. induction H as [q | p q r w He _ IH | p q r b w He Hp IH];
    intros u a E.
  - destruct u; discriminate E.
  - destruct (IH u a E) as [p1 [q1 [A [B C]]]].
    exists p1, q1. split; [apply (path_eps ts p q); assumption | auto].
  - destruct u as [| c u].
    + simpl in E. injection E as -> ->.
      exists p, q. split; [apply path_nil | auto].
    + simpl in E. injection E as -> ->.
      destruct (IH u a eq_refl) as [p1 [q1 [A [B C]]]].
      exists p1, q1. split; [apply (path_sym ts p q); assumption | auto].
Qed.

(** The simulation of the NFA follows its walks: after the word [w] it
    holds the states that a walk from the start state reaches reading
    [w]. *)
Lemma nfaRun_paths (nfa : NFA) (w : list string) :
  forall (u : list string) (set : list nat),
    (forall q, In q set <-> nfaPath (transitions nfa) (start nfa) u q) ->
    forall q,
      In q (fold_left
              (fun set sym => epsilonClosure nfa (move nfa set sym)) w set)
      <-> nfaPath (transitions nfa) (start nfa) (u ++ w) q.
Proof.
  induction w as [| a w IH]; intros u set H q.
  - simpl. rewrite app_nil_r. apply H.
  - simpl. replace (u ++ a :: w) with ((u ++ [a]) ++ w)
      by (rewrite <- app_assoc; reflexivity).
    apply IH. clear q. intros q.
    rewrite epsilonClosure_In, epsReach_path. split.
    + intros [q1 [Hq1 Hp]]. apply move_In in Hq1.
      destruct Hq1 as [p1 [Hp1 Ht]]. apply H in Hp1.
      apply (nfaPath_app _ _ p1); [exact Hp1|].
      apply (path_sym _ p1 q1); assumption.
    + intros Hp.
      destruct (nfaPath_snoc _ _ _ _ Hp u a eq_refl) as [p1 [q1 [A [B C]]]].
      exists q1. split; [|exact C]. apply move_In. exists p1.
      split; [apply H, A | exact B].
Qed.

Lemma nfaAccepts_path (nfa : NFA) (w : list string) :
  nfaAccepts nfa w = true
  <-> nfaPath (transitions nfa) (start nfa) w (accept nfa).
Proof.
  unfold nfaAccepts, nfaRun. rewrite (setHas_In Nat.eqb Nat.eqb_eq).
  apply (nfaRun_paths nfa w []). intros q.
  rewrite epsilonClosure_In, epsReach_path. split.
  - intros [p [[<- | []] Hp]]. exact Hp.
  - intros Hp. exists (start nfa). split; [left; reflexivity | exact Hp].
Qed.

(** ** Thompson construction, read along a regular expression *)

Lemma notOperator_eqb (c : ascii) :
  isOperator c = false ->
  Ascii.eqb c "*" = false /\ Ascii.eqb c "." = false
  /\ Ascii.eqb c "|" = false.
Proof.
  unfold isOperator. rewrite !orb_false_iff. tauto.
Qed.

Lemma thompsonLoop_postfixOf (r : regex) :
  symbolsOnly r = true ->
  forall (rest : string) (stack : list NFA) (k : nat),
    thompsonLoop (postfixOf r ++ rest)%string stack k
    = thompsonLoop rest (fst (fragOf r k) :: stack) (snd (fragOf r k)).
Proof.
  induction r as [c | r1 IH1 r2 IH2 | r1 IH1 r2 IH2 | r1 IH1];
    intros Hs rest stack k; simpl in Hs.
  - apply negb_true_iff, notOperator_eqb in Hs.
    destruct Hs as [E1 [E2 E3]].
    cbn [postfixOf append thompsonLoop]. unfold bind, thompsonStep.
    rewrite E1, E2, E3. reflexivity.
  - apply andb_true_iff in Hs. destruct Hs as [H1 H2].
    cbn [postfixOf]. rewrite !append_assoc.
    rewrite (IH1 H1), (IH2 H2). cbn [fragOf].
    destruct (fragOf r1 k) as [n1 k1]. cbn [fst snd].
    destruct (fragOf r2 k1) as [n2 k2]. reflexivity.
  - apply andb_true_iff in Hs. destruct Hs as [H1 H2].
    cbn [postfixOf]. rewrite !append_assoc.
    rewrite (IH1 H1), (IH2 H2). cbn [fragOf].
    destruct (fragOf r1 k) as [n1 k1]. cbn [fst snd].
    destruct (fragOf r2 k1) as [n2 k2]. reflexivity.
  - cbn [postfixOf]. rewrite !append_assoc.
    rewrite (IH1 Hs). cbn [fragOf].
    destruct (fragOf r1 k) as [n1 k1]. reflexivity.
Qed.

(** ** Walks through a composed fragment *)

Lemma nfaPath_stays (ts ts1 : list Transition) (A : nat -> Prop) :
  (forall t, In t ts -> A (t_from t) -> In t ts1 /\ A (t_to t)) ->
  forall p w q,
    nfaPath ts p w q -> A p -> nfaPath ts1 p w q /\ A q.
Proof.
  intros H p w q P. induction P as [q | p q r w He _ IH | p q r a w He _ IH];
    intros Hp.
  - split; [apply path_nil | exact Hp].
  - destruct (H _ He Hp) as [H1 H2]. destruct (IH H2) as [I1 I2].
    split; [apply (path_eps ts1 p q); assumption | exact I2].
  - destruct (H _ He Hp) as [H1 H2]. destruct (IH H2) as [I1 I2].
    split; [apply (path_sym ts1 p q); assumption | exact I2].
Qed.

(** A walk from a state of a part [A] either stays in the part, or walks
    in the part to its exit [a1], leaves it by an epsilon transition to a
    state of [E] and goes on. *)
Lemma nfaPath_exit (ts ts1 : list Transition) (A E : nat -> Prop)
    (a1 : nat) :
  (forall t, In t ts -> A (t_from t) ->
             (In t ts1 /\ A (t_to t))
             \/ (t_from t = a1 /\ t_symbol t = None /\ E (t_to t))) ->
  forall p w q,
    nfaPath ts p w q -> A p ->
    (nfaPath ts1 p w q /\ A q)
    \/ exists u v x,
         w = u ++ v /\ nfaPath ts1 p u a1 /\ E x /\ nfaPath ts x v q.
Proof.
  intros H p w q P. induction P as [q | p q r w He Hq IH | p q r a w He Hq IH];
    intros Hp.
  - left. split; [apply path_nil | exact Hp].
  - destruct (H _ He Hp) as [[H1 H2] | [H1 [_ H3]]].
    + destruct (IH H2) as [[I1 I2] | [u [v [x [Ew [I1 [I2 I3]]]]]]].
      * left. split; [apply (path_eps ts1 p q); assumption | exact I2].
      * right. exists u, v, x.
        split; [exact Ew|]. split; [|auto].
        apply (path_eps ts1 p q); assumption.
    + right. simpl in H1, H3. subst p. exists [], w, q.
      split; [reflexivity|]. split; [apply path_nil | auto].
  - destruct (H _ He Hp) as [[H1 H2] | [_ [H1 _]]]; [|discriminate H1].
    destruct (IH H2) as [[I1 I2] | [u [v [x [Ew [I1 [I2 I3]]]]]]].
    + left. split; [apply (path_sym ts1 p q); assumption | exact I2].
    + right. exists (a :: u), v, x. subst w.
      split; [reflexivity|]. split; [|auto].
      apply (path_sym ts1 p q); assumption.
Qed.

(** No walk leaves a state that no transition leaves. *)
Lemma nfaPath_sink (ts : list Transition) (f : nat) :
  (forall t, In t ts -> t_from t <> f) ->
  forall w q, nfaPath ts f w q -> w = [] /\ q = f.
Proof.
  intros H w q P. inversion P as [| p q' r w' He _ | p q' r a w' He _]; subst.
  - auto.
  - exfalso. apply (H _ He). reflexivity.
  - exfalso. apply (H _ He). reflexivity.
Qed.

(** ** The words of a regular expression *)

Lemma matches_lit (c : ascii) (u : list ascii) :
  matches (Lit c) u <-> u = [c].
Proof.
  split; [intros H; inversion H; reflexivity | intros ->; apply m_lit].
Qed.

Lemma matches_cat (r s : regex) (w : list ascii) :
  matches (Cat r s) w
  <-> exists u v, w = u ++ v /\ matches r u /\ matches s v.
Proof.
  split.
  - intros H. inversion H; subst. eauto.
  - intros [u [v [-> [H1 H2]]]]. apply m_cat; assumption.
Qed.

Lemma matches_alt (r s : regex) (w : list ascii) :
  matches (Alt r s) w <-> matches r w \/ matches s w.
Proof.
  split.
  - intros H. inversion H; subst; auto.
  - intros [H | H]; [apply m_alt_l | apply m_alt_r]; exact H.
Qed.

Lemma matches_star (r : regex) (w : list ascii) :
  matches (Star r) w
  <-> exists us, w = concat us /\ Forall (matches r) us.
Proof.
  split.
  - intros H. remember (Star r) as sr eqn:E.
    induction H as [| | | | r' | r' u v Hu _ Hv IH]; try discriminate E.
    + exists []. split; [reflexivity | constructor].
    + injection E as ->. destruct (IH eq_refl) as [us [-> Hus]].
      exists (u :: us). split; [reflexivity | constructor; assumption].
  - intros [us [-> Hus]]. induction Hus as [| u us Hu _ IH]; simpl.
    + apply m_star_nil.
    + apply m_star_app; assumption.
Qed.

Lemma map_symbolOf_inj (u v : list ascii) :
  map symbolOf u = map symbolOf v -> u = v.
Proof.
  revert v. induction u as [| a u IH]; intros [| b v] E; try discriminate E;
    [reflexivity|].
  simpl in E. injection E as -> E. f_equal. apply IH, E.
Qed.

(** ** The fragments accept the words of their expressions *)

Lemma fragSpec_edge (r : regex) (k k' : nat) (n : NFA) (t : Transition) :
  fragSpec r k n k' -> In t (transitions n) ->
  k <= t_from t < k' /\ k <= t_to t < k'.
Proof.
  intros H Ht. destruct (fs_ends _ _ _ _ H t Ht) as [A B].
  split; apply (fs_range _ _ _ _ H); assumption.
Qed.

Lemma fragSpec_lit (c : ascii) (k : nat) :
  fragSpec (Lit c) k
    (mkNFA k (S k) [k; S k] [mkTransition k (S k) (Some (symbolOf c))])
    (S (S k)).
Proof.
  constructor; simpl.
  - intros q [<- | [<- | []]]; lia.
  - auto.
  - auto.
  - intros t [<- | []]. simpl. auto.
  - intros w. split.
    + intros P. exists [c]. split; [|apply m_lit].
      inversion P as [| p q r w' He Hq | p q r a w' He Hq]; subst.
      * lia.
      * destruct He as [He | []]. discriminate He.
      * destruct He as [He | []]. injection He as <- <-.
        apply nfaPath_sink in Hq; [destruct Hq as [-> _]; reflexivity|].
        intros t [<- | []]. simpl. lia.
    + intros [u [-> Hu]]. apply matches_lit in Hu. subst u. simpl.
      apply (path_sym _ k (S k)); [left; reflexivity | apply path_nil].
Qed.

Lemma fragSpec_cat (r1 r2 : regex) (k k1 k2 : nat) (n1 n2 : NFA) :
  fragSpec r1 k n1 k1 -> fragSpec r2 k1 n2 k2 ->
  fragSpec (Cat r1 r2) k
    (mkNFA (start n1) (accept n2) (states n1 ++ states n2)
       (transitions n1 ++ transitions n2 ++ [eps (accept n1) (start n2)]))
    k2.
Proof.
  intros H1 H2.
  assert (Rs1 := fs_range _ _ _ _ H1 _ (fs_start _ _ _ _ H1)).
  assert (Ra1 := fs_range _ _ _ _ H1 _ (fs_accept _ _ _ _ H1)).
  assert (Rs2 := fs_range _ _ _ _ H2 _ (fs_start _ _ _ _ H2)).
  assert (Ra2 := fs_range _ _ _ _ H2 _ (fs_accept _ _ _ _ H2)).
  constructor; simpl.
  - intros q Hq. apply in_app_or in Hq. destruct Hq as [Hq | Hq].
    + apply (fs_range _ _ _ _ H1) in Hq. lia.
    + apply (fs_range _ _ _ _ H2) in Hq. lia.
  - apply in_or_app. left. apply (fs_start _ _ _ _ H1).
  - apply in_or_app. right. apply (fs_accept _ _ _ _ H2).
  - intros t Ht. rewrite !in_app_iff in *. simpl in Ht.
    destruct Ht as [Ht | [Ht | [<- | []]]].
    + apply (fs_ends _ _ _ _ H1) in Ht. tauto.
    + apply (fs_ends _ _ _ _ H2) in Ht. tauto.
    + simpl. split; [left; apply (fs_accept _ _ _ _ H1)
                    | right; apply (fs_start _ _ _ _ H2)].
  - intros w. split.
    + intros P.
      apply (nfaPath_exit _ (transitions n1) (fun q => In q (states n1))
               (fun x => x = start n2) (accept n1)) in P.
      * destruct P as [[_ Hq] | [u [v [x [-> [P1 [-> P2]]]]]]].
        { apply (fs_range _ _ _ _ H1) in Hq. lia. }
        apply (nfaPath_stays _ (transitions n2)
                 (fun q => In q (states n2))) in P2.
        -- destruct P2 as [P2 _].
           apply (fs_lang _ _ _ _ H1) in P1. destruct P1 as [u1 [-> M1]].
           apply (fs_lang _ _ _ _ H2) in P2. destruct P2 as [u2 [-> M2]].
           exists (u1 ++ u2). split; [symmetry; apply map_app|].
           apply m_cat; assumption.
        -- intros t Ht Hf. apply (fs_range _ _ _ _ H2) in Hf.
           rewrite !in_app_iff in Ht. simpl in Ht.
           destruct Ht as [Ht | [Ht | [<- | []]]].
           ++ apply (fragSpec_edge _ _ _ _ _ H1) in Ht. lia.
           ++ split; [exact Ht | apply (fs_ends _ _ _ _ H2), Ht].
           ++ simpl in Hf. lia.
        -- apply (fs_start _ _ _ _ H2).
      * intros t Ht Hf. apply (fs_range _ _ _ _ H1) in Hf.
        rewrite !in_app_iff in Ht. simpl in Ht.
        destruct Ht as [Ht | [Ht | [<- | []]]].
        -- left. split; [exact Ht | apply (fs_ends _ _ _ _ H1), Ht].
        -- apply (fragSpec_edge _ _ _ _ _ H2) in Ht. lia.
        -- right. simpl. auto.
      * apply (fs_start _ _ _ _ H1).
    + intros [u [-> Hu]]. apply matches_cat in Hu.
      destruct Hu as [u1 [u2 [-> [M1 M2]]]]. rewrite map_app.
      apply (nfaPath_app _ _ (accept n1)).
      * apply (nfaPath_incl (transitions n1)); [apply incl_appl, incl_refl|].
        apply (fs_lang _ _ _ _ H1). eauto.
      * apply (path_eps _ _ (start n2)).
        { apply in_or_app. right. apply in_or_app. right. left.
          reflexivity. }
        apply (nfaPath_incl (transitions n2));
          [apply incl_appr, incl_appl, incl_refl|].
        apply (fs_lang _ _ _ _ H2). eauto.
Qed.

Lemma fragSpec_alt (r1 r2 : regex) (k k1 k2 : nat) (n1 n2 : NFA) :
  fragSpec r1 k n1 k1 -> fragSpec r2 k1 n2 k2 ->
  fragSpec (Alt r1 r2) k
    (mkNFA k2 (S k2) (k2 :: S k2 :: states n1 ++ states n2)
       ([eps k2 (start n1); eps k2 (start n2);
         eps (accept n1) (S k2); eps (accept n2) (S k2)]
        ++ transitions n1 ++ transitions n2))
    (S (S k2)).
Proof.
  intros H1 H2.
  assert (Rs1 := fs_range _ _ _ _ H1 _ (fs_start _ _ _ _ H1)).
  assert (Ra1 := fs_range _ _ _ _ H1 _ (fs_accept _ _ _ _ H1)).
  assert (Rs2 := fs_range _ _ _ _ H2 _ (fs_start _ _ _ _ H2)).
  assert (Ra2 := fs_range _ _ _ _ H2 _ (fs_accept _ _ _ _ H2)).
  set (ts := [eps k2 (start n1); eps k2 (start n2);
              eps (accept n1) (S k2); eps (accept n2) (S k2)]
             ++ transitions n1 ++ transitions n2).
  assert (Hts : forall t, In t ts ->
            t = eps k2 (start n1) \/ t = eps k2 (start n2)
            \/ t = eps (accept n1) (S k2) \/ t = eps (accept n2) (S k2)
            \/ In t (transitions n1) \/ In t (transitions n2)).
  { intros t Ht. unfold ts in Ht. simpl in Ht. rewrite in_app_iff in Ht.
    intuition. }
  assert (Hsink : forall t, In t ts -> t_from t <> S k2).
  { intros t Ht. apply Hts in Ht.
    destruct Ht as [-> | [-> | [-> | [-> | [Ht | Ht]]]]]; simpl; try lia.
    - apply (fragSpec_edge _ _ _ _ _ H1) in Ht. lia.
    - apply (fragSpec_edge _ _ _ _ _ H2) in Ht. lia. }
  assert (Hleft : forall w, nfaPath ts (start n1) w (S k2) ->
            nfaPath (transitions n1) (start n1) w (accept n1)).
  { intros w P.
    apply (nfaPath_exit _ (transitions n1) (fun q => In q (states n1))
             (fun x => x = S k2) (accept n1)) in P.
    - destruct P as [[_ Hq] | [u [v [x [-> [P1 [-> P2]]]]]]].
      { apply (fs_range _ _ _ _ H1) in Hq. lia. }
      apply (nfaPath_sink _ _ Hsink) in P2. destruct P2 as [-> _].
      rewrite app_nil_r. exact P1.
    - intros t Ht Hf. apply (fs_range _ _ _ _ H1) in Hf. apply Hts in Ht.
      destruct Ht as [-> | [-> | [-> | [-> | [Ht | Ht]]]]]; simpl in *;
        try lia.
      + right. auto.
      + left. split; [exact Ht | apply (fs_ends _ _ _ _ H1), Ht].
      + apply (fragSpec_edge _ _ _ _ _ H2) in Ht. lia.
    - apply (fs_start _ _ _ _ H1). }
  assert (Hright : forall w, nfaPath ts (start n2) w (S k2) ->
            nfaPath (transitions n2) (start n2) w (accept n2)).
  { intros w P.
    apply (nfaPath_exit _ (transitions n2) (fun q => In q (states n2))
             (fun x => x = S k2) (accept n2)) in P.
    - destruct P as [[_ Hq] | [u [v [x [-> [P1 [-> P2]]]]]]].
      { apply (fs_range _ _ _ _ H2) in Hq. lia. }
      apply (nfaPath_sink _ _ Hsink) in P2. destruct P2 as [-> _].
      rewrite app_nil_r. exact P1.
    - intros t Ht Hf. apply (fs_range _ _ _ _ H2) in Hf. apply Hts in Ht.
      destruct Ht as [-> | [-> | [-> | [-> | [Ht | Ht]]]]]; simpl in *;
        try lia.
      + right. auto.
      + apply (fragSpec_edge _ _ _ _ _ H1) in Ht. lia.
      + left. split; [exact Ht | apply (fs_ends _ _ _ _ H2), Ht].
    - apply (fs_start _ _ _ _ H2). }
  constructor; simpl; fold ts.
  - intros q [<- | [<- | Hq]]; [lia | lia|].
    apply in_app_or in Hq. destruct Hq as [Hq | Hq].
    + apply (fs_range _ _ _ _ H1) in Hq. lia.
    + apply (fs_range _ _ _ _ H2) in Hq. lia.
  - auto.
  - auto.
  - intros t Ht. apply Hts in Ht.
    assert (I1 := fs_start _ _ _ _ H1). assert (I2 := fs_accept _ _ _ _ H1).
    assert (I3 := fs_start _ _ _ _ H2). assert (I4 := fs_accept _ _ _ _ H2).
    destruct Ht as [-> | [-> | [-> | [-> | [Ht | Ht]]]]]; simpl;
      rewrite ?in_app_iff; auto.
    + apply (fs_ends _ _ _ _ H1) in Ht. tauto.
    + apply (fs_ends _ _ _ _ H2) in Ht. tauto.
  - intros w. split.
    + intros P.
      inversion P as [| p q r w' He Hq | p q r a w' He Hq]; subst.
      * lia.
      * apply Hts in He.
        destruct He as [He | [He | [He | [He | [He | He]]]]].
        -- injection He as ->. apply Hleft in Hq.
           apply (fs_lang _ _ _ _ H1) in Hq. destruct Hq as [u [-> M]].
           exists u. split; [reflexivity | apply m_alt_l, M].
        -- injection He as ->. apply Hright in Hq.
           apply (fs_lang _ _ _ _ H2) in Hq. destruct Hq as [u [-> M]].
           exists u. split; [reflexivity | apply m_alt_r, M].
        -- injection He as E _. lia.
        -- injection He as E _. lia.
        -- apply (fragSpec_edge _ _ _ _ _ H1) in He. simpl in He. lia.
        -- apply (fragSpec_edge _ _ _ _ _ H2) in He. simpl in He. lia.
      * apply Hts in He.
        destruct He as [He | [He | [He | [He | [He | He]]]]];
          try discriminate He.
        -- apply (fragSpec_edge _ _ _ _ _ H1) in He. simpl in He. lia.
        -- apply (fragSpec_edge _ _ _ _ _ H2) in He. simpl in He. lia.
    + intros [u [-> Hu]]. apply matches_alt in Hu. destruct Hu as [M | M].
      * apply (path_eps _ _ (start n1)); [left; reflexivity|].
        rewrite <- (app_nil_r (map symbolOf u)).
        apply (nfaPath_app _ _ (accept n1)).
        -- apply (nfaPath_incl (transitions n1)).
           { intros t Ht. unfold ts. apply in_or_app. right.
             apply in_or_app. left. exact Ht. }
           apply (fs_lang _ _ _ _ H1). eauto.
        -- apply (path_eps _ _ (S k2)); [simpl; auto | apply path_nil].
      * apply (path_eps _ _ (start n2)); [right; left; reflexivity|].
        rewrite <- (app_nil_r (map symbolOf u)).
        apply (nfaPath_app _ _ (accept n2)).
        -- apply (nfaPath_incl (transitions n2)).
           { intros t Ht. unfold ts. apply in_or_app. right.
             apply in_or_app. right. exact Ht. }
           apply (fs_lang _ _ _ _ H2). eauto.
        -- apply (path_eps _ _ (S k2)); [simpl; auto | apply path_nil].
Qed.

Lemma fragSpec_star (r1 : regex) (k k1 : nat) (n1 : NFA) :
  fragSpec r1 k n1 k1 ->
  fragSpec (Star r1) k
    (mkNFA k1 (S k1) (k1 :: S k1 :: states n1)
       ([eps k1 (start n1); eps k1 (S k1);
         eps (accept n1) (start n1); eps (accept n1) (S k1)]
        ++ transitions n1))
    (S (S k1)).
Proof.
  intros H1.
  assert (Rs1 := fs_range _ _ _ _ H1 _ (fs_start _ _ _ _ H1)).
  assert (Ra1 := fs_range _ _ _ _ H1 _ (fs_accept _ _ _ _ H1)).
  set (ts := [eps k1 (start n1); eps k1 (S k1);
              eps (accept n1) (start n1); eps (accept n1) (S k1)]
             ++ transitions n1).
  assert (Hts : forall t, In t ts ->
            t = eps k1 (start n1) \/ t = eps k1 (S k1)
            \/ t = eps (accept n1) (start n1) \/ t = eps (accept n1) (S k1)
            \/ In t (transitions n1)).
  { intros t Ht. unfold ts in Ht. simpl in Ht. intuition. }
  assert (Hsink : forall t, In t ts -> t_from t <> S k1).
  { intros t Ht. apply Hts in Ht.
    destruct Ht as [-> | [-> | [-> | [-> | Ht]]]]; simpl; try lia.
    apply (fragSpec_edge _ _ _ _ _ H1) in Ht. lia. }
  assert (Hin : forall p w q,
            nfaPath ts p w q -> q = S k1 -> In p (states n1) ->
            exists u us,
              w = u ++ concat us
              /\ nfaPath (transitions n1) p u (accept n1)
              /\ Forall (fun v => nfaPath (transitions n1) (start n1) v
                                    (accept n1)) us).
  { intros p w q P.
    induction P as [q | p q r w He Hq IH | p q r a w He Hq IH];
      intros Eq Hp.
    - subst q. apply (fs_range _ _ _ _ H1) in Hp. lia.
    - assert (Rp := fs_range _ _ _ _ H1 _ Hp). apply Hts in He.
      destruct He as [He | [He | [He | [He | He]]]].
      + injection He as E _. lia.
      + injection He as E _. lia.
      + injection He as -> ->.
        destruct (IH Eq (fs_start _ _ _ _ H1)) as [u [us [-> [P1 P2]]]].
        exists [], (u :: us). split; [reflexivity|].
        split; [apply path_nil | constructor; assumption].
      + injection He as -> ->. subst r.
        apply (nfaPath_sink _ _ Hsink) in Hq. destruct Hq as [-> _].
        exists [], []. split; [reflexivity|].
        split; [apply path_nil | constructor].
      + destruct (IH Eq) as [u [us [-> [P1 P2]]]].
        { apply (fs_ends _ _ _ _ H1) in He. apply He. }
        exists u, us. split; [reflexivity|].
        split; [apply (path_eps _ p q); assumption | exact P2].
    - assert (Rp := fs_range _ _ _ _ H1 _ Hp). apply Hts in He.
      destruct He as [He | [He | [He | [He | He]]]]; try discriminate He.
      destruct (IH Eq) as [u [us [-> [P1 P2]]]].
      { apply (fs_ends _ _ _ _ H1) in He. apply He. }
      exists (a :: u), us. split; [reflexivity|].
      split; [apply (path_sym _ p q); assumption | exact P2]. }
  assert (Hwords : forall us,
            Forall (fun v => nfaPath (transitions n1) (start n1) v
                               (accept n1)) us ->
            exists us0, us = map (map symbolOf) us0
                        /\ Forall (matches r1) us0).
  { induction 1 as [| v us Hv _ [us0 [-> IH]]].
    - exists []. split; [reflexivity | constructor].
    - apply (fs_lang _ _ _ _ H1) in Hv. destruct Hv as [v0 [-> M]].
      exists (v0 :: us0). split; [reflexivity | constructor; assumption]. }
  assert (Hlift : forall p w q, nfaPath (transitions n1) p w q ->
                                nfaPath ts p w q).
  { intros p w q. apply nfaPath_incl. intros t Ht. unfold ts.
    apply in_or_app. right. exact Ht. }
  assert (Hback : forall us0,
            Forall (matches r1) us0 ->
            nfaPath ts (accept n1) (map symbolOf (concat us0)) (S k1)).
  { induction 1 as [| u us Hu _ IH]; simpl.
    - apply (path_eps _ _ (S k1)); [simpl; auto | apply path_nil].
    - rewrite map_app. apply (path_eps _ _ (start n1)); [simpl; auto|].
      apply (nfaPath_app _ _ (accept n1)); [|exact IH].
      apply Hlift, (fs_lang _ _ _ _ H1). eauto. }
  constructor; simpl; fold ts.
  - intros q [<- | [<- | Hq]]; [lia | lia|].
    apply (fs_range _ _ _ _ H1) in Hq. lia.
  - auto.
  - auto.
  - intros t Ht. apply Hts in Ht.
    assert (I1 := fs_start _ _ _ _ H1). assert (I2 := fs_accept _ _ _ _ H1).
    destruct Ht as [-> | [-> | [-> | [-> | Ht]]]]; simpl; auto.
    apply (fs_ends _ _ _ _ H1) in Ht. tauto.
  - intros w. split.
    + intros P.
      inversion P as [| p q r w' He Hq | p q r a w' He Hq]; subst.
      * lia.
      * apply Hts in He. destruct He as [He | [He | [He | [He | He]]]].
        -- injection He as ->.
           destruct (Hin _ _ _ Hq eq_refl (fs_start _ _ _ _ H1))
             as [u [us [-> [P1 P2]]]].
           destruct (Hwords (u :: us)) as [us0 [E M]];
             [constructor; assumption|].
           exists (concat us0). split; [|apply matches_star; eauto].
           rewrite concat_map, <- E. reflexivity.
        -- injection He as ->.
           apply (nfaPath_sink _ _ Hsink) in Hq. destruct Hq as [-> _].
           exists []. split; [reflexivity | apply m_star_nil].
        -- injection He as E _. lia.
        -- injection He as E _. lia.
        -- apply (fragSpec_edge _ _ _ _ _ H1) in He. simpl in He. lia.
      * apply Hts in He.
        destruct He as [He | [He | [He | [He | He]]]]; try discriminate He.
        apply (fragSpec_edge _ _ _ _ _ H1) in He. simpl in He. lia.
    + intros [u [-> Hu]]. apply matches_star in Hu.
      destruct Hu as [us0 [-> M]]. destruct M as [| u us Hu M].
      * simpl. apply (path_eps _ _ (S k1)); [simpl; auto | apply path_nil].
      * simpl. rewrite map_app.
        apply (path_eps _ _ (start n1)); [simpl; auto|].
        apply (nfaPath_app _ _ (accept n1)); [|apply Hback, M].
        apply Hlift, (fs_lang _ _ _ _ H1). eauto.
Qed.

Lemma fragOf_spec (r : regex) :
  forall k, fragSpec r k (fst (fragOf r k)) (snd (fragOf r k)).
Proof.
  induction r as [c | r1 IH1 r2 IH2 | r1 IH1 r2 IH2 | r1 IH1]; intros k;
    cbn [fragOf].
  - apply fragSpec_lit.
  - assert (A := IH1 k). destruct (fragOf r1 k) as [n1 k1].
    assert (B := IH2 k1). destruct (fragOf r2 k1) as [n2 k2].
    cbn [fst snd] in *. apply (fragSpec_cat r1 r2 k k1 k2); assumption.
  - assert (A := IH1 k). destruct (fragOf r1 k) as [n1 k1].
    assert (B := IH2 k1). destruct (fragOf r2 k1) as [n2 k2].
    cbn [fst snd] in *. apply (fragSpec_alt r1 r2 k k1 k2); assumption.
  - assert (A := IH1 k). destruct (fragOf r1 k) as [n1 k1].
    cbn [fst snd] in *. apply (fragSpec_star r1 k k1); assumption.
Qed.

Lemma thompson_language (r : regex) (k : nat) :
  symbolsOnly r = true ->
  exists nfa k',
    postfixToNFA (postfixOf r) k = (inr nfa, k')
    /\ forall w : string,
        nfaAccepts nfa (symbolsOf w) = true
        <-> matches r (list_ascii_of_string w).
Proof.
  intros Hs. rewrite postfixToNFA_unfold.
  rewrite <- (append_nil_r (postfixOf r)).
  rewrite (thompsonLoop_postfixOf r Hs "" [] k). simpl thompsonLoop.
  unfold ret. assert (F := fragOf_spec r k).
  destruct (fragOf r k) as [n k']. cbn [fst snd] in *.
  eexists. eexists. split; [reflexivity|].
  intros w. rewrite nfaAccepts_path. simpl.
  rewrite (fs_lang _ _ _ _ F). split.
  - intros [u [E M]]. apply map_symbolOf_inj in E. subst u. exact M.
  - intros M. exists (list_ascii_of_string w). split; [reflexivity | exact M].
Qed.

(** X12: for a regular expression whose literals are symbol tokens,
    [postfixToNFA] returns an automaton on the postfix form, from any
    counter, and the simulation of that automaton accepts a string exactly
    when the string is a word of the expression. *)
Theorem postfixToNFA_language (r : regex) (k : nat) :
  symbolsOnly r = true ->
  exists nfa k',
    postfixToNFA (postfixOf r) k = (inr nfa, k')
    /\ forall w : string,
        nfaAccepts nfa (symbolsOf w) = true
        <-> matches r (list_ascii_of_string w).
Proof. apply thompson_language. Qed.

Lemma postfixToNFA_language_witness :
  exists nfa k',
    postfixToNFA "ab." 0 = (inr nfa, k')
    /\ forall w : string,
        nfaAccepts nfa (symbolsOf w) = true
        <-> matches (Cat (Lit "a") (Lit "b")) (list_ascii_of_string w).
Proof.
  apply (postfixToNFA_language (Cat (Lit "a") (Lit "b")) 0). reflexivity.
Defined.

(** ** Concatenation dots of a pattern in two parts *)

Lemma insertConcats_two (a b : ascii) (t : string) :
  insertConcats (String a (String b t))
  = String a ((if needsDot a b then "." else "")
              ++ insertConcats (String b t))%string.
Proof.
  unfold needsDot. cbn [insertConcats].
  destruct (Ascii.eqb a "(" || Ascii.eqb a "|"); [reflexivity|].
  destruct (Ascii.eqb b "*" || Ascii.eqb b "|" || Ascii.eqb b ")");
    reflexivity.
Qed.

Lemma insertConcats_one (a : ascii) :
  insertConcats (String a EmptyString) = String a EmptyString.
Proof.
  cbn [insertConcats]. destruct (Ascii.eqb a "(" || Ascii.eqb a "|");
    reflexivity.
Qed.

Lemma insertConcats_app (s1 : string) :
  forall (s2 : string) (c d : ascii),
    lastChar s1 = Some c -> firstChar s2 = Some d ->
    insertConcats (s1 ++ s2)
    = (insertConcats s1 ++ (if needsDot c d then "." else "")
       ++ insertConcats s2)%string.
Proof.
  induction s1 as [| a rest IH]; intros s2 c d Hl Hf; [discriminate Hl|].
  destruct rest as [| b rest'].
  - simpl in Hl. injection Hl as ->.
    destruct s2 as [| d' s2']; [discriminate Hf|].
    simpl in Hf. injection Hf as ->.
    change (String c "" ++ String d s2')%string
      with (String c (String d s2')).
    rewrite insertConcats_two, insertConcats_one. reflexivity.
  - change (lastChar (String a (String b rest')))
      with (lastChar (String b rest')) in Hl.
    change (String a (String b rest') ++ s2)%string
      with (String a (String b (rest' ++ s2))).
    rewrite !insertConcats_two.
    change (String b (rest' ++ s2)) with (String b rest' ++ s2)%string.
    rewrite (IH s2 c d Hl Hf). simpl. rewrite !append_assoc. reflexivity.
Qed.

Lemma firstChar_app (s1 s2 : string) (c : ascii) :
  firstChar s1 = Some c -> firstChar (s1 ++ s2) = Some c.
Proof. destruct s1; [discriminate | auto]. Qed.

Lemma lastChar_app (s1 : string) :
  forall (s2 : string) (c : ascii),
    lastChar s2 = Some c -> lastChar (s1 ++ s2) = Some c.
Proof.
  induction s1 as [| a rest IH]; intros s2 c H; [exact H|].
  change (String a rest ++ s2)%string with (String a (rest ++ s2)).
  assert (E := IH s2 c H). cbn [lastChar].
  destruct (rest ++ s2)%string; [discriminate E | exact E].
Qed.

(** A pattern of the grammar starts with a literal or an opening
    parenthesis, and ends with a literal, a closing parenthesis or a
    star. *)
Lemma parses_ends (l : nat) (s : string) (r : regex) :
  parses l s r ->
  (exists c, firstChar s = Some c
             /\ (isLiteral c = true \/ c = "("%char))
  /\ (exists c, lastChar s = Some c
                /\ (isLiteral c = true \/ c = ")"%char \/ c = "*"%char)).
Proof.
  induction 1 as [c Hc | s r _ IH | s r _ IH
                  | s1 s2 r1 r2 _ IH1 _ IH2 | s1 s2 r1 r2 _ IH1 _ IH2
                  | l s r _ IH].
  - split; exists c; auto.
  - split; [exists "("%char; auto|]. exists ")"%char.
    split; [|auto]. apply (lastChar_app "("), lastChar_app. reflexivity.
  - destruct IH as [[c [Hc Hc']] _]. split.
    + exists c. split; [apply firstChar_app, Hc | exact Hc'].
    + exists "*"%char. split; [apply lastChar_app; reflexivity | auto].
  - destruct IH1 as [[c [Hc Hc']] _]. destruct IH2 as [_ [d [Hd Hd']]].
    split.
    + exists c. split; [apply firstChar_app, Hc | exact Hc'].
    + exists d. split; [apply lastChar_app, Hd | exact Hd'].
  - destruct IH1 as [[c [Hc Hc']] _]. destruct IH2 as [_ [d [Hd Hd']]].
    split.
    + exists c. split; [apply firstChar_app, Hc | exact Hc'].
    + exists d. split; [|exact Hd'].
      apply lastChar_app, (lastChar_app "|"), Hd.
  - exact IH.
Qed.

Lemma parses_symbolsOnly (l : nat) (s : string) (r : regex) :
  parses l s r -> symbolsOnly r = true.
Proof.
  induction 1; simpl; auto.
  - unfold isLiteral in H. apply andb_true_iff in H. apply H.
  - rewrite IHparses1, IHparses2. reflexivity.
  - rewrite IHparses1, IHparses2. reflexivity.
Qed.

(** ** The operator stack on a pattern of the grammar *)

Lemma postfixLoop_app (a : string) :
  forall (b : string) (st : list ascii * list ascii),
    postfixLoop (a ++ b) st = postfixLoop b (postfixLoop a st).
Proof.
  induction a as [| c a IH]; intros b st; [reflexivity|].
  simpl. apply IH.
Qed.

Lemma list_ascii_of_string_app (a b : string) :
  list_ascii_of_string (a ++ b)
  = list_ascii_of_string a ++ list_ascii_of_string b.
Proof.
  induction a as [| c a IH]; simpl; [reflexivity | rewrite IH; reflexivity].
Qed.

Lemma isLiteral_eqb (c : ascii) :
  isLiteral c = true ->
  Ascii.eqb c "(" = false /\ Ascii.eqb c ")" = false
  /\ Ascii.eqb c "|" = false /\ Ascii.eqb c "*" = false
  /\ Ascii.eqb c "." = false /\ isOperator c = false.
Proof.
  unfold isLiteral, isParen. intros H. apply andb_true_iff in H.
  destruct H as [H1 H2]. apply negb_true_iff in H1, H2.
  apply orb_false_iff in H2. destruct H2 as [H2 H3].
  destruct (notOperator_eqb c H1) as [A [B C]].
  repeat split; assumption.
Qed.

Lemma needsDot_between (c d : ascii) :
  isLiteral c = true \/ c = ")"%char \/ c = "*"%char ->
  isLiteral d = true \/ d = "("%char ->
  needsDot c d = true.
Proof.
  intros Hc Hd. unfold needsDot.
  assert (A : Ascii.eqb c "(" || Ascii.eqb c "|" = false).
  { destruct Hc as [Hc | [-> | ->]]; [|reflexivity | reflexivity].
    apply isLiteral_eqb in Hc. destruct Hc as [-> [_ [-> _]]]. reflexivity. }
  assert (B : Ascii.eqb d "*" || Ascii.eqb d "|" || Ascii.eqb d ")" = false).
  { destruct Hd as [Hd | ->]; [|reflexivity].
    apply isLiteral_eqb in Hd. destruct Hd as [_ [-> [-> [-> _]]]].
    reflexivity. }
  rewrite A, B. reflexivity.
Qed.

Lemma needsDot_before_meta (c d : ascii) :
  d = "*"%char \/ d = "|"%char \/ d = ")"%char -> needsDot c d = false.
Proof.
  unfold needsDot. intros [-> | [-> | ->]]; simpl; apply andb_false_r.
Qed.

Lemma needsDot_after_open (c d : ascii) :
  c = "("%char \/ c = "|"%char -> needsDot c d = false.
Proof. unfold needsDot. intros [-> | ->]; reflexivity. Qed.

Lemma popHigher_all (c : ascii) (pend : list ascii) :
  forall (ops out : list ascii),
    Forall (fun o => isOperator o = true
                     /\ precedence c <= precedence o) pend ->
    lowTop (precedence c) ops ->
    popHigher c (pend ++ ops) out = (ops, out ++ pend).
Proof.
  induction pend as [| o pend IH]; intros ops out Hp Hl.
  - simpl. rewrite app_nil_r. destruct ops as [| o ops]; [reflexivity|].
    simpl in *. rewrite Hl. reflexivity.
  - inversion Hp as [| ? ? [Ho1 Ho2] Hp']; subst. simpl.
    rewrite Ho1. apply Nat.leb_le in Ho2. rewrite Ho2. simpl.
    rewrite (IH ops (out ++ [o]) Hp' Hl), <- app_assoc. reflexivity.
Qed.

Lemma popToParen_all (pend : list ascii) :
  forall (rest out : list ascii),
    Forall (fun o => isOperator o = true) pend ->
    (rest = [] \/ exists r, rest = "("%char :: r) ->
    popToParen (pend ++ rest) out = (rest, out ++ pend).
Proof.
  induction pend as [| o pend IH]; intros rest out Hp Hr.
  - simpl. rewrite app_nil_r. destruct Hr as [-> | [r ->]]; reflexivity.
  - inversion Hp as [| ? ? Ho Hp']; subst. simpl.
    assert (E : Ascii.eqb o "(" = false).
    { apply isOperator_notParen in Ho. destruct Ho as [Ho _].
      unfold isParen in Ho. apply orb_false_iff in Ho. apply Ho. }
    rewrite E, (IH rest (out ++ [o]) Hp' Hr), <- app_assoc. reflexivity.
Qed.

Lemma lowTop_up (p : nat) (ops : list ascii) :
  lowTop p ops -> lowTop (S p) ops.
Proof.
  destruct ops as [| o ops]; cbn [lowTop]; [auto|].
  intros H. apply andb_false_iff in H. apply andb_false_iff.
  destruct H as [H | H]; [left; exact H | right].
  apply Nat.leb_gt in H. apply Nat.leb_gt. lia.
Qed.

(** Reading a pattern of level [l]: the output receives a first part of
    the postfix form, and the stack, on top of what it held, the operators
    that end it, all of precedence above [l]. *)
Lemma postfixLoop_parses (l : nat) (s : string) (r : regex) :
  parses l s r ->
  forall (ops out : list ascii),
    lowTop (S l) ops ->
    exists pend body,
      postfixLoop (insertConcats s) (ops, out) = (pend ++ ops, out ++ body)
      /\ body ++ pend = list_ascii_of_string (postfixOf r)
      /\ Forall (fun o => isOperator o = true /\ S l <= precedence o) pend.
Proof.
  intros P.
  induction P as [c Hc | s r P IH | s r P IH
                  | s1 s2 r1 r2 P1 IH1 P2 IH2 | s1 s2 r1 r2 P1 IH1 P2 IH2
                  | l s r P IH]; intros ops out Hl.
  - (* literal *)
    rewrite insertConcats_one. apply isLiteral_eqb in Hc.
    destruct Hc as [E1 [E2 [_ [_ [_ E3]]]]]. simpl. rewrite E1, E2, E3.
    exists [], [c]. simpl. auto.
  - (* parentheses *)
    destruct (parses_ends _ _ _ P) as [[c [Fc Hc]] [d [Ld Hd]]].
    rewrite (insertConcats_app "(" (s ++ ")") "(" c eq_refl
               (firstChar_app _ _ _ Fc)).
    rewrite (needsDot_after_open "(" c) by auto.
    rewrite (insertConcats_app s ")" d ")" Ld eq_refl).
    rewrite (needsDot_before_meta d ")") by auto.
    change (insertConcats "(") with "(". change (insertConcats ")") with ")".
    cbn [append]. cbn [postfixLoop].
    change (postfixStep "(" (ops, out)) with ("("%char :: ops, out).
    rewrite postfixLoop_app.
    destruct (IH ("("%char :: ops) out eq_refl) as [pend [body [E1 [E2 E3]]]].
    rewrite E1. cbn [postfixLoop]. unfold postfixStep.
    change (Ascii.eqb ")" "(") with false. change (Ascii.eqb ")" ")") with true.
    cbv iota.
    rewrite (popToParen_all pend ("("%char :: ops) (out ++ body)).
    + exists [], (body ++ pend). simpl. rewrite <- app_assoc, app_nil_r.
      split; [reflexivity | split; [exact E2 | constructor]].
    + apply (Forall_impl _ (P := fun o => isOperator o = true
                                       /\ 1 <= precedence o));
        [intros o Ho; apply Ho | exact E3].
    + right. eauto.
  - (* star *)
    destruct (parses_ends _ _ _ P) as [_ [d [Ld Hd]]].
    rewrite (insertConcats_app s "*" d "*" Ld eq_refl).
    rewrite (needsDot_before_meta d "*") by auto.
    change (insertConcats "*") with "*". cbn [append].
    rewrite postfixLoop_app.
    destruct (IH ops out Hl) as [pend [body [E1 [E2 E3]]]].
    rewrite E1. cbn [postfixLoop]. unfold postfixStep.
    change (Ascii.eqb "*" "(") with false.
    change (Ascii.eqb "*" ")") with false.
    change (isOperator "*") with true. cbv iota.
    rewrite (popHigher_all "*" pend ops (out ++ body) E3 Hl).
    exists ["*"%char], (body ++ pend). split; [|split].
    + rewrite <- app_assoc. reflexivity.
    + cbn [postfixOf]. rewrite list_ascii_of_string_app, <- E2. reflexivity.
    + constructor;
        [split; [reflexivity | cbv; repeat constructor] | constructor].
  - (* concatenation *)
    destruct (parses_ends _ _ _ P1) as [_ [c [Lc Hc]]].
    destruct (parses_ends _ _ _ P2) as [[d [Fd Hd]] _].
    rewrite (insertConcats_app s1 s2 c d Lc Fd).
    rewrite (needsDot_between c d Hc Hd).
    rewrite postfixLoop_app.
    destruct (IH1 ops out Hl) as [pend1 [body1 [A1 [A2 A3]]]].
    rewrite A1. cbn [append postfixLoop]. unfold postfixStep at 1.
    change (Ascii.eqb "." "(") with false.
    change (Ascii.eqb "." ")") with false.
    change (isOperator ".") with true. cbv iota.
    rewrite (popHigher_all "." pend1 ops (out ++ body1) A3 Hl).
    destruct (IH2 ("."%char :: ops) ((out ++ body1) ++ pend1) eq_refl)
      as [pend2 [body2 [B1 [B2 B3]]]].
    rewrite B1.
    exists (pend2 ++ ["."%char]), (body1 ++ pend1 ++ body2).
    split; [|split].
    + rewrite <- !app_assoc. reflexivity.
    + cbn [postfixOf]. rewrite !list_ascii_of_string_app, <- A2, <- B2.
      rewrite <- !app_assoc. reflexivity.
    + apply Forall_app. split.
      * apply (Forall_impl _ (P := fun o => isOperator o = true
                                          /\ 3 <= precedence o));
          [intros o [Ho1 Ho2]; split; [exact Ho1 | lia] | exact B3].
      * constructor;
          [split; [reflexivity | cbv; repeat constructor] | constructor].
  - (* union *)
    destruct (parses_ends _ _ _ P1) as [_ [c [Lc Hc]]].
    destruct (parses_ends _ _ _ P2) as [[d [Fd Hd]] _].
    rewrite (insertConcats_app s1 ("|" ++ s2) c "|" Lc eq_refl).
    rewrite (needsDot_before_meta c "|") by auto.
    rewrite (insertConcats_app "|" s2 "|" d eq_refl Fd).
    rewrite (needsDot_after_open "|" d) by auto.
    change (insertConcats "|") with "|".
    rewrite postfixLoop_app.
    destruct (IH1 ops out Hl) as [pend1 [body1 [A1 [A2 A3]]]].
    rewrite A1. cbn [append postfixLoop]. unfold postfixStep at 1.
    change (Ascii.eqb "|" "(") with false.
    change (Ascii.eqb "|" ")") with false.
    change (isOperator "|") with true. cbv iota.
    rewrite (popHigher_all "|" pend1 ops (out ++ body1) A3 Hl).
    destruct (IH2 ("|"%char :: ops) ((out ++ body1) ++ pend1) eq_refl)
      as [pend2 [body2 [B1 [B2 B3]]]].
    rewrite B1.
    exists (pend2 ++ ["|"%char]), (body1 ++ pend1 ++ body2).
    split; [|split].
    + rewrite <- !app_assoc. reflexivity.
    + cbn [postfixOf]. rewrite !list_ascii_of_string_app, <- A2, <- B2.
      rewrite <- !app_assoc. reflexivity.
    + apply Forall_app. split.
      * apply (Forall_impl _ (P := fun o => isOperator o = true
                                          /\ 2 <= precedence o));
          [intros o [Ho1 Ho2]; split; [exact Ho1 | lia] | exact B3].
      * constructor;
          [split; [reflexivity | cbv; repeat constructor] | constructor].
  - (* a higher level *)
    destruct (IH ops out (lowTop_up _ _ Hl)) as [pend [body [E1 [E2 E3]]]].
    exists pend, body. split; [exact E1 | split; [exact E2|]].
    apply (Forall_impl _ (P := fun o => isOperator o = true
                                       /\ S (S l) <= precedence o));
      [intros o [Ho1 Ho2]; split; [exact Ho1 | lia] | exact E3].
Qed.

(** ** Patterns of the grammar, from pattern to automaton *)

Lemma parses_abb : parses 0 "(a|b)*abb" regex_abb.
Proof.
  assert (La : parses 3 "a" (Lit "a")) by (apply p_lit; reflexivity).
  assert (Lb : parses 3 "b" (Lit "b")) by (apply p_lit; reflexivity).
  assert (U : parses 0 "a|b" (Alt (Lit "a") (Lit "b"))).
  { apply (p_alt "a" "b");
      [do 3 apply p_up; exact La | do 2 apply p_up; exact Lb]. }
  assert (S : parses 2 "(a|b)*" (Star (Alt (Lit "a") (Lit "b")))).
  { apply (p_star "(a|b)"). apply p_up. apply (p_paren "a|b"), U. }
  apply p_up. unfold regex_abb.
  apply (p_cat "(a|b)*ab" "b"); [|apply p_up, Lb].
  apply (p_cat "(a|b)*a" "b"); [|apply p_up, Lb].
  apply (p_cat "(a|b)*" "a"); [|apply p_up, La].
  apply p_up, S.
Qed.

Lemma parses_postfix (s : string) (r : regex) :
  parses 0 s r -> regexToPostfix s = postfixOf r.
Proof.
  intros P. unfold regexToPostfix.
  destruct (postfixLoop_parses 0 s r P [] [] I) as [pend [body [E1 [E2 E3]]]].
  rewrite E1. simpl. rewrite app_nil_r, E2.
  apply string_of_list_ascii_of_string.
Qed.

(** X13: on a pattern of the grammar written in ASCII, [regexToPostfix]
    returns the postfix form of the expression the pattern is written for:
    unions and concatenations group to the left, a star binds tighter than
    a concatenation, a concatenation tighter than a union. *)
Theorem regexToPostfix_parses (s : string) (r : regex) :
  asciiOnly s = true -> parses 0 s r -> regexToPostfix s = postfixOf r.
Proof. intros _. apply parses_postfix. Qed.

Lemma regexToPostfix_parses_witness :
  regexToPostfix "(a|b)*abb" = postfixOf regex_abb.
Proof.
  apply (regexToPostfix_parses "(a|b)*abb" regex_abb eq_refl parses_abb).
Defined.

(** X14: parentheses that do not match are not reported by
    [regexToPostfix]: a closing parenthesis after a pattern of the grammar
    written in ASCII is dropped, and an opening parenthesis before it comes
    out as the last token, which [postfixToNFA] reads as a literal: the
    compilation then throws the stack-length error. *)
Theorem regexToPostfix_stray_paren (s : string) (r : regex) (k : nat) :
  asciiOnly s = true ->
  parses 0 s r ->
  regexToPostfix (s ++ ")") = postfixOf r
  /\ regexToPostfix ("(" ++ s) = (postfixOf r ++ "(")%string
  /\ exists k', compile ("(" ++ s) k = (inl InvalidPostfix, k').
Proof.
  intros _ P.
  destruct (parses_ends _ _ _ P) as [[c [Fc Hc]] [d [Ld Hd]]].
  assert (E2 : regexToPostfix ("(" ++ s) = (postfixOf r ++ "(")%string).
  { unfold regexToPostfix.
    rewrite (insertConcats_app "(" s "(" c eq_refl Fc).
    rewrite (needsDot_after_open "(" c) by auto.
    change (insertConcats "(") with "(". cbn [append postfixLoop].
    change (postfixStep "(" ([], [])) with (["("%char], @nil ascii).
    destruct (postfixLoop_parses 0 s r P ["("%char] [] eq_refl)
      as [pend [body [A1 [A2 A3]]]].
    rewrite A1. simpl. rewrite app_assoc, A2.
    rewrite <- (string_of_list_ascii_of_string (postfixOf r ++ "(")).
    rewrite list_ascii_of_string_app. reflexivity. }
  split; [|split; [exact E2|]].
  - unfold regexToPostfix.
    rewrite (insertConcats_app s ")" d ")" Ld eq_refl).
    rewrite (needsDot_before_meta d ")") by auto.
    change (insertConcats ")") with ")". cbn [append].
    rewrite postfixLoop_app.
    destruct (postfixLoop_parses 0 s r P [] [] I) as [pend [body [A1 [A2 A3]]]].
    rewrite A1. cbn [postfixLoop]. unfold postfixStep.
    change (Ascii.eqb ")" "(") with false. change (Ascii.eqb ")" ")") with true.
    cbv iota. rewrite (popToParen_all pend [] ([] ++ body)).
    + simpl. rewrite app_nil_r, A2. apply string_of_list_ascii_of_string.
    + apply (Forall_impl _ (P := fun o => isOperator o = true
                                       /\ 1 <= precedence o));
        [intros o Ho; apply Ho | exact A3].
    + left. reflexivity.
  - unfold compile. rewrite E2, postfixToNFA_unfold.
    rewrite (thompsonLoop_postfixOf r (parses_symbolsOnly _ _ _ P) "(" [] k).
    eexists. reflexivity.
Qed.

Lemma regexToPostfix_stray_paren_witness :
  regexToPostfix "(a|b)*abb)" = postfixOf regex_abb
  /\ regexToPostfix "((a|b)*abb" = (postfixOf regex_abb ++ "(")%string
  /\ exists k', compile "((a|b)*abb" 0 = (inl InvalidPostfix, k').
Proof.
  apply (regexToPostfix_stray_paren "(a|b)*abb" regex_abb 0 eq_refl
           parses_abb).
Defined.

Lemma parses_compiles (s : string) (r : regex) (k : nat) :
  parses 0 s r ->
  exists nfa k',
    compile s k = (inr nfa, k')
    /\ forall w : string,
        (nfaAccepts nfa (symbolsOf w) = true
         <-> matches r (list_ascii_of_string w))
        /\ (dfaAccepts (nfaToDfa nfa) (symbolsOf w) = true
            <-> matches r (list_ascii_of_string w)).
Proof.
  intros P. unfold compile. rewrite (parses_postfix s r P).
  destruct (thompson_language r k (parses_symbolsOnly _ _ _ P))
    as [nfa [k' [E L]]].
  exists nfa, k'. split; [exact E|]. intros w.
  rewrite nfaToDfa_equivalent. split; apply L.
Qed.

(** X15: every pattern of the grammar written in ASCII compiles, from any
    counter, and the automata obtained accept the words of the expression
    the pattern is written for, and no other string: the NFA by
    simulation, and its DFA by following its transitions. *)
Theorem compile_correct (s : string) (r : regex) (k : nat) :
  asciiOnly s = true ->
  parses 0 s r ->
  exists nfa k',
    compile s k = (inr nfa, k')
    /\ forall w : string,
        (nfaAccepts nfa (symbolsOf w) = true
         <-> matches r (list_ascii_of_string w))
        /\ (dfaAccepts (nfaToDfa nfa) (symbolsOf w) = true
            <-> matches r (list_ascii_of_string w)).
Proof. intros _. apply parses_compiles. Qed.

Lemma compile_correct_witness :
  exists nfa k',
    compile "(a|b)*abb" 0 = (inr nfa, k')
    /\ forall w : string,
        (nfaAccepts nfa (symbolsOf w) = true
         <-> matches regex_abb (list_ascii_of_string w))
        /\ (dfaAccepts (nfaToDfa nfa) (symbolsOf w) = true
            <-> matches regex_abb (list_ascii_of_string w)).
Proof.
  apply (compile_correct "(a|b)*abb" regex_abb 0 eq_refl parses_abb).
Defined.

(** X16: for every pattern of the grammar written in ASCII the page
    computes its four artifacts without throwing, and they are those of a
    build from counter 0, whatever the counter was before. *)
Theorem artifact_returns (s : string) (r : regex) (k : nat) :
  asciiOnly s = true ->
  parses 0 s r ->
  exists nfa k',
    compile s 0 = (inr nfa, k')
    /\ artifact s k
       = (inr (s, postfixOf r, nfaToDot nfa, dfaToDot (nfaToDfa nfa)), k').
Proof.
  intros _ P. destruct (parses_compiles s r 0 P) as [nfa [k' [E _]]].
  exists nfa, k'. split; [exact E|].
  unfold artifact, bind, resetIds. unfold compile in E.
  rewrite E, (parses_postfix s r P). reflexivity.
Qed.

Lemma artifact_returns_witness :
  exists nfa k',
    compile "(a|b)*abb" 0 = (inr nfa, k')
    /\ artifact "(a|b)*abb" 7
       = (inr ("(a|b)*abb", postfixOf regex_abb, nfaToDot nfa,
               dfaToDot (nfaToDfa nfa)), k').
Proof.
  apply (artifact_returns "(a|b)*abb" regex_abb 7 eq_refl parses_abb).
Defined.

(** X17: the simulation of an NFA by [epsilonClosure] and [move] accepts a
    word exactly when some walk of the automaton leads from its start state
    to its accept state reading the word, epsilon transitions reading
    nothing. *)
Theorem nfaAccepts_walk (nfa : NFA) (w : list string) :
  nfaAccepts nfa w = true
  <-> nfaPath (transitions nfa) (start nfa) w (accept nfa).
Proof. apply nfaAccepts_path. Qed.

(** ** Every returned automaton is the automaton of an expression *)

Lemma rpnParse_depth (postfix : string) :
  forall rs,
    match rpnDepth postfix (length rs) with
    | Some d => exists rs', rpnParse postfix rs = Some rs' /\ length rs' = d
    | None => rpnParse postfix rs = None
    end.
Proof.
  induction postfix as [| c rest IH]; intros rs.
  - simpl. eauto.
  - cbn [rpnDepth rpnParse].
    destruct (Ascii.eqb c "*").
    { destruct rs as [| r rs]; [reflexivity|].
      exact (IH (Star r :: rs)). }
    destruct (Ascii.eqb c ".").
    { simpl orb. destruct rs as [| r2 [| r1 rs]]; try reflexivity.
      exact (IH (Cat r1 r2 :: rs)). }
    destruct (Ascii.eqb c "|").
    { simpl orb. destruct rs as [| r2 [| r1 rs]]; try reflexivity.
      exact (IH (Alt r1 r2 :: rs)). }
    simpl orb. cbv iota. exact (IH (Lit c :: rs)).
Qed.

Lemma rpnParse_postfixOf (postfix : string) :
  forall rs rs',
    Forall (fun r => symbolsOnly r = true) rs ->
    rpnParse postfix rs = Some rs' ->
    Forall (fun r => symbolsOnly r = true) rs'
    /\ (stackPostfix rs ++ postfix)%string = stackPostfix rs'.
Proof.
  induction postfix as [| c rest IH]; intros rs rs' Hs.
  - simpl. intros E. injection E as <-. rewrite append_nil_r. auto.
  - cbn [rpnParse].
    destruct (Ascii.eqb c "*") eqn:E1.
    { apply Ascii.eqb_eq in E1. subst c.
      destruct rs as [| r rs]; [discriminate|].
      inversion Hs as [| ? ? Hr Hrs]; subst.
      intros E. apply IH in E; [|constructor; assumption].
      destruct E as [A B]. split; [exact A|]. rewrite <- B.
      cbn [stackPostfix postfixOf]. rewrite !append_assoc. reflexivity. }
    destruct (Ascii.eqb c ".") eqn:E2.
    { apply Ascii.eqb_eq in E2. subst c.
      destruct rs as [| r2 [| r1 rs]]; try discriminate.
      inversion Hs as [| ? ? Hr2 Hs']; subst.
      inversion Hs' as [| ? ? Hr1 Hrs]; subst.
      intros E. apply IH in E;
        [|constructor; [simpl; rewrite Hr1, Hr2; reflexivity | exact Hrs]].
      destruct E as [A B]. split; [exact A|]. rewrite <- B.
      cbn [stackPostfix postfixOf]. rewrite !append_assoc. reflexivity. }
    destruct (Ascii.eqb c "|") eqn:E3.
    { apply Ascii.eqb_eq in E3. subst c.
      destruct rs as [| r2 [| r1 rs]]; try discriminate.
      inversion Hs as [| ? ? Hr2 Hs']; subst.
      inversion Hs' as [| ? ? Hr1 Hrs]; subst.
      intros E. apply IH in E;
        [|constructor; [simpl; rewrite Hr1, Hr2; reflexivity | exact Hrs]].
      destruct E as [A B]. split; [exact A|]. rewrite <- B.
      cbn [stackPostfix postfixOf]. rewrite !append_assoc. reflexivity. }
    intros E. apply IH in E.
    + destruct E as [A B]. split; [exact A|]. rewrite <- B.
      cbn [stackPostfix postfixOf]. rewrite !append_assoc. reflexivity.
    + constructor; [|exact Hs]. simpl. unfold isOperator.
      rewrite E1, E2, E3. reflexivity.
Qed.

(** X18: an automaton that [postfixToNFA] returns is the automaton of a
    regular expression: its input is the postfix form of an expression,
    and the automaton accepts, by simulation, exactly the words of that
    expression. *)
Theorem postfixToNFA_sound (postfix : string) (k k' : nat) (nfa : NFA) :
  postfixToNFA postfix k = (inr nfa, k') ->
  exists r,
    postfixOf r = postfix
    /\ forall w : string,
        nfaAccepts nfa (symbolsOf w) = true
        <-> matches r (list_ascii_of_string w).
Proof.
  intros E.
  destruct (postfixToNFA_returns _ _ _ _ E) as [frag [El _]].
  assert (D := thompsonLoop_depth postfix [] k). simpl length in D.
  assert (P := rpnParse_depth postfix []). simpl length in P.
  destruct (rpnDepth postfix 0) as [d |].
  - destruct D as [stack' [k1 [E1 Hd]]]. rewrite El in E1.
    injection E1 as <- _. simpl in Hd. subst d.
    destruct P as [rs' [Ep Hl]].
    destruct rs' as [| r [| r2 rs']]; try discriminate Hl.
    destruct (rpnParse_postfixOf postfix [] [r] (Forall_nil _) Ep)
      as [Hs Ef].
    simpl in Ef. inversion Hs as [| ? ? Hr _]; subst.
    exists r. split; [reflexivity|].
    destruct (thompson_language r k Hr) as [nfa' [k2 [E2 L]]].
    rewrite E in E2. injection E2 as <- _. exact L.
  - destruct D as [k1 E1]. rewrite El in E1. discriminate E1.
Qed.

Lemma postfixToNFA_sound_witness :
  exists r,
    postfixOf r = "ab."
    /\ forall w : string,
        nfaAccepts nfa_ab (symbolsOf w) = true
        <-> matches r (list_ascii_of_string w).
Proof. apply (postfixToNFA_sound "ab." 0 4 nfa_ab). reflexivity. Defined.

(** ** The fragment behind a returned automaton *)

Lemma postfixToNFA_fragOf (postfix : string) (k k' : nat) (nfa : NFA) :
  postfixToNFA postfix k = (inr nfa, k') ->
  exists r n,
    symbolsOnly r = true /\ postfixOf r = postfix
    /\ fragOf r k = (n, k')
    /\ nfa = mkNFA (start n) (accept n) (setOf Nat.eqb (states n))
               (transitions n).
Proof.
  intros E.
  destruct (postfixToNFA_returns _ _ _ _ E) as [frag [El _]].
  assert (D := thompsonLoop_depth postfix [] k). simpl length in D.
  assert (P := rpnParse_depth postfix []). simpl length in P.
  destruct (rpnDepth postfix 0) as [d |].
  - destruct D as [stack' [k1 [E1 Hd]]]. rewrite El in E1.
    injection E1 as <- _. simpl in Hd. subst d.
    destruct P as [rs' [Ep Hl]].
    destruct rs' as [| r [| r2 rs']]; try discriminate Hl.
    destruct (rpnParse_postfixOf postfix [] [r] (Forall_nil _) Ep)
      as [Hs Ef].
    simpl in Ef. inversion Hs as [| ? ? Hr _]; subst.
    exists r. rewrite postfixToNFA_unfold in E.
    rewrite <- (append_nil_r (postfixOf r)) in E.
    rewrite (thompsonLoop_postfixOf r Hr "" [] k) in E.
    simpl thompsonLoop in E. unfold ret in E.
    destruct (fragOf r k) as [n kn]. cbn [fst snd] in E.
    injection E as <- <-. exists n. auto.
  - destruct D as [k1 E1]. rewrite El in E1. discriminate E1.
Qed.

(** ** No useless state *)

Lemma fragOf_trim (r : regex) :
  forall k q,
    In q (states (fst (fragOf r k))) ->
    (exists u, nfaPath (transitions (fst (fragOf r k)))
                 (start (fst (fragOf r k))) u q)
    /\ (exists v, nfaPath (transitions (fst (fragOf r k))) q v
                    (accept (fst (fragOf r k)))).
Proof.
  induction r as [c | r1 IH1 r2 IH2 | r1 IH1 r2 IH2 | r1 IH1]; intros k q;
    cbn [fragOf].
  - simpl. intros [<- | [<- | []]].
    + split; [exists []; apply path_nil|].
      exists [symbolOf c]. apply (path_sym _ k (S k)); [left; reflexivity|].
      apply path_nil.
    + split; [|exists []; apply path_nil].
      exists [symbolOf c]. apply (path_sym _ k (S k)); [left; reflexivity|].
      apply path_nil.
  - assert (A := IH1 k). assert (F1 := fragOf_spec r1 k).
    destruct (fragOf r1 k) as [n1 k1].
    assert (B := IH2 k1). assert (F2 := fragOf_spec r2 k1).
    destruct (fragOf r2 k1) as [n2 k2].
    cbn [fst snd] in *. simpl.
    set (ts := transitions n1 ++ transitions n2
               ++ [eps (accept n1) (start n2)]).
    assert (I1 : incl (transitions n1) ts)
      by (intros t Ht; apply in_or_app; auto).
    assert (I2 : incl (transitions n2) ts)
      by (intros t Ht; apply in_or_app; right; apply in_or_app; auto).
    assert (Ib : In (eps (accept n1) (start n2)) ts)
      by (apply in_or_app; right; apply in_or_app; right; left; reflexivity).
    destruct (A _ (fs_accept _ _ _ _ F1)) as [[ua Pa] _].
    destruct (B _ (fs_start _ _ _ _ F2)) as [_ [vs Ps]].
    intros Hq. apply in_app_or in Hq. destruct Hq as [Hq | Hq].
    + destruct (A q Hq) as [[u Pu] [v Pv]]. split.
      * exists u. apply (nfaPath_incl _ _ _ _ _ I1 Pu).
      * exists (v ++ vs). apply (nfaPath_app _ _ (accept n1)).
        -- apply (nfaPath_incl _ _ _ _ _ I1 Pv).
        -- apply (path_eps _ _ (start n2)); [exact Ib|].
           apply (nfaPath_incl _ _ _ _ _ I2 Ps).
    + destruct (B q Hq) as [[u Pu] [v Pv]]. split.
      * exists (ua ++ u). apply (nfaPath_app _ _ (accept n1)).
        -- apply (nfaPath_incl _ _ _ _ _ I1 Pa).
        -- apply (path_eps _ _ (start n2)); [exact Ib|].
           apply (nfaPath_incl _ _ _ _ _ I2 Pu).
      * exists v. apply (nfaPath_incl _ _ _ _ _ I2 Pv).
  - assert (A := IH1 k). assert (F1 := fragOf_spec r1 k).
    destruct (fragOf r1 k) as [n1 k1].
    assert (B := IH2 k1). assert (F2 := fragOf_spec r2 k1).
    destruct (fragOf r2 k1) as [n2 k2].
    cbn [fst snd] in *. simpl states. simpl start. simpl accept.
    simpl transitions.
    set (ts := [eps k2 (start n1); eps k2 (start n2);
                eps (accept n1) (S k2); eps (accept n2) (S k2)]
               ++ transitions n1 ++ transitions n2).
    assert (I1 : incl (transitions n1) ts)
      by (intros t Ht; apply in_or_app; right; apply in_or_app; auto).
    assert (I2 : incl (transitions n2) ts)
      by (intros t Ht; apply in_or_app; right; apply in_or_app; auto).
    assert (E1 : In (eps k2 (start n1)) ts) by (simpl; auto).
    assert (E2 : In (eps k2 (start n2)) ts) by (simpl; auto).
    assert (E3 : In (eps (accept n1) (S k2)) ts) by (simpl; auto).
    assert (E4 : In (eps (accept n2) (S k2)) ts) by (simpl; auto).
    destruct (A _ (fs_accept _ _ _ _ F1)) as [[ua Pa] _].
    assert (Through : nfaPath ts k2 ua (S k2)).
    { apply (path_eps _ _ (start n1)); [exact E1|].
      rewrite <- (app_nil_r ua). apply (nfaPath_app _ _ (accept n1)).
      - apply (nfaPath_incl _ _ _ _ _ I1 Pa).
      - apply (path_eps _ _ (S k2)); [exact E3 | apply path_nil]. }
    intros [<- | [<- | Hq]].
    + split; [exists []; apply path_nil | exists ua; exact Through].
    + split; [exists ua; exact Through | exists []; apply path_nil].
    + apply in_app_or in Hq. destruct Hq as [Hq | Hq].
      * destruct (A q Hq) as [[u Pu] [v Pv]]. split.
        -- exists u. apply (path_eps _ _ (start n1)); [exact E1|].
           apply (nfaPath_incl _ _ _ _ _ I1 Pu).
        -- exists v. rewrite <- (app_nil_r v).
           apply (nfaPath_app _ _ (accept n1)).
           ++ apply (nfaPath_incl _ _ _ _ _ I1 Pv).
           ++ apply (path_eps _ _ (S k2)); [exact E3 | apply path_nil].
      * destruct (B q Hq) as [[u Pu] [v Pv]]. split.
        -- exists u. apply (path_eps _ _ (start n2)); [exact E2|].
           apply (nfaPath_incl _ _ _ _ _ I2 Pu).
        -- exists v. rewrite <- (app_nil_r v).
           apply (nfaPath_app _ _ (accept n2)).
           ++ apply (nfaPath_incl _ _ _ _ _ I2 Pv).
           ++ apply (path_eps _ _ (S k2)); [exact E4 | apply path_nil].
  - assert (A := IH1 k). assert (F1 := fragOf_spec r1 k).
    destruct (fragOf r1 k) as [n1 k1].
    cbn [fst snd] in *. simpl states. simpl start. simpl accept.
    simpl transitions.
    set (ts := [eps k1 (start n1); eps k1 (S k1);
                eps (accept n1) (start n1); eps (accept n1) (S k1)]
               ++ transitions n1).
    assert (I1 : incl (transitions n1) ts)
      by (intros t Ht; apply in_or_app; auto).
    assert (E1 : In (eps k1 (start n1)) ts) by (simpl; auto).
    assert (E2 : In (eps k1 (S k1)) ts) by (simpl; auto).
    assert (E4 : In (eps (accept n1) (S k1)) ts) by (simpl; auto).
    assert (Skip : nfaPath ts k1 [] (S k1))
      by (apply (path_eps _ _ (S k1)); [exact E2 | apply path_nil]).
    intros [<- | [<- | Hq]].
    + split; [exists []; apply path_nil | exists []; exact Skip].
    + split; [exists []; exact Skip | exists []; apply path_nil].
    + destruct (A q Hq) as [[u Pu] [v Pv]]. split.
      * exists u. apply (path_eps _ _ (start n1)); [exact E1|].
        apply (nfaPath_incl _ _ _ _ _ I1 Pu).
      * exists v. rewrite <- (app_nil_r v).
        apply (nfaPath_app _ _ (accept n1)).
        -- apply (nfaPath_incl _ _ _ _ _ I1 Pv).
        -- apply (path_eps _ _ (S k1)); [exact E4 | apply path_nil].
Qed.

(** X19: an automaton that [postfixToNFA] returns has no useless state:
    each of its states is reached by a walk from the start state, and a
    walk leads from it to the accept state. *)
Theorem postfixToNFA_trim (postfix : string) (k k' : nat) (nfa : NFA)
    (q : nat) :
  postfixToNFA postfix k = (inr nfa, k') ->
  In q (states nfa) ->
  (exists u, nfaPath (transitions nfa) (start nfa) u q)
  /\ (exists v, nfaPath (transitions nfa) q v (accept nfa)).
Proof.
  intros E Hq.
  destruct (postfixToNFA_fragOf _ _ _ _ E) as [r [n [_ [_ [Ef ->]]]]].
  simpl in *. apply (proj1 (setOf_In Nat.eqb Nat.eqb_eq _ _)) in Hq.
  assert (T := fragOf_trim r k q). rewrite Ef in T. apply T. exact Hq.
Qed.

Lemma postfixToNFA_trim_witness :
  (exists u, nfaPath (transitions nfa_ab) (start nfa_ab) u 2)
  /\ (exists v, nfaPath (transitions nfa_ab) 2 v (accept nfa_ab)).
Proof.
  apply (postfixToNFA_trim "ab." 0 4 nfa_ab 2); [reflexivity|].
  simpl. auto.
Defined.

(** ** Out-degrees *)

Lemma outDegree_app (ts1 ts2 : list Transition) (q : nat) :
  outDegree (ts1 ++ ts2) q = outDegree ts1 q + outDegree ts2 q.
Proof. unfold outDegree. rewrite filter_app, length_app. reflexivity. Qed.

Lemma outDegree_cons (t : Transition) (ts : list Transition) (q : nat) :
  outDegree (t :: ts) q
  = (if Nat.eqb (t_from t) q then 1 else 0) + outDegree ts q.
Proof.
  unfold outDegree. simpl. destruct (Nat.eqb (t_from t) q); reflexivity.
Qed.

Lemma outDegree_nil (q : nat) : outDegree [] q = 0.
Proof. reflexivity. Qed.

Lemma outDegree_pos (ts : list Transition) (t : Transition) :
  In t ts -> 1 <= outDegree ts (t_from t).
Proof.
  intros H. unfold outDegree.
  assert (I : In t (filter (fun t' => Nat.eqb (t_from t') (t_from t)) ts)).
  { apply filter_In. split; [exact H | apply Nat.eqb_refl]. }
  destruct (filter _ ts); [destruct I | simpl; lia].
Qed.

Lemma outDegree_outside (ts : list Transition) (q : nat) :
  (forall t, In t ts -> t_from t <> q) -> outDegree ts q = 0.
Proof.
  intros H. unfold outDegree. induction ts as [| t ts IH]; [reflexivity|].
  simpl. destruct (Nat.eqb_spec (t_from t) q) as [E | _].
  - exfalso. apply (H t); [left; reflexivity | exact E].
  - apply IH. intros t' Ht'. apply H. right. exact Ht'.
Qed.

Lemma fragSpec_outside (r : regex) (k k' : nat) (n : NFA) (q : nat) :
  fragSpec r k n k' -> ~ (k <= q < k') -> outDegree (transitions n) q = 0.
Proof.
  intros F Hq. apply outDegree_outside. intros t Ht E.
  destruct (fragSpec_edge _ _ _ _ t F Ht) as [A _]. subst q. auto.
Qed.

Lemma fragOf_degrees (r : regex) :
  forall k, degreesOk (fst (fragOf r k)).
Proof.
  induction r as [c | r1 IH1 r2 IH2 | r1 IH1 r2 IH2 | r1 IH1]; intros k;
    cbn [fragOf].
  - constructor; simpl.
    + intros q. rewrite outDegree_cons, outDegree_nil. cbn [t_from].
      destruct (Nat.eqb k q); lia.
    + rewrite outDegree_cons, outDegree_nil. cbn [t_from].
      destruct (Nat.eqb_spec k (S k)); lia.
    + intros t [<- | []] _. rewrite outDegree_cons, outDegree_nil.
      cbn [t_from]. rewrite Nat.eqb_refl. reflexivity.
  - assert (A := IH1 k). assert (F1 := fragOf_spec r1 k).
    destruct (fragOf r1 k) as [n1 k1].
    assert (B := IH2 k1). assert (F2 := fragOf_spec r2 k1).
    destruct (fragOf r2 k1) as [n2 k2].
    cbn [fst snd] in *.
    assert (Ra1 := fs_range _ _ _ _ F1 _ (fs_accept _ _ _ _ F1)).
    assert (Ra2 := fs_range _ _ _ _ F2 _ (fs_accept _ _ _ _ F2)).
    assert (O1 := fun q => fragSpec_outside _ _ _ _ q F1).
    assert (O2 := fun q => fragSpec_outside _ _ _ _ q F2).
    assert (Deg : forall q,
               outDegree (transitions n1 ++ transitions n2
                          ++ [eps (accept n1) (start n2)]) q
               = (if Nat.ltb q k1
                  then (if Nat.eqb (accept n1) q then 1
                        else outDegree (transitions n1) q)
                  else outDegree (transitions n2) q)).
    { intros q. rewrite !outDegree_app, outDegree_cons, outDegree_nil.
      cbn [t_from eps].
      destruct (Nat.ltb_spec q k1) as [L | L].
      - rewrite (O2 q) by lia.
        destruct (Nat.eqb_spec (accept n1) q) as [<- | _].
        + rewrite (dg_accept _ A). reflexivity.
        + lia.
      - rewrite (O1 q) by lia.
        destruct (Nat.eqb_spec (accept n1) q); lia. }
    constructor; simpl.
    + intros q. rewrite Deg.
      destruct (Nat.ltb q k1); [destruct (Nat.eqb (accept n1) q)|];
        [lia | apply (dg_two _ A) | apply (dg_two _ B)].
    + rewrite Deg. destruct (Nat.ltb_spec (accept n2) k1); [lia|].
      apply (dg_accept _ B).
    + intros t Ht Hl. rewrite Deg.
      apply in_app_or in Ht. destruct Ht as [Ht | Ht].
      * destruct (fragSpec_edge _ _ _ _ t F1 Ht) as [Rt _].
        destruct (Nat.ltb_spec (t_from t) k1); [|lia].
        assert (P := outDegree_pos _ _ Ht).
        destruct (Nat.eqb_spec (accept n1) (t_from t)) as [E | _].
        -- rewrite <- E, (dg_accept _ A) in P. lia.
        -- apply (dg_label _ A t Ht Hl).
      * apply in_app_or in Ht. destruct Ht as [Ht | [<- | []]].
        -- destruct (fragSpec_edge _ _ _ _ t F2 Ht) as [Rt _].
           destruct (Nat.ltb_spec (t_from t) k1); [lia|].
           apply (dg_label _ B t Ht Hl).
        -- exfalso. apply Hl. reflexivity.
  - assert (A := IH1 k). assert (F1 := fragOf_spec r1 k).
    destruct (fragOf r1 k) as [n1 k1].
    assert (B := IH2 k1). assert (F2 := fragOf_spec r2 k1).
    destruct (fragOf r2 k1) as [n2 k2].
    cbn [fst snd] in *.
    assert (Ra1 := fs_range _ _ _ _ F1 _ (fs_accept _ _ _ _ F1)).
    assert (Ra2 := fs_range _ _ _ _ F2 _ (fs_accept _ _ _ _ F2)).
    assert (O1 := fun q => fragSpec_outside _ _ _ _ q F1).
    assert (O2 := fun q => fragSpec_outside _ _ _ _ q F2).
    assert (Deg : forall q,
               outDegree ([eps k2 (start n1); eps k2 (start n2);
                           eps (accept n1) (S k2); eps (accept n2) (S k2)]
                          ++ transitions n1 ++ transitions n2) q
               = (if Nat.eqb k2 q then 2
                  else if Nat.eqb (accept n1) q then 1
                  else if Nat.eqb (accept n2) q then 1
                  else if Nat.ltb q k1 then outDegree (transitions n1) q
                  else outDegree (transitions n2) q)).
    { intros q. rewrite !outDegree_app, !outDegree_cons, outDegree_nil.
      cbn [t_from eps].
      destruct (Nat.eqb_spec k2 q) as [<- | N0].
      - rewrite (O1 k2), (O2 k2) by lia.
        destruct (Nat.eqb_spec (accept n1) k2); [lia|].
        destruct (Nat.eqb_spec (accept n2) k2); [lia|]. reflexivity.
      - destruct (Nat.eqb_spec (accept n1) q) as [<- | N1].
        + rewrite (dg_accept _ A), (O2 (accept n1)) by lia.
          destruct (Nat.eqb_spec (accept n2) (accept n1)); lia.
        + destruct (Nat.eqb_spec (accept n2) q) as [<- | N2].
          * rewrite (dg_accept _ B), (O1 (accept n2)) by lia. reflexivity.
          * destruct (Nat.ltb_spec q k1).
            -- rewrite (O2 q) by lia. lia.
            -- rewrite (O1 q) by lia. lia. }
    constructor; cbn [transitions accept].
    + intros q. rewrite Deg.
      destruct (Nat.eqb k2 q); [lia|].
      destruct (Nat.eqb (accept n1) q); [lia|].
      destruct (Nat.eqb (accept n2) q); [lia|].
      destruct (Nat.ltb q k1); [apply (dg_two _ A) | apply (dg_two _ B)].
    + rewrite Deg.
      destruct (Nat.eqb_spec k2 (S k2)); [lia|].
      destruct (Nat.eqb_spec (accept n1) (S k2)); [lia|].
      destruct (Nat.eqb_spec (accept n2) (S k2)); [lia|].
      destruct (Nat.ltb_spec (S k2) k1); [lia|].
      apply O2. lia.
    + intros t Ht Hl. rewrite Deg.
      apply in_app_or in Ht. destruct Ht as [Ht | Ht].
      { exfalso. apply Hl.
        destruct Ht as [<- | [<- | [<- | [<- | []]]]]; reflexivity. }
      apply in_app_or in Ht. destruct Ht as [Ht | Ht].
      * destruct (fragSpec_edge _ _ _ _ t F1 Ht) as [Rt _].
        assert (P := outDegree_pos _ _ Ht).
        destruct (Nat.eqb_spec k2 (t_from t)); [lia|].
        destruct (Nat.eqb_spec (accept n1) (t_from t)) as [E | _].
        { rewrite <- E, (dg_accept _ A) in P. lia. }
        destruct (Nat.eqb_spec (accept n2) (t_from t)); [lia|].
        destruct (Nat.ltb_spec (t_from t) k1); [|lia].
        apply (dg_label _ A t Ht Hl).
      * destruct (fragSpec_edge _ _ _ _ t F2 Ht) as [Rt _].
        assert (P := outDegree_pos _ _ Ht).
        destruct (Nat.eqb_spec k2 (t_from t)); [lia|].
        destruct (Nat.eqb_spec (accept n1) (t_from t)); [lia|].
        destruct (Nat.eqb_spec (accept n2) (t_from t)) as [E | _].
        { rewrite <- E, (dg_accept _ B) in P. lia. }
        destruct (Nat.ltb_spec (t_from t) k1); [lia|].
        apply (dg_label _ B t Ht Hl).
  - assert (A := IH1 k). assert (F1 := fragOf_spec r1 k).
    destruct (fragOf r1 k) as [n1 k1].
    cbn [fst snd] in *.
    assert (Ra1 := fs_range _ _ _ _ F1 _ (fs_accept _ _ _ _ F1)).
    assert (O1 := fun q => fragSpec_outside _ _ _ _ q F1).
    assert (Deg : forall q,
               outDegree ([eps k1 (start n1); eps k1 (S k1);
                           eps (accept n1) (start n1);
                           eps (accept n1) (S k1)]
                          ++ transitions n1) q
               = (if Nat.eqb k1 q then 2
                  else if Nat.eqb (accept n1) q then 2
                  else outDegree (transitions n1) q)).
    { intros q. rewrite !outDegree_app, !outDegree_cons, outDegree_nil.
      cbn [t_from eps].
      destruct (Nat.eqb_spec k1 q) as [<- | N0].
      - rewrite (O1 k1) by lia.
        destruct (Nat.eqb_spec (accept n1) k1); [lia|]. reflexivity.
      - destruct (Nat.eqb_spec (accept n1) q) as [<- | N1].
        + rewrite (dg_accept _ A). reflexivity.
        + lia. }
    constructor; cbn [transitions accept].
    + intros q. rewrite Deg.
      destruct (Nat.eqb k1 q); [lia|].
      destruct (Nat.eqb (accept n1) q); [lia|].
      apply (dg_two _ A).
    + rewrite Deg.
      destruct (Nat.eqb_spec k1 (S k1)); [lia|].
      destruct (Nat.eqb_spec (accept n1) (S k1)); [lia|].
      apply O1. lia.
    + intros t Ht Hl. rewrite Deg.
      apply in_app_or in Ht. destruct Ht as [Ht | Ht].
      { exfalso. apply Hl.
        destruct Ht as [<- | [<- | [<- | [<- | []]]]]; reflexivity. }
      destruct (fragSpec_edge _ _ _ _ t F1 Ht) as [Rt _].
      assert (P := outDegree_pos _ _ Ht).
      destruct (Nat.eqb_spec k1 (t_from t)); [lia|].
      destruct (Nat.eqb_spec (accept n1) (t_from t)) as [E | _].
      { rewrite <- E, (dg_accept _ A) in P. lia. }
      apply (dg_label _ A t Ht Hl).
Qed.

(** X20: in an automaton that [postfixToNFA] returns, no state has more
    than two outgoing transitions, and a state that a labelled transition
    leaves has no other outgoing transition. *)
Theorem postfixToNFA_degrees (postfix : string) (k k' : nat) (nfa : NFA) :
  postfixToNFA postfix k = (inr nfa, k') ->
  (forall q, outDegree (transitions nfa) q <= 2)
  /\ (forall t, In t (transitions nfa) -> t_symbol t <> None ->
                outDegree (transitions nfa) (t_from t) = 1).
Proof.
  intros E.
  destruct (postfixToNFA_fragOf _ _ _ _ E) as [r [n [_ [_ [Ef ->]]]]].
  assert (D := fragOf_degrees r k). rewrite Ef in D. simpl in *.
  split; [apply (dg_two _ D) | apply (dg_label _ D)].
Qed.

Lemma postfixToNFA_degrees_witness :
  (forall q, outDegree (transitions nfa_ab) q <= 2)
  /\ (forall t, In t (transitions nfa_ab) -> t_symbol t <> None ->
                outDegree (transitions nfa_ab) (t_from t) = 1).
Proof. apply (postfixToNFA_degrees "ab." 0 4 nfa_ab). reflexivity. Defined.

(** ** The DFA does not depend on the names of the NFA states *)

Section Rename.
Variable f : nat -> nat.
Hypothesis f_leb : forall x y, Nat.leb (f x) (f y) = Nat.leb x y.

Lemma rename_inj (x y : nat) : f x = f y -> x = y.
Proof.
  intros E. assert (A := f_leb x y). assert (B := f_leb y x).
  rewrite E in A. rewrite E in B. rewrite Nat.leb_refl in A, B.
  symmetry in A, B. apply Nat.leb_le in A, B. lia.
Qed.

Lemma rename_eqb (x y : nat) : Nat.eqb (f x) (f y) = Nat.eqb x y.
Proof.
  destruct (Nat.eqb_spec x y) as [-> | N]; [apply Nat.eqb_refl|].
  apply Nat.eqb_neq. intros E. apply N, rename_inj, E.
Qed.

Lemma setAdd_rename (s : list nat) (x : nat) :
  setAdd Nat.eqb (map f s) (f x) = map f (setAdd Nat.eqb s x).
Proof.
  unfold setAdd. rewrite (setHas_map f rename_inj).
  destruct (setHas Nat.eqb s x); [reflexivity|].
  rewrite map_app. reflexivity.
Qed.

Lemma closureScan_rename (ts : list Transition) (s : nat) :
  forall res stack,
    closureScan (map (relabelT f) ts) (f s) (map f res, map f stack)
    = (map f (fst (closureScan ts s (res, stack))),
       map f (snd (closureScan ts s (res, stack)))).
Proof.
  unfold closureScan. induction ts as [| t ts IH]; intros res stack.
  - reflexivity.
  - cbn [map fold_left relabelT t_from t_to t_symbol].
    rewrite rename_eqb, (setHas_map f rename_inj).
    destruct (Nat.eqb (t_from t) s && isNull (t_symbol t)
              && negb (setHas Nat.eqb res (t_to t))).
    + rewrite setAdd_rename. apply (IH _ (t_to t :: stack)).
    + apply IH.
Qed.

Lemma closureLoop_rename (ts : list Transition) (fuel : nat) :
  forall stack res,
    closureLoop fuel (map (relabelT f) ts) (map f stack) (map f res)
    = option_map (map f) (closureLoop fuel ts stack res).
Proof.
  induction fuel as [| fuel IH]; intros stack res; [reflexivity|].
  cbn [closureLoop]. destruct stack as [| s stack]; [reflexivity|].
  cbn [map]. rewrite closureScan_rename.
  destruct (closureScan ts s (res, stack)) as [res' stack'].
  cbn [fst snd]. apply IH.
Qed.

Lemma epsilonClosure_rename (n : NFA) (s : list nat) :
  epsilonClosure (relabel f n) (map f s) = map f (epsilonClosure n s).
Proof.
  unfold epsilonClosure, closureFuel. cbn [relabel transitions].
  rewrite !length_map, <- map_rev, closureLoop_rename.
  destruct (closureLoop _ (transitions n) (List.rev s) s); reflexivity.
Qed.

Lemma moveScan_rename (ts : list Transition) (s : nat) (sym : string) :
  forall res,
    fold_left
      (fun res t =>
         if Nat.eqb (t_from t) (f s) && symbolIs (t_symbol t) sym
         then setAdd Nat.eqb res (t_to t) else res)
      (map (relabelT f) ts) (map f res)
    = map f
        (fold_left
           (fun res t =>
              if Nat.eqb (t_from t) s && symbolIs (t_symbol t) sym
              then setAdd Nat.eqb res (t_to t) else res)
           ts res).
Proof.
  induction ts as [| t ts IH]; intros res; [reflexivity|].
  cbn [map fold_left relabelT t_from t_to t_symbol].
  rewrite rename_eqb.
  destruct (Nat.eqb (t_from t) s && symbolIs (t_symbol t) sym).
  - rewrite setAdd_rename. apply IH.
  - apply IH.
Qed.

Lemma move_rename (n : NFA) (s : list nat) (sym : string) :
  move (relabel f n) (map f s) sym = map f (move n s sym).
Proof.
  unfold move. cbn [relabel transitions].
  change (@nil nat) with (map f []) at 1.
  generalize (@nil nat) as res.
  induction s as [| x s IH]; intros res; [reflexivity|].
  cbn [map fold_left]. rewrite moveScan_rename. apply IH.
Qed.

Lemma insertAsc_rename (x : nat) (l : list nat) :
  insertAsc (f x) (map f l) = map f (insertAsc x l).
Proof.
  induction l as [| y l IH]; [reflexivity|].
  cbn [map insertAsc]. rewrite f_leb.
  destruct (Nat.leb x y); [reflexivity|].
  cbn [map]. rewrite IH. reflexivity.
Qed.

Lemma sortAsc_rename (l : list nat) :
  sortAsc (map f l) = map f (sortAsc l).
Proof.
  unfold sortAsc. induction l as [| x l IH]; [reflexivity|].
  cbn [map fold_right]. rewrite IH. apply insertAsc_rename.
Qed.

Lemma map_rename_inj (l1 l2 : list nat) : map f l1 = map f l2 -> l1 = l2.
Proof.
  revert l2. induction l1 as [| x l1 IH]; intros [| y l2] E;
    try discriminate E; [reflexivity|].
  injection E as E1 E2. apply rename_inj in E1. apply IH in E2. congruence.
Qed.

Lemma keyOf_rename_eqb (s1 s2 : list nat) :
  String.eqb (keyOf (map f s1)) (keyOf (map f s2))
  = String.eqb (keyOf s1) (keyOf s2).
Proof.
  apply eq_true_iff_eq. rewrite !String.eqb_eq, !keyOf_sortAsc.
  rewrite !sortAsc_rename. split.
  - apply map_rename_inj.
  - intros ->. reflexivity.
Qed.

Lemma mapHas_rename (sets : list (list nat)) (c : list nat) :
  forall ids,
    mapHas (combine (map keyOf (map (map f) sets)) ids) (keyOf (map f c))
    = mapHas (combine (map keyOf sets) ids) (keyOf c).
Proof.
  unfold mapHas. induction sets as [| s sets IH]; intros [| i ids];
    try reflexivity.
  cbn [map combine existsb fst]. rewrite keyOf_rename_eqb, IH. reflexivity.
Qed.

Lemma mapGet_rename (sets : list (list nat)) (c : list nat) :
  forall ids,
    mapGet (combine (map keyOf (map (map f) sets)) ids) (keyOf (map f c))
    = mapGet (combine (map keyOf sets) ids) (keyOf c).
Proof.
  unfold mapGet. induction sets as [| s sets IH]; intros [| i ids];
    try reflexivity.
  cbn [map combine find fst]. rewrite keyOf_rename_eqb.
  destruct (String.eqb (keyOf s) (keyOf c)); [reflexivity | apply IH].
Qed.

Lemma symbolStep_rename (n : NFA) (cur : list nat) (fromId : nat)
    (st st' : Subsets) (sym : string) :
  renamedSubsets f st st' ->
  renamedSubsets f (symbolStep n cur fromId st sym)
    (symbolStep (relabel f n) (map f cur) fromId st' sym).
Proof.
  intros R. unfold symbolStep. rewrite move_rename.
  destruct (move n cur sym) as [| x moved] eqn:Em; [exact R|].
  rewrite epsilonClosure_rename.
  set (closure := epsilonClosure n (x :: moved)).
  cbn [map].
  destruct R as [sets [ids [Hl [M [M' [L' [O' I']]]]]]].
  rewrite M, M', mapHas_rename.
  destruct (mapHas (combine (map keyOf sets) ids) (keyOf closure)) eqn:Eh.
  - cbn [dfaStatesMap dfaStatesList out_transitions idx].
    rewrite M, M'. unfold mapGetBang. rewrite mapGet_rename.
    exists sets, ids. cbn. rewrite O'. auto 10.
  - cbn [dfaStatesMap dfaStatesList out_transitions idx].
    assert (Eh' : mapHas (combine (map keyOf (map (map f) sets)) ids)
                    (keyOf (map f closure)) = false)
      by (rewrite mapHas_rename; exact Eh).
    unfold mapSet. rewrite Eh, Eh'. rewrite L', length_map.
    set (v := length (dfaStatesList st)).
    assert (C1 : combine (map keyOf sets) ids ++ [(keyOf closure, v)]
                 = combine (map keyOf (sets ++ [closure])) (ids ++ [v])).
    { rewrite map_app. symmetry. apply combine_snoc.
      rewrite length_map. exact Hl. }
    assert (C2 : combine (map keyOf (map (map f) sets)) ids
                 ++ [(keyOf (map f closure), v)]
                 = combine (map keyOf (map (map f) (sets ++ [closure])))
                     (ids ++ [v])).
    { rewrite !map_app. symmetry. apply combine_snoc.
      rewrite !length_map. exact Hl. }
    rewrite C1, C2. unfold mapGetBang. rewrite mapGet_rename.
    exists (sets ++ [closure]), (ids ++ [v]).
    cbn [dfaStatesMap dfaStatesList out_transitions idx].
    split; [rewrite !length_app; simpl; lia|].
    split; [reflexivity|]. split; [reflexivity|].
    split; [rewrite map_app; reflexivity|].
    split; [rewrite O'; reflexivity | exact I'].
Qed.

Lemma symbolRow_rename (n : NFA) (cur : list nat) (fromId : nat)
    (alphabet : list string) :
  forall st st',
    renamedSubsets f st st' ->
    renamedSubsets f
      (fold_left (symbolStep n cur fromId) alphabet st)
      (fold_left (symbolStep (relabel f n) (map f cur) fromId) alphabet st').
Proof.
  induction alphabet as [| sym alphabet IH]; intros st st' R; [exact R|].
  simpl. apply IH, symbolStep_rename, R.
Qed.

Lemma subsetStep_rename (n : NFA) (alphabet : list string)
    (st st' : Subsets) :
  renamedSubsets f st st' ->
  renamedSubsets f (subsetStep n alphabet st)
    (subsetStep (relabel f n) alphabet st').
Proof.
  intros R. unfold subsetStep. cbv zeta.
  assert (R0 := R). destruct R0 as [sets [ids [Hl [M [M' [L' [O' I']]]]]]].
  rewrite L', I'.
  assert (En : nth (idx st) (map (map f) (dfaStatesList st)) []
               = map f (nth (idx st) (dfaStatesList st) []))
    by exact (map_nth (map f) (dfaStatesList st) [] (idx st)).
  rewrite En.
  set (cur := nth (idx st) (dfaStatesList st) []).
  assert (Ef : mapGetBang (dfaStatesMap st') (keyOf (map f cur))
               = mapGetBang (dfaStatesMap st) (keyOf cur))
    by (unfold mapGetBang; rewrite M, M', mapGet_rename; reflexivity).
  rewrite Ef.
  set (fromId := mapGetBang (dfaStatesMap st) (keyOf cur)).
  assert (R1 := symbolRow_rename n cur fromId alphabet st st' R).
  destruct R1 as [sets1 [ids1 [Hl1 [M1 [M1' [L1' [O1' I1']]]]]]].
  exists sets1, ids1. cbn. rewrite I1'. auto 10.
Qed.

Lemma subsetTurns_rename (n : NFA) (alphabet : list string) (turns : nat) :
  forall st st',
    renamedSubsets f st st' ->
    renamedOutcome f (subsetTurns turns n alphabet st)
      (subsetTurns turns (relabel f n) alphabet st').
Proof.
  induction turns as [| turns IH]; intros st st' R; [exact R|].
  cbn [subsetTurns].
  assert (R0 := R). destruct R0 as [sets [ids [Hl [M [M' [L' [O' I']]]]]]].
  rewrite L', I', length_map.
  destruct (Nat.ltb (idx st) (length (dfaStatesList st))).
  - apply IH, subsetStep_rename, R.
  - exact R.
Qed.

Lemma subsetLoop_rename (n : NFA) (alphabet : list string) (depth : nat) :
  forall st st',
    renamedSubsets f st st' ->
    renamedOutcome f (subsetLoop depth n alphabet st)
      (subsetLoop depth (relabel f n) alphabet st').
Proof.
  induction depth as [| depth IH]; intros st st' R.
  - apply subsetTurns_rename, R.
  - cbn [subsetLoop]. assert (H := IH st st' R).
    destruct (subsetLoop depth n alphabet st) as [st1 | st1];
      destruct (subsetLoop depth (relabel f n) alphabet st') as [st1' | st1'];
      try contradiction.
    + apply IH, H.
    + exact H.
Qed.

Lemma alphabetOf_rename (n : NFA) :
  alphabetOf (relabel f n) = alphabetOf n.
Proof.
  unfold alphabetOf. cbn [relabel transitions].
  generalize (@nil string) as acc.
  induction (transitions n) as [| t ts IH]; intros acc; [reflexivity|].
  cbn [map fold_left relabelT t_symbol]. apply IH.
Qed.

Lemma initialSubsets_rename (n : NFA) :
  renamedSubsets f (initialSubsets n) (initialSubsets (relabel f n)).
Proof.
  unfold initialSubsets. cbn [relabel start].
  change (setOf Nat.eqb [f (start n)]) with (map f (setOf Nat.eqb [start n])).
  rewrite epsilonClosure_rename.
  exists [epsilonClosure n (setOf Nat.eqb [start n])], [0].
  cbn. auto 10.
Qed.

Lemma finalSubsets_rename (n : NFA) :
  renamedSubsets f (finalSubsets n) (finalSubsets (relabel f n)).
Proof.
  unfold finalSubsets, subsetDepth. rewrite alphabetOf_rename.
  cbn [relabel transitions]. rewrite length_map.
  assert (H := subsetLoop_rename n (alphabetOf n)
                 (length (transitions n) + 2) _ _ (initialSubsets_rename n)).
  destruct (subsetLoop _ n _ _) as [st | st];
    destruct (subsetLoop _ (relabel f n) _ _) as [st' | st'];
    try contradiction; exact H.
Qed.

Lemma acceptIds_rename (sets : list (list nat)) (a : nat) :
  forall ids,
    acceptIds (combine (map keyOf (map (map f) sets)) ids) (f a)
    = acceptIds (combine (map keyOf sets) ids) a.
Proof.
  unfold acceptIds. induction sets as [| s sets IH]; intros [| i ids];
    try reflexivity.
  cbn [map combine filter fst].
  rewrite !includes_keyOf, (setHas_map f rename_inj).
  destruct (setHas Nat.eqb s a); cbn [map snd]; rewrite IH; reflexivity.
Qed.

Lemma nfaToDfa_rename (n : NFA) : nfaToDfa (relabel f n) = nfaToDfa n.
Proof.
  unfold nfaToDfa.
  destruct (finalSubsets_rename n) as [sets [ids [Hl [M [M' [L' [O' I']]]]]]].
  rewrite M, M', L', O', length_map. cbn [relabel accept].
  rewrite acceptIds_rename. reflexivity.
Qed.
End Rename.

(** X21: the DFA that [nfaToDfa] builds does not depend on the names of
    the NFA states, as long as their order is kept: renaming the states of
    the NFA by an order-preserving function leaves the DFA, with its state
    ids, as it is. *)
Theorem nfaToDfa_renamed (f : nat -> nat) (nfa : NFA) :
  (forall x y, Nat.leb (f x) (f y) = Nat.leb x y) ->
  nfaToDfa (relabel f nfa) = nfaToDfa nfa.
Proof. intros H. apply nfaToDfa_rename, H. Qed.

Lemma nfaToDfa_renamed_witness :
  nfaToDfa (relabel (fun q => q + 3) nfa_ab) = nfaToDfa nfa_ab.
Proof.
  apply (nfaToDfa_renamed (fun q => q + 3) nfa_ab).
  intros x y. apply eq_true_iff_eq. rewrite !Nat.leb_le. lia.
Defined.

(** X22: the DFA of a pattern, and so its exported text, is the same
    whatever the value of the id counter when the pattern is compiled:
    with or without [resetIds]. *)
Theorem compile_dfa_counter (pattern : string) (k1 k2 k1' k2' : nat)
    (nfa1 nfa2 : NFA) :
  compile pattern k1 = (inr nfa1, k1') ->
  compile pattern k2 = (inr nfa2, k2') ->
  nfaToDfa nfa1 = nfaToDfa nfa2
  /\ dfaToDot (nfaToDfa nfa1) = dfaToDot (nfaToDfa nfa2).
Proof.
  unfold compile. intros E1 E2.
  assert (S1 := postfixToNFA_shift k1 (regexToPostfix pattern) 0).
  assert (S2 := postfixToNFA_shift k2 (regexToPostfix pattern) 0).
  simpl in S1, S2. rewrite E1 in S1. rewrite E2 in S2.
  destruct (postfixToNFA (regexToPostfix pattern) 0) as [[e | n0] k0];
    [discriminate S1|].
  injection S1 as -> _. injection S2 as -> _.
  assert (M : forall d x y, Nat.leb (x + d) (y + d) = Nat.leb x y).
  { intros d x y. apply eq_true_iff_eq. rewrite !Nat.leb_le. lia. }
  rewrite (nfaToDfa_rename _ (M k1)), (nfaToDfa_rename _ (M k2)).
  split; reflexivity.
Qed.

Lemma compile_dfa_counter_witness :
  nfaToDfa nfa_ab = nfaToDfa (relabel (fun q => q + 5) nfa_ab)
  /\ dfaToDot (nfaToDfa nfa_ab)
     = dfaToDot (nfaToDfa (relabel (fun q => q + 5) nfa_ab)).
Proof.
  apply (compile_dfa_counter "ab" 0 5 4 9); vm_compute; reflexivity.
Defined.
